(** * price-worker: cached price series, alignment and weighted aggregation

    A shallow embedding of [src/index.ts].  JavaScript numbers that carry
    prices and weights are IEEE-754 binary64 values ([float], Rocq's
    primitive floats, round-to-nearest-even as in JavaScript).  Timestamps are
    the integers returned by [Date.getTime()] (milliseconds), kept as [Z].
    A date string that does not parse has the time value [NaN], which no
    integer of the range of [Date] stands for: the batch snapshot, where
    such a date makes [toISOString] throw, reads a timestamp outside that
    range as one ([JS.validTimeb]); the alignment is modelled for dates
    that parse.  Where the code divides two timestamps the quotient is the
    binary64 division of their conversions.  The key-value cache, the upstream price provider and the
    string-to-number conversion are the environment of the worker. *)

From Stdlib Require Import Reals Lra.
From Stdlib Require Import ZArith Lia Floats Bool Ascii String.
From stdpp Require Import gmap strings list fin_maps sorting.

Local Open Scope Z_scope.

(** ** JavaScript numbers *)

Module JS.

(** [Number.isInteger]: a finite value without fractional part. *)
Definition isInteger (x : float) : bool :=
  match Prim2SF x with
  | S754_zero _ => true
  | S754_finite _ m e => (0 <=? e) || (Z.pos m mod 2 ^ (- e) =? 0)
  | _ => false
  end.

(** The binary64 value of an integer (exact below [2^53], rounded to
    nearest above; faithful for magnitudes below [2^63], which covers every
    difference of two [Date] timestamps). *)
Definition ofZ (z : Z) : float :=
  match z with
  | Z0 => 0%float
  | Zpos _ => of_uint63 (Uint63.of_Z z)
  | Zneg p => (- of_uint63 (Uint63.of_Z (Zpos p)))%float
  end.

(** The range of a valid [Date]: at most 8.64e15 ms from the epoch. *)
Definition validTime (t : Z) : Prop := Z.abs t <= 8640000000000000.

(** The same range as a test.  [getTime()] never returns an integer outside
    it: a date that does not parse has the time value [NaN].  Where the
    code's treatment of such a date is modelled (the batch snapshot), it is
    a timestamp that fails this test. *)
Definition validTimeb (t : Z) : bool := Z.abs t <=? 8640000000000000.

(** Results of [Math.min] and [Math.max] over timestamps: an integer, or
    an infinity when the spread argument list is empty. *)
Inductive Time := NegInfinity | Finite (t : Z) | PosInfinity.

Definition leb (a b : Time) : bool :=
  match a, b with
  | NegInfinity, _ => true
  | _, PosInfinity => true
  | Finite x, Finite y => x <=? y
  | _, _ => false
  end.

Definition max2 (a b : Time) : Time := if leb a b then b else a.
Definition min2 (a b : Time) : Time := if leb a b then a else b.

(** [Math.max(...l)] and [Math.min(...l)]. *)
Definition max (l : list Time) : Time := foldr max2 NegInfinity l.
Definition min (l : list Time) : Time := foldr min2 PosInfinity l.

(** [s.split(',')] for a one-character separator. *)
Fixpoint split (sep : ascii) (s : string) : list string :=
  match s with
  | EmptyString => [EmptyString]
  | String c s' =>
      if Ascii.eqb c sep then EmptyString :: split sep s'
      else match split sep s' with
           | [] => [String c EmptyString]
           | h :: t => String c h :: t
           end
  end.

(** [toLowerCase] on the ASCII letters (other characters are kept).  On a
    string of ASCII characters this is [String.prototype.toLowerCase]; on
    other strings the JavaScript function also maps letters outside ASCII,
    which this one does not. *)
Definition lowerChar (c : ascii) : ascii :=
  let n := nat_of_ascii c in
  if ((65 <=? n) && (n <=? 90))%nat then ascii_of_nat (n + 32) else c.

Fixpoint toLowerCase (s : string) : string :=
  match s with
  | EmptyString => EmptyString
  | String c s' => String (lowerChar c) (toLowerCase s')
  end.

(** The strings made of ASCII characters only. *)
Definition isAscii (s : string) : bool :=
  forallb (λ c, (nat_of_ascii c <? 128)%nat) (list_ascii_of_string s).

(** A string is falsy exactly when it is empty; an absent query
    parameter is [undefined], falsy as well. *)
Definition truthy (o : option string) : bool :=
  match o with
  | Some (String _ _) => true
  | _ => false
  end.

(** A [Map<number, number>] in insertion order: [set] overwrites the value
    of a present key in place and appends an absent one. *)
Fixpoint mapSet (k : Z) (v : float) (m : list (Z * float)) : list (Z * float) :=
  match m with
  | [] => [(k, v)]
  | (k', v') :: m' => if k' =? k then (k', v) :: m' else (k', v') :: mapSet k v m'
  end.

(** A plain decimal literal [ddd] or [ddd.ddd] read as a number: the
    correctly rounded quotient of its digits by the power of ten (exact
    operands for up to fifteen digits).  Anything else is [NaN].  It stands
    for [Number] and [parseFloat] on such literals in the examples. *)
Definition digitValue (c : ascii) : option Z :=
  let n := nat_of_ascii c in
  if ((48 <=? n) && (n <=? 57))%nat then Some (Z.of_nat (n - 48)) else None.

Fixpoint readDigits (s : string) (acc : Z) (frac : option Z) : option (Z * Z) :=
  match s with
  | EmptyString => Some (acc, default 1 frac)
  | String c s' =>
      if Ascii.eqb c "."%char then
        match frac with
        | None => readDigits s' acc (Some 1)
        | Some _ => None
        end
      else match digitValue c with
           | Some d => readDigits s' (10 * acc + d) ((λ p, 10 * p) <$> frac)
           | None => None
           end
  end.

Definition decimal (s : string) : float :=
  match s with
  | EmptyString => nan
  | _ => match readDigits s 0 None with
         | Some (m, p) => (ofZ m / ofZ p)%float
         | None => nan
         end
  end.

End JS.

(** ** Data model *)

Inductive Interval := I24h | I7d | I30d.

Definition intervalName (i : Interval) : string :=
  match i with I24h => "24h" | I7d => "7d" | I30d => "30d" end.

(** [isValidInterval]: membership in [ALLOWED_INTERVALS], returning the
    interval the string names. *)
Definition isValidInterval (s : string) : option Interval :=
  if String.eqb s "24h" then Some I24h
  else if String.eqb s "7d" then Some I7d
  else if String.eqb s "30d" then Some I30d
  else None.

Definition CACHE_TTL : Z := 60 * 4.

(** A price point.  [timestamp] is [new Date(p.timestamp).getTime()] and
    [value] is [parseFloat(p.value)]; the points the worker returns carry the
    same two fields.  A timestamp outside the range of [Date] stands for the
    [NaN] of a date that does not parse, see [JS.validTimeb]. *)
Record Point := { timestamp : Z; value : float }.

Record AlchemyPriceData := {
  symbol : string;
  currency : string;
  data : list Point
}.

Record Env := {
  PRICE_CACHE : bool;               (* the KV binding is configured *)
  ALCHEMY_API_KEY : option string
}.

Definition generateCacheKey (sym : string) (i : Interval) : string :=
  "price:" +:+ sym +:+ ":" +:+ intervalName i.

Record TimeRange := { startTime : Z; endTime : Z; apiInterval : string }.

Definition getTimeRangeAndInterval (now : Z) (i : Interval) : TimeRange :=
  match i with
  | I24h => {| startTime := now - 24 * 60 * 60 * 1000; endTime := now; apiInterval := "5m" |}
  | I7d => {| startTime := now - 7 * 24 * 60 * 60 * 1000; endTime := now; apiInterval := "1h" |}
  | I30d => {| startTime := now - 30 * 24 * 60 * 60 * 1000; endTime := now; apiInterval := "1d" |}
  end.

Definition getTimeStep (i : Interval) : Z :=
  match i with
  | I24h => 5 * 60 * 1000
  | I7d => 60 * 60 * 1000
  | I30d => 24 * 60 * 60 * 1000
  end.

(** ** Effects: errors, the cache store and the upstream provider *)

Inductive Error :=
  | CacheNotConfigured
  | ApiKeyNotConfigured
  | AlchemyFailed (status : Z) (statusText details : string)
  | NoDataInRange (sym : string)          (* thrown by fetchPriceFromAlchemy *)
  | NoDataForSymbol (sym : string)        (* thrown by getWeightedPrices *)
  | TypeError                             (* property read on [undefined] *)
  | RangeError.                           (* [toISOString] of an invalid date *)

Inductive Result (A : Type) :=
  | Ok (a : A)
  | Throw (e : Error)
  | Diverge.                              (* a loop that never exits *)
Arguments Ok {A} a.
Arguments Throw {A} e.
Arguments Diverge {A}.

Inductive Event :=
  | KVGet (key : string)
  | KVPut (key : string) (ttl : Z)
  | AlchemyPost (sym : string) (range : TimeRange).

Record World := {
  store : gmap string AlchemyPriceData;   (* contents of the KV namespace *)
  now : Z;                                (* the clock read by [new Date()] *)
  trace : list Event                      (* cache and upstream calls, oldest first *)
}.

Inductive AlchemyReply :=
  | ReplyFailed (status : Z) (statusText details : string)
  | ReplyJson (sym cur : string) (points : option (list Point)).

Definition M (A : Type) : Type := World → Result A * World.

Definition ret {A} (a : A) : M A := λ w, (Ok a, w).
Definition throw {A} (e : Error) : M A := λ w, (Throw e, w).
Definition bind {A B} (c : M A) (k : A → M B) : M B :=
  λ w, match c w with
       | (Ok a, w') => k a w'
       | (Throw e, w') => (Throw e, w')
       | (Diverge, w') => (Diverge, w')
       end.
Definition lift {A} (r : Result A) : M A := λ w, (r, w).
Definition emit (ev : Event) : M unit :=
  λ w, (Ok tt, {| store := store w; now := now w; trace := trace w ++ [ev] |}).

Notation "'do' x <- c ; k" := (bind c (λ x, k))
  (at level 10, x name, c at level 100, k at level 200).

(** Bind of the pure fragment (no world). *)
Definition rbind {A B} (r : Result A) (k : A → Result B) : Result B :=
  match r with
  | Ok a => k a
  | Throw e => Throw e
  | Diverge => Diverge
  end.

Fixpoint rmapM {A B} (f : A → Result B) (l : list A) : Result (list B) :=
  match l with
  | [] => Ok []
  | x :: xs => rbind (f x) (λ y, rbind (rmapM f xs) (λ ys, Ok (y :: ys)))
  end.

(** [Promise.all(l.map(f))].  The asynchronous calls are taken one after the
    other in list order and the first rejection ends the whole.  The runtime
    may interleave the calls, let the calls after a rejected one run on, and
    report the rejection that comes first in time: the statements below
    about a failure say that it is the failure of one of the calls, not of
    which, and say nothing of the cache after a failed [Promise.all] other
    than where no call touches it. *)
Fixpoint mapM {A B} (f : A → M B) (l : list A) : M (list B) :=
  match l with
  | [] => ret []
  | x :: xs => do y <- f x; do ys <- mapM f xs; ret (y :: ys)
  end.

(** ** Alignment and weighting: the body of [getWeightedPrices] after the
    loads *)

Definition timestampsOf (d : AlchemyPriceData) : list JS.Time :=
  map (λ point, JS.Finite (timestamp point)) (data d).

(** [minTimestamp]: the latest of the series' first instants. *)
Definition commonStart (priceDataList : list AlchemyPriceData) : JS.Time :=
  JS.max (map (λ d, JS.min (timestampsOf d)) priceDataList).

(** [maxTimestamp]: the earliest of the series' last instants. *)
Definition commonEnd (priceDataList : list AlchemyPriceData) : JS.Time :=
  JS.min (map (λ d, JS.max (timestampsOf d)) priceDataList).

Definition priceMap (d : AlchemyPriceData) : list (Z * float) :=
  foldl (λ m point, JS.mapSet (timestamp point) (value point) m) [] (data d).

(** The loop [for (let t = minTimestamp; t <= maxTimestamp; t += timeStep)];
    [None] when the fuel runs out before the test fails. *)
Fixpoint timestampsLoop (fuel : nat) (t maxTimestamp timeStep : Z) : option (list Z) :=
  match fuel with
  | O => None
  | S fuel' =>
      if t <=? maxTimestamp
      then (λ l, t :: l) <$> timestampsLoop fuel' (t + timeStep) maxTimestamp timeStep
      else Some []
  end.

Definition loopFuel (minTimestamp maxTimestamp timeStep : Z) : nat :=
  S (Z.to_nat ((maxTimestamp - minTimestamp) / timeStep + 1)).

(** With an infinite bound the test [t <= maxTimestamp] is either false at
    once or true for ever. *)
Definition generateTimestamps (minTimestamp maxTimestamp : JS.Time) (timeStep : Z)
  : Result (list Z) :=
  match minTimestamp, maxTimestamp with
  | JS.Finite a, JS.Finite b =>
      match timestampsLoop (loopFuel a b timeStep) a b timeStep with
      | Some l => Ok l
      | None => Diverge
      end
  | JS.PosInfinity, JS.NegInfinity
  | JS.PosInfinity, JS.Finite _
  | JS.Finite _, JS.NegInfinity => Ok []
  | _, _ => Diverge
  end.

Definition byTime (a b : Z * float) : Prop := a.1 <= b.1.

#[global] Instance byTime_dec : RelDecision byTime := λ a b, Z_le_dec a.1 b.1.

Definition inWindow (minTimestamp maxTimestamp : JS.Time) (entry : Z * float) : bool :=
  JS.leb minTimestamp (JS.Finite entry.1) && JS.leb (JS.Finite entry.1) maxTimestamp.

(** [Array.from(priceMap.entries()).filter(...).sort(...)]. *)
Definition availablePrices (pm : list (Z * float)) (minTimestamp maxTimestamp : JS.Time)
  : list (Z * float) :=
  merge_sort byTime (List.filter (inWindow minTimestamp maxTimestamp) pm).

(** The search loop: the first adjacent pair around [t], if any. *)
Fixpoint findBracket (prices : list (Z * float)) (t : Z)
  : option ((Z * float) * (Z * float)) :=
  match prices with
  | lo :: ((hi :: _) as rest) =>
      if (lo.1 <=? t) && (hi.1 >=? t) then Some (lo, hi) else findBracket rest t
  | _ => None
  end.

Definition lerp (lowerPoint upperPoint : Z * float) (t : Z) : float :=
  let timeDiff := upperPoint.1 - lowerPoint.1 in
  let valueDiff := (upperPoint.2 - lowerPoint.2)%float in
  let ratio := if timeDiff =? 0 then 0%float
               else (JS.ofZ (t - lowerPoint.1) / JS.ofZ timeDiff)%float in
  (lowerPoint.2 + valueDiff * ratio)%float.

(** [lowerPoint] and [upperPoint] start as the first and last available
    entries and are replaced by the pair the search finds. *)
Definition interpolate (prices : list (Z * float)) (t : Z) : option float :=
  match prices with
  | [] => None
  | first :: _ =>
      let '(lowerPoint, upperPoint) :=
        default (first, default first (last prices)) (findBracket prices t) in
      Some (lerp lowerPoint upperPoint t)
  end.

Definition interpolatedValue (sym : string) (pm : list (Z * float))
    (minTimestamp maxTimestamp : JS.Time) (t : Z) : Result float :=
  match interpolate (availablePrices pm minTimestamp maxTimestamp) t with
  | Some v => Ok v
  | None => Throw (NoDataForSymbol sym)
  end.

(** [priceMaps.reduce((sum, priceMap, symbolIndex) => ..., 0)], from
    [symbolIndex] on with the running [sum]. *)
Fixpoint reducePriceMaps (symbolList : list string) (ratioList : list float)
    (totalRatio : float) (minTimestamp maxTimestamp : JS.Time) (t : Z)
    (priceMaps : list (list (Z * float))) (symbolIndex : nat) (sum : float)
  : Result float :=
  match priceMaps with
  | [] => Ok sum
  | pm :: rest =>
      rbind (interpolatedValue (default "undefined" (symbolList !! symbolIndex))
               pm minTimestamp maxTimestamp t)
        (λ interpolated,
           reducePriceMaps symbolList ratioList totalRatio minTimestamp maxTimestamp t
             rest (S symbolIndex)
             (sum + (interpolated * default nan (ratioList !! symbolIndex)) / totalRatio)%float)
  end.

Definition weightedPoint (symbolList : list string) (ratioList : list float)
    (minTimestamp maxTimestamp : JS.Time) (priceMaps : list (list (Z * float))) (t : Z)
  : Result Point :=
  let totalRatio := foldl (λ sum ratio, (sum + ratio)%float) 0%float ratioList in
  rbind (reducePriceMaps symbolList ratioList totalRatio minTimestamp maxTimestamp t
           priceMaps 0%nat 0%float)
    (λ weightedValue, Ok {| timestamp := t; value := weightedValue |}).

Definition weightedSeries (symbolList : list string) (ratioList : list float)
    (i : Interval) (priceDataList : list AlchemyPriceData) : Result (list Point) :=
  let minTimestamp := commonStart priceDataList in
  let maxTimestamp := commonEnd priceDataList in
  let priceMaps := map priceMap priceDataList in
  let timeStep := getTimeStep i in
  rbind (generateTimestamps minTimestamp maxTimestamp timeStep)
    (rmapM (weightedPoint symbolList ratioList minTimestamp maxTimestamp priceMaps)).

(** ** Requests and responses *)

(** The query parameters a route reads; an absent parameter is [None]. *)
Record Query := {
  symbols : option string;
  ratios : option string;
  interval : option string
}.

(** Response payloads before [JSON.stringify]; the wall-clock [timestamp]
    fields that every payload also carries are left out.  The numbers are the
    values the handler computes; what the client reads of a number that is
    not finite is given by [jsonNumber]. *)
Inductive Body :=
  | Text (message : string)
  | PriceJson (sym : string) (i : Interval) (points : list Point)
  | AggregateJson (points : list Point) (i : Interval)
  | PnlJson (pnl firstValue lastValue : float) (firstTimestamp lastTimestamp : Z)
  | BatchJson (values : gmap string float) (latest : Z)
  | ErrorJson (error : Error).

Record Response := { status : Z; body : Body }.

(** [JSON.stringify] writes a number that is not finite ([NaN] or an
    infinity) as [null]. *)
Definition jsonNumber (x : float) : option float :=
  if is_finite x then Some x else None.

(** The [pnl] field of a payload as the client reads it; [Some None] is
    ["pnl":null]. *)
Definition pnlField (b : Body) : option (option float) :=
  match b with
  | PnlJson pnl _ _ _ _ => Some (jsonNumber pnl)
  | _ => None
  end.

Definition respond (st : Z) (b : Body) : M Response :=
  ret {| status := st; body := b |}.

(** [try { c } catch (error) { h error }]. *)
Definition catch {A} (c : M A) (h : Error → M A) : M A :=
  λ w, match c w with
       | (Throw e, w') => h e w'
       | r => r
       end.

(** [query.interval || '24h']. *)
Definition intervalOrDefault (q : Query) : string :=
  if JS.truthy (interval q) then default "24h" (interval q) else "24h".

(** ** The worker *)

Section Worker.

(** [Number(s)], the conversion applied to each ratio of the query. *)
Variable Number : string → float.

(** The provider's answer to a request, given the calls made so far. *)
Variable alchemy : list Event → string → TimeRange → AlchemyReply.

Definition getCachedPrice (sym : string) (i : Interval) (env : Env)
  : M (option AlchemyPriceData) :=
  if negb (PRICE_CACHE env) then throw CacheNotConfigured
  else
    let cacheKey := generateCacheKey sym i in
    do _ <- emit (KVGet cacheKey);
    λ w, (Ok (store w !! cacheKey), w).

Definition setCachedPrice (sym : string) (i : Interval) (priceData : AlchemyPriceData)
    (env : Env) : M unit :=
  if negb (PRICE_CACHE env) then throw CacheNotConfigured
  else
    let cacheKey := generateCacheKey sym i in
    do _ <- emit (KVPut cacheKey CACHE_TTL);
    λ w, (Ok tt, {| store := <[cacheKey := priceData]> (store w);
                    now := now w; trace := trace w |}).

Definition fetchPriceFromAlchemy (sym : string) (i : Interval) (env : Env)
  : M AlchemyPriceData :=
  if negb (JS.truthy (ALCHEMY_API_KEY env)) then throw ApiKeyNotConfigured
  else
    λ w,
      let range := getTimeRangeAndInterval (now w) i in
      let reply := alchemy (trace w) sym range in
      (do _ <- emit (AlchemyPost sym range);
       match reply with
       | ReplyFailed st txt details => throw (AlchemyFailed st txt details)
       | ReplyJson s c None => throw (NoDataInRange sym)
       | ReplyJson s c (Some []) => throw (NoDataInRange sym)
       | ReplyJson s c (Some pts) => ret {| symbol := s; currency := c; data := pts |}
       end) w.

(** The cache-or-fetch step that the price, aggregate and batch routes each
    write out inline. *)
Definition loadPrice (sym : string) (i : Interval) (env : Env) : M AlchemyPriceData :=
  do cached <- getCachedPrice sym i env;
  match cached with
  | Some priceData => ret priceData
  | None =>
      do priceData <- fetchPriceFromAlchemy sym i env;
      do _ <- setCachedPrice sym i priceData env;
      ret priceData
  end.

Definition processRatios (ratios : list string) : list float :=
  let numbers := map Number ratios in
  let allIntegers := forallb JS.isInteger numbers in
  if allIntegers then
    let total := foldl (λ sum num, (sum + num)%float) 0%float numbers in
    map (λ num, (num / total)%float) numbers
  else numbers.


Definition loadAll (symbolList : list string) (i : Interval) (env : Env)
  : M (list AlchemyPriceData) :=
  mapM (λ sym, loadPrice sym i env) symbolList.

Definition getWeightedPrices (symbolList : list string) (ratioList : list float)
    (i : Interval) (env : Env) : M (list Point) :=
  do priceDataList <- loadAll symbolList i env;
  lift (weightedSeries symbolList ratioList i priceDataList).

(** [GET /price/:symbol] *)
Definition priceRoute (sym : string) (query : Query) (env : Env) : M Response :=
  match isValidInterval (intervalOrDefault query) with
  | None => respond 400 (Text "Invalid interval")
  | Some i =>
      catch
        (do priceData <- loadPrice sym i env;
         respond 200 (PriceJson sym i (data priceData)))
        (λ error, respond 500 (ErrorJson error))
  end.

(** [GET /aggregate] *)
Definition aggregateRoute (query : Query) (env : Env) : M Response :=
  if negb (JS.truthy (symbols query)) || negb (JS.truthy (ratios query))
  then respond 400 (Text "Missing required parameters: symbols and ratios")
  else
    let symbolList := JS.split "," (default "" (symbols query)) in
    let ratioList := processRatios (JS.split "," (default "" (ratios query))) in
    if negb (length symbolList =? length ratioList)%nat
    then respond 400 (Text "Number of symbols must match number of ratios")
    else
      match isValidInterval (intervalOrDefault query) with
      | None => respond 400 (Text "Invalid interval. Allowed values: 24h, 7d, 30d")
      | Some i =>
          catch
            (do weightedData <- getWeightedPrices symbolList ratioList i env;
             respond 200 (AggregateJson weightedData i))
            (λ error, respond 500 (ErrorJson error))
      end.

(** The gain/loss figure of [GET /aggregate/pnl] from the aggregated
    series; [weightedData[0]] is [undefined] when the series is empty. *)
Definition percentChange (weightedData : list Point) : Result Body :=
  match weightedData with
  | [] => Throw TypeError
  | first :: _ =>
      let lastPoint := default first (last weightedData) in
      let firstValue := value first in
      let lastValue := value lastPoint in
      let pnl := ((lastValue - firstValue) / firstValue * 100)%float in
      Ok (PnlJson pnl firstValue lastValue (timestamp first) (timestamp lastPoint))
  end.

(** [GET /aggregate/pnl] *)
Definition pnlRoute (query : Query) (env : Env) : M Response :=
  if negb (JS.truthy (symbols query)) || negb (JS.truthy (ratios query))
  then respond 400 (Text "Missing required parameters: symbols and ratios")
  else
    let symbolList := JS.split "," (default "" (symbols query)) in
    let ratioList := processRatios (JS.split "," (default "" (ratios query))) in
    if negb (length symbolList =? length ratioList)%nat
    then respond 400 (Text "Number of symbols must match number of ratios")
    else
      catch
        (do weightedData <- getWeightedPrices symbolList ratioList I30d env;
         do payload <- lift (percentChange weightedData);
         respond 200 payload)
        (λ error, respond 500 (ErrorJson error)).

(** [data[data.length - 1]] of every series; reading a field of the
    [undefined] last element of an empty series throws. *)
Definition latestPoints (priceDataList : list AlchemyPriceData) : Result (list Point) :=
  rmapM (λ d, match last (data d) with
              | Some point => Ok point
              | None => Throw TypeError
              end) priceDataList.

(** [acc[symbol.toLowerCase()] = parseFloat(latestPoint.value)] on the
    plain object [acc].  The name [__proto__] is an accessor inherited from
    [Object.prototype] whose setter ignores a number: that assignment leaves
    the object without a key of this name.  Any other name becomes, or
    stays, a key of the object. *)
Definition assign (acc : gmap string float) (entry : string * Point) : gmap string float :=
  let key := JS.toLowerCase entry.1 in
  if String.eqb key "__proto__" then acc else <[key := value entry.2]> acc.

(** The [values] object: one assignment per symbol, in list order. *)
Definition batchValues (symbolList : list string) (latest : list Point) : gmap string float :=
  foldl assign ∅ (zip symbolList latest).

(** [Math.max] of arguments one of which is [NaN] (the last timestamp of a
    series does not parse) is [NaN], and [new Date(x).toISOString()] throws
    a [RangeError] when [x] is [NaN] or an infinity. *)
Definition snapshot (symbolList : list string) (priceDataList : list AlchemyPriceData)
  : Result Body :=
  rbind (latestPoints priceDataList)
    (λ latest,
       let latestTimestamp := JS.max (map (λ point, JS.Finite (timestamp point)) latest) in
       let values := batchValues symbolList latest in
       if forallb (λ point, JS.validTimeb (timestamp point)) latest then
         match latestTimestamp with
         | JS.Finite t => Ok (BatchJson values t)
         | _ => Throw RangeError
         end
       else Throw RangeError).

(** [GET /batch] *)
Definition batchRoute (query : Query) (env : Env) : M Response :=
  if negb (JS.truthy (symbols query))
  then respond 400 (Text "Missing required parameter: symbols")
  else
    let symbolList := JS.split "," (default "" (symbols query)) in
    match isValidInterval (intervalOrDefault query) with
    | None => respond 400 (Text "Invalid interval. Allowed values: 24h, 7d, 30d")
    | Some i =>
        catch
          (do priceDataList <- loadAll symbolList i env;
           do payload <- lift (snapshot symbolList priceDataList);
           respond 200 payload)
          (λ error, respond 500 (ErrorJson error))
    end.

(** The scheduled refresh: every failure is caught and logged per symbol. *)
Definition scheduled (env : Env) : M unit :=
  do _ <- mapM (λ sym,
                  catch
                    (do priceData <- fetchPriceFromAlchemy sym I30d env;
                     setCachedPrice sym I30d priceData env)
                    (λ _, ret tt))
            ["BTC"; "ETH"; "BNB"; "SOL"];
  ret tt.

(** *** Histories of the cache *)

Inductive Call :=
  | GetPrice (sym : string) (query : Query)
  | GetAggregate (query : Query)
  | GetPnl (query : Query)
  | GetBatch (query : Query)
  | Scheduled.

(** The world a call leaves behind. *)
Definition after (c : Call) (env : Env) (w : World) : World :=
  match c with
  | GetPrice sym q => (priceRoute sym q env w).2
  | GetAggregate q => (aggregateRoute q env w).2
  | GetPnl q => (pnlRoute q env w).2
  | GetBatch q => (batchRoute q env w).2
  | Scheduled => (scheduled env w).2
  end.

(** The worlds the worker can be in: it starts on an empty namespace, serves
    calls, the clock moves and entries expire. *)
Inductive reachable (env : Env) : World → Prop :=
  | reach_start w : store w = ∅ → reachable env w
  | reach_call w c : reachable env w → reachable env (after c env w)
  | reach_clock w t :
      reachable env w →
      reachable env {| store := store w; now := t; trace := trace w |}
  | reach_expire w key :
      reachable env w →
      reachable env {| store := delete key (store w); now := now w; trace := trace w |}.

End Worker.

(** ** Closed forms used in the statements *)

(** The regular timeline from [a] to [b]: [a], [a + step], ... up to the
    last such instant not after [b]. *)
Definition regularTimeline (a b step : Z) : list Z :=
  map (λ k, a + Z.of_nat k * step) (seq 0 (Z.to_nat ((b - a) / step + 1))).


(** [weights.reduce((s, w) => s + w, 0)] and the 1e-9 tolerance test. *)
Definition sumOf (weights : list float) : float :=
  foldl (λ s w, (s + w)%float) 0%float weights.

Definition tolerance : float := (1 / 1000000000)%float.

Definition sumsToOne (weights : list float) : bool :=
  (abs (sumOf weights - 1) <=? tolerance)%float.

(** The entry that a later assignment with the same lower-cased key does not
    overwrite. *)
Definition lastWithKey (symbolList : list string) (idx : nat) (sym : string) : Prop :=
  symbolList !! idx = Some sym ∧
  ∀ j other, (idx < j)%nat → symbolList !! j = Some other →
             JS.toLowerCase other ≠ JS.toLowerCase sym.

(** The store invariant: no cached series is empty. *)
Definition nonEmptyStore (w : World) : Prop :=
  ∀ key d, store w !! key = Some d → data d ≠ [].

(** A computation keeps the store invariant and, when it returns, its
    result satisfies [Q]. *)
Definition keeps {A} (c : M A) (Q : A → Prop) : Prop :=
  ∀ w, nonEmptyStore w → nonEmptyStore (c w).2 ∧ ∀ a, (c w).1 = Ok a → Q a.

(** Strict order of the instants of two map entries. *)
Definition beforeTime (a b : Z * float) : Prop := a.1 < b.1.

(** The specification-level value of the number 1, and the numbers that are
    neither a zero nor [NaN]. *)
Definition SFone : spec_float := S754_finite false 4503599627370496 (-52).

Definition nonzeroNumber (x : spec_float) : Prop :=
  match x with
  | S754_finite _ _ _ | S754_infinity _ => True
  | _ => False
  end.

(** ** Real values of binary64 numbers

    The exact value of a finite number, used to bound rounding errors. *)

Definition bpow (e : Z) : R := powerRZ 2 e.

(** The real [x] lies in the unit interval that starts at the integer [m],
    at the place the location [l] says. *)
Definition located (m : Z) (l : location) (x : R) : Prop :=
  match l with
  | loc_Exact => x = IZR m
  | loc_Inexact Lt => (IZR m < x < IZR m + / 2)%R
  | loc_Inexact Eq => x = (IZR m + / 2)%R
  | loc_Inexact Gt => (IZR m + / 2 < x < IZR m + 1)%R
  end.

(** The number [x] is a zero and [v = 0], or it is positive, at least
    [2^-1022] (a normal number), and its value is [v]. *)
Definition represents (x : float) (v : R) : Prop :=
  match Prim2SF x with
  | S754_zero _ => v = 0%R
  | S754_finite false m e => v = (IZR (Z.pos m) * bpow e)%R ∧ (bpow (-1022) <= v)%R
  | _ => False
  end.

(** The sum of a list of integers. *)
Definition sumZ (l : list Z) : Z := foldr Z.add 0 l.

(** ** Sample data *)

Module Sample.

Definition pt (t : Z) (v : string) : Point :=
  {| timestamp := t; value := JS.decimal v |}.

Definition env : Env := {| PRICE_CACHE := true; ALCHEMY_API_KEY := Some "key" |}.

Definition start : World := {| store := ∅; now := 1700000000000; trace := [] |}.

(** Two series whose ranges do not meet: [0, 10] and [20, 30]. *)
Definition seriesA : list Point := [pt 0 "1"; pt 10 "2"].
Definition seriesB : list Point := [pt 20 "3"; pt 30 "4"].

(** A series that fixes the window to [600000, 1200000] and one whose
    points inside that window are at 800000 and 1000000 only. *)
Definition seriesW : list Point := [pt 600000 "10"; pt 1200000 "10"].
Definition seriesK : list Point :=
  [pt 0 "5"; pt 800000 "100"; pt 1000000 "200"; pt 2000000 "7"].

(** A series that starts at price zero (one point a day). *)
Definition seriesZ : list Point := [pt 0 "0"; pt 86400000 "5"].

(** Two points one step apart, prices 0.03 and 0.3. *)
Definition seriesL : list Point := [pt 0 "0.03"; pt 300000 "0.3"].

(** One point a day, from 100 to 110. *)
Definition seriesP : list Point := [pt 0 "100"; pt 86400000 "104"; pt 172800000 "110"].

(** The same token asked for under two spellings, fetched at different
    moments. *)
Definition seriesETH : list Point := [pt 40 "9"; pt 100 "10"].
Definition serieseth : list Point := [pt 30 "9"; pt 90 "11"].

Definition alchemy (_ : list Event) (sym : string) (_ : TimeRange) : AlchemyReply :=
  let reply pts := ReplyJson sym "usd" (Some pts) in
  if String.eqb sym "A" then reply seriesA
  else if String.eqb sym "B" then reply seriesB
  else if String.eqb sym "W" then reply seriesW
  else if String.eqb sym "K" then reply seriesK
  else if String.eqb sym "Z" then reply seriesZ
  else if String.eqb sym "L" then reply seriesL
  else if String.eqb sym "P" then reply seriesP
  else if String.eqb sym "ETH" then reply seriesETH
  else if String.eqb sym "eth" then reply serieseth
  else ReplyFailed 404 "Not Found" "unknown token".

Definition priceData (sym : string) (pts : list Point) : AlchemyPriceData :=
  {| symbol := sym; currency := "usd"; data := pts |}.

Definition query (syms rats : string) : Query :=
  {| symbols := Some syms; ratios := Some rats; interval := None |}.

End Sample.


(** ** The HTTP shell: CORS headers and the entry point *)

(** A response with its headers.  Header names are case-insensitive: a
    [Headers] object keeps them lower-cased, and [set] replaces the value. *)
Record HttpResponse (B : Type) := {
  httpStatus : Z;
  httpStatusText : string;
  httpHeaders : gmap string string;
  httpBody : B
}.
Arguments httpStatus {B} _.
Arguments httpStatusText {B} _.
Arguments httpHeaders {B} _.
Arguments httpBody {B} _.

Definition headersSet (name val : string) (headers : gmap string string)
  : gmap string string :=
  <[JS.toLowerCase name := val]> headers.

Definition addCorsHeaders {B} (response : HttpResponse B) : HttpResponse B :=
  let headers := httpHeaders response in
  let headers := headersSet "Access-Control-Allow-Origin" "*" headers in
  let headers := headersSet "Access-Control-Allow-Methods" "GET, OPTIONS" headers in
  let headers := headersSet "Access-Control-Allow-Headers" "Content-Type" headers in
  {| httpStatus := httpStatus response;
     httpStatusText := httpStatusText response;
     httpHeaders := headers;
     httpBody := httpBody response |}.

(** [new Response(null, { headers: { 'Content-Type': 'application/json' } })] *)
Definition preflightResponse {B} : HttpResponse (option B) :=
  {| httpStatus := 200;
     httpStatusText := "";
     httpHeaders := headersSet "Content-Type" "application/json" ∅;
     httpBody := None |}.

(** The [fetch] entry point; [handle] is [router.handle(request, env, ctx)]. *)
Definition workerFetch {B} (method : string) (handle : M (HttpResponse (option B)))
  : M (HttpResponse (option B)) :=
  if String.eqb method "OPTIONS" then ret (addCorsHeaders preflightResponse)
  else do response <- handle; ret (addCorsHeaders response).

(** ** Shapes of the call trace *)

(** The calls the scheduled refresh may make: a request for one of its four
    symbols at daily granularity, or a write of such a symbol's 30-day key
    with the fixed expiry. *)
Definition refreshSymbols : list string := ["BTC"; "ETH"; "BNB"; "SOL"].

Definition refreshEvent (ev : Event) : Prop :=
  match ev with
  | KVGet _ => False
  | KVPut key ttl =>
      ttl = CACHE_TTL ∧ ∃ sym, sym ∈ refreshSymbols ∧ key = generateCacheKey sym I30d
  | AlchemyPost sym range => sym ∈ refreshSymbols ∧ apiInterval range = "1d"
  end.

Definition withTrace (w : World) (events : list Event) : World :=
  {| store := store w; now := now w; trace := trace w ++ events |}.

(** The number of sampling steps in the window requested from the
    provider. *)
Definition stepsInWindow (i : Interval) : Z :=
  match i with I24h => 288 | I7d => 168 | I30d => 30 end.

(** The value a [Map] built from [points] holds for the instant [t]: that of
    the last point with this instant. *)
Definition lastValueAt (points : list Point) (t : Z) : option float :=
  value <$> last (filter (λ point, timestamp point = t) points).

(** ** Direct interpolation, in the words of the specification

    The three definitions below follow §4.2 (step 4) of the specification
    and not the code: the points a series is known at, a bracketing pair of
    neighbouring known points, and the linear formula with its degenerate
    case. *)





(** The failures a load can end in. *)
Definition loadError (e : Error) : Prop :=
  match e with
  | CacheNotConfigured | ApiKeyNotConfigured | AlchemyFailed _ _ _ | NoDataInRange _ => True
  | _ => False
  end.

(** A point of the series lies in the window from [a] to [b]. *)
Definition hasPointIn (a b : Z) (d : AlchemyPriceData) : Prop :=
  ∃ point, point ∈ data d ∧ a <= timestamp point <= b.

(** A route answers in the world [w]: it returns a response, with status
    200, 400 or 500, and a 400 answer leaves the world as it was. *)
Definition answered (route : M Response) (w : World) : Prop :=
  ∃ response, (route w).1 = Ok response
              ∧ (status response = 200 ∨ status response = 400 ∨ status response = 500)
              ∧ (status response = 400 → (route w).2 = w).

(** One symbol of the scheduled refresh: fetch, then cache; a failure is
    caught and logged. *)
Definition refreshOne (alchemy : list Event → string → TimeRange → AlchemyReply)
    (env : Env) (sym : string) : M unit :=
  catch
    (do priceData <- fetchPriceFromAlchemy alchemy sym I30d env;
     setCachedPrice sym I30d priceData env)
    (λ _, ret tt).

(** The calls one such step may make. *)
Definition refreshEventOf (sym : string) (ev : Event) : Prop :=
  match ev with
  | KVGet _ => False
  | KVPut key ttl => ttl = CACHE_TTL ∧ key = generateCacheKey sym I30d
  | AlchemyPost s range => s = sym ∧ apiInterval range = "1d"
  end.

(** The provider serves [sym]: whatever was called before, it answers a
    request for [sym] with at least one point. *)
Definition serves (alchemy : list Event → string → TimeRange → AlchemyReply)
    (sym : string) : Prop :=
  ∀ tr range, ∃ s c p pts, alchemy tr sym range = ReplyJson s c (Some (p :: pts)).

(** The three header names, as a [Headers] object stores them. *)
Definition corsNames : list string :=
  ["access-control-allow-origin"; "access-control-allow-methods";
   "access-control-allow-headers"].

(** ** Further sample data *)

Module Fixture.

(** A series with no point between 600000 and 1200000. *)
Definition seriesG : list Point := [Sample.pt 0 "1"; Sample.pt 2000000 "2"].

(** The world after one load of "P" over 30 days on an empty cache. *)
Definition cachedP : World :=
  (loadPrice Sample.alchemy "P" I30d Sample.env Sample.start).2.

(** An environment without the cache binding, and one without the key. *)
Definition unbound : Env := {| PRICE_CACHE := false; ALCHEMY_API_KEY := Some "key" |}.
Definition keyless : Env := {| PRICE_CACHE := true; ALCHEMY_API_KEY := None |}.

(** A handler that answers 404 with a CORS origin of its own. *)
Definition notFound : M (HttpResponse (option string)) :=
  ret {| httpStatus := 404;
         httpStatusText := "Not Found";
         httpHeaders := headersSet "Access-Control-Allow-Origin" "https://example.org" ∅;
         httpBody := Some "Not Found" |}.

(** The largest binary64 number, [1.7976931348623157e308]. *)
Definition largest : float := 0x1.fffffffffffffp+1023%float.

(** A series that ends at the price it started from. *)
Definition seriesFlat : list Point :=
  [Sample.pt 0 "100"; Sample.pt 86400000 "120"; Sample.pt 172800000 "100"].

End Fixture.

(** * Properties *)

(** ** Binary64 arithmetic

    Facts about the primitive operations, derived from their specification
    over [spec_float]. *)

Lemma iter_pos_nat {A} (f : A → A) (n : positive) (x : A) :
  SpecFloat.iter_pos f n x = Nat.iter (Pos.to_nat n) f x.
Proof.
  revert x; induction n as [n IH|n IH|]; intros x; cbn [SpecFloat.iter_pos].
  - rewrite !IH, <- Nat.iter_succ_r, <- Nat.iter_add. f_equal. lia.
  - rewrite !IH, <- Nat.iter_add. f_equal. lia.
  - reflexivity.
Qed.

Lemma shr_1_m mrs : 0 <= shr_m mrs → shr_m (shr_1 mrs) = Z.div2 (shr_m mrs).
Proof. destruct mrs as [[|[p|p|]|p] r s]; simpl; intros; try reflexivity; lia. Qed.

Lemma shr_iter_m k mrs :
  0 <= shr_m mrs → shr_m (Nat.iter k shr_1 mrs) = Z.shiftr (shr_m mrs) (Z.of_nat k).
Proof.
  intros Hm. induction k as [|k IH].
  - simpl. now rewrite Z.shiftr_0_r.
  - rewrite Nat2Z.inj_succ, Nat.iter_succ, shr_1_m.
    + rewrite IH, Z.div2_spec, Z.shiftr_shiftr by lia. reflexivity.
    + rewrite IH. apply Z.shiftr_nonneg. exact Hm.
Qed.

Lemma digits2_log2 p : Z.pos (digits2_pos p) = Z.succ (Z.log2 (Z.pos p)).
Proof.
  assert (Hs : ∀ q, digits2_pos q = Pos.size q) by (induction q; simpl; congruence).
  destruct p; simpl; rewrite ?Hs; lia.
Qed.

(** Shifting a positive mantissa right by [n] places divides it by [2^n]. *)
Lemma shr_m_pos m r s e n :
  shr_m (shr {| shr_m := Z.pos m; shr_r := r; shr_s := s |} e n).1
  = Z.shiftr (Z.pos m) (Z.max n 0).
Proof.
  destruct n as [|n|n]; simpl fst; try reflexivity.
  unfold shr. simpl fst. rewrite iter_pos_nat, shr_iter_m by (simpl; lia).
  simpl shr_m. f_equal. lia.
Qed.

Lemma shr_e mrs e n : (shr mrs e n).2 = e + Z.max n 0.
Proof. destruct n; simpl; lia. Qed.

Lemma shiftr_pos_log2 a n : 0 < a → 0 <= n → n <= Z.log2 a → 0 < Z.shiftr a n.
Proof.
  intros Ha Hn Hl.
  assert (H0 : 0 <= Z.shiftr a n) by (apply Z.shiftr_nonneg; lia).
  destruct (Z.eq_dec (Z.shiftr a n) 0) as [E|E]; [|lia].
  apply Z.shiftr_eq_0_iff in E. lia.
Qed.

Lemma round_nearest_even_bounds m l :
  m <= round_nearest_even m l <= m + 1.
Proof. destruct l as [|[]]; simpl; try lia. destruct (Z.even m); lia. Qed.

(** Rounding a positive mantissa that lies above the underflow threshold
    and below the overflow threshold gives a finite non-zero number. *)
Lemma binary_round_aux_finite sx m e l :
  -1074 < Z.pos (digits2_pos m) + e →
  Z.pos (digits2_pos m) + e <= 1023 → e <= 971 →
  ∃ m' e', binary_round_aux prec emax sx (Z.pos m) e l = S754_finite sx m' e'.
Proof.
  intros Hd Hu He. unfold binary_round_aux, shr_fexp.
  set (n1 := fexp prec emax (Zdigits2 (Z.pos m) + e) - e).
  assert (Hrec : ∃ r s, shr_record_of_loc (Z.pos m) l = Build_shr_record (Z.pos m) r s)
    by (destruct l as [|[]]; simpl; eauto).
  destruct Hrec as (r & s & ->).
  pose proof (shr_m_pos m r s e n1) as Hm1.
  pose proof (shr_e (Build_shr_record (Z.pos m) r s) e n1) as He1.
  destruct (shr _ e n1) as [mrs1 e1]. simpl in Hm1, He1.
  pose proof (digits2_log2 m) as HD.
  assert (Hn1 : Z.max n1 0 <= Z.log2 (Z.pos m)).
  { subst n1. unfold fexp, Zdigits2, emin, prec, emax. lia. }
  assert (Hpos1 : 0 < shr_m mrs1).
  { rewrite Hm1. apply shiftr_pos_log2; lia. }
  assert (Hlog1 : Z.log2 (shr_m mrs1) = Z.log2 (Z.pos m) - Z.max n1 0).
  { rewrite Hm1, Z.log2_shiftr by lia. lia. }
  pose proof (round_nearest_even_bounds (shr_m mrs1) (loc_of_shr_record mrs1)) as Hr.
  destruct (round_nearest_even (shr_m mrs1) (loc_of_shr_record mrs1)) as [|q|q] eqn:Eq; try lia.
  set (n2 := fexp prec emax (Zdigits2 (Z.pos q) + e1) - e1).
  pose proof (shr_m_pos q false false e1 n2) as Hm2.
  pose proof (shr_e (Build_shr_record (Z.pos q) false false) e1 n2) as He2.
  simpl shr_record_of_loc.
  destruct (shr _ e1 n2) as [mrs2 e2]. simpl in Hm2, He2.
  pose proof (digits2_log2 q) as HD2.
  assert (Hq : Z.log2 (shr_m mrs1) <= Z.log2 (Z.pos q)) by (apply Z.log2_le_mono; lia).
  assert (Hq' : Z.log2 (Z.pos q) <= Z.log2 (shr_m mrs1) + 1).
  { etransitivity; [apply Z.log2_le_mono with (b := Z.succ (shr_m mrs1)); lia|].
    pose proof (Z.log2_succ_le (shr_m mrs1)). lia. }
  assert (Hn2 : Z.max n2 0 <= Z.log2 (Z.pos q)).
  { subst n2. unfold fexp, Zdigits2, emin, prec, emax. lia. }
  assert (Hpos2 : 0 < shr_m mrs2).
  { rewrite Hm2. apply shiftr_pos_log2; lia. }
  destruct (shr_m mrs2) as [|m2|m2]; try lia.
  assert (Hfit : e2 <= emax - prec).
  { subst n1 n2. unfold fexp, Zdigits2, emin, prec, emax in *. lia. }
  apply Z.leb_le in Hfit. rewrite Hfit. eauto.
Qed.

Lemma digits2_pos_iter p d :
  Z.pos (digits2_pos (Pos.iter xO p d)) = Z.pos (digits2_pos p) + Z.pos d.
Proof.
  induction d as [|d IH] using Pos.peano_ind.
  - simpl. lia.
  - rewrite Pos.iter_succ. cbn [digits2_pos]. lia.
Qed.

Lemma shr_iter_exact k m :
  Nat.iter k shr_1 (Build_shr_record (Z.pos (Nat.iter k xO m)) false false)
  = Build_shr_record (Z.pos m) false false.
Proof.
  induction k as [|k IH]; [reflexivity|].
  rewrite Nat.iter_succ_r, Nat.iter_succ. exact IH.
Qed.

Lemma digits2_iter_xO k m :
  Z.pos (digits2_pos (Nat.iter k xO m)) = Z.pos (digits2_pos m) + Z.of_nat k.
Proof.
  induction k as [|k IH]; [simpl; lia|].
  rewrite Nat.iter_succ. cbn [digits2_pos]. lia.
Qed.

Lemma shr_nat mrs e k :
  shr mrs e (Z.of_nat k) = (Nat.iter k shr_1 mrs, e + Z.of_nat k).
Proof.
  destruct k as [|k]; [simpl; f_equal; lia|].
  change (Z.of_nat (S k)) with (Z.pos (Pos.of_succ_nat k)). unfold shr.
  rewrite iter_pos_nat, SuccNat2Pos.id_succ. reflexivity.
Qed.

(** A canonical mantissa scaled by [2^k] rounds back to itself. *)
Lemma binary_round_aux_exact sx m e k :
  bounded prec emax m e = true →
  binary_round_aux prec emax sx (Z.pos (Nat.iter k xO m)) (e - Z.of_nat k) loc_Exact
  = S754_finite sx m e.
Proof.
  unfold bounded, canonical_mantissa. intros [Hc Hb]%andb_prop.
  apply Z.eqb_eq in Hc.
  unfold binary_round_aux, shr_fexp. cbn [shr_record_of_loc Zdigits2].
  rewrite digits2_iter_xO.
  replace (Z.pos (digits2_pos m) + Z.of_nat k + (e - Z.of_nat k))
    with (Z.pos (digits2_pos m) + e) by lia.
  rewrite Hc. replace (e - (e - Z.of_nat k)) with (Z.of_nat k) by lia.
  rewrite shr_nat, shr_iter_exact.
  cbn [shr_m loc_of_shr_record round_nearest_even Zdigits2 shr_record_of_loc].
  replace (e - Z.of_nat k + Z.of_nat k) with e by lia.
  rewrite Hc, Z.sub_diag. cbn [shr shr_m]. now rewrite Hb.
Qed.

Lemma Prim2SF_one : Prim2SF 1 = SFone.
Proof. reflexivity. Qed.

Lemma mul_one_r (x : float) : (x * 1)%float = x.
Proof.
  apply Prim2SF_inj. rewrite mul_spec, Prim2SF_one.
  pose proof (Prim2SF_valid x) as Hv.
  destruct (Prim2SF x) as [[]|[]| |s m e]; try reflexivity.
  unfold SF64mul, SFmul, SFone. rewrite xorb_false_r.
  change (Z.pos (m * 4503599627370496)) with (Z.pos (m * Nat.iter 52 xO 1%positive)).
  replace (m * Nat.iter 52 xO 1)%positive with (Nat.iter 52 xO m).
  - apply (binary_round_aux_exact s m e 52). exact Hv.
  - rewrite Pos.mul_comm. reflexivity.
Qed.



(** The conversion of a positive integer below [2^63] is a positive finite
    number. *)
Lemma ofZ_pos_spec z :
  0 < z → z < 2 ^ 63 → ∃ m e, Prim2SF (JS.ofZ z) = S754_finite false m e.
Proof.
  intros Hz Hp. destruct z as [|p|p]; try lia.
  unfold JS.ofZ. rewrite of_uint63_spec, Uint63.of_Z_spec.
  rewrite Z.mod_small by (change Uint63.wB with (2 ^ 63); lia).
  assert (HD : Z.pos (digits2_pos p) <= 63).
  { rewrite digits2_log2. assert (Z.log2 (Z.pos p) < 63) by (apply Z.log2_lt_pow2; lia). lia. }
  unfold binary_normalize, binary_round, shl_align.
  destruct (fexp prec emax (Z.pos (digits2_pos p) + 0) - 0) as [|d|d] eqn:Ed;
    apply binary_round_aux_finite; rewrite ?digits2_pos_iter;
    revert Ed; unfold fexp, emin, prec, emax; lia.
Qed.

Lemma ofZ_nonzero z :
  z ≠ 0 → Z.abs z < 2 ^ 63 → nonzeroNumber (Prim2SF (JS.ofZ z)).
Proof.
  intros Hz Hb. destruct z as [|p|p]; [done| |].
  - destruct (ofZ_pos_spec (Z.pos p)) as (m & e & ->); [lia..|exact I].
  - unfold JS.ofZ. rewrite opp_spec.
    destruct (ofZ_pos_spec (Z.pos p)) as (m & e & H); [lia..|].
    unfold JS.ofZ in H. rewrite H. exact I.
Qed.

(** [is_finite] in terms of the specification. *)
Lemma SFeqb_refl_finite s m e :
  SFeqb (S754_finite s m e) (S754_finite s m e) = true.
Proof.
  unfold SFeqb, SFcompare.
  destruct s; rewrite Z.compare_refl, Pos.compare_cont_refl; reflexivity.
Qed.

Lemma is_finite_SF x :
  is_finite x = true ↔
  match Prim2SF x with S754_zero _ | S754_finite _ _ _ => True | _ => False end.
Proof.
  unfold is_finite, is_nan, is_infinity.
  rewrite !FloatAxioms.eqb_spec, abs_spec.
  change (Prim2SF infinity) with (S754_infinity false).
  destruct (Prim2SF x) as [[]|[]| |s m e]; simpl SFabs;
    rewrite ?SFeqb_refl_finite; cbn; intuition congruence.
Qed.

Lemma is_finite_false_SF x :
  match Prim2SF x with S754_infinity _ | S754_nan => True | _ => False end →
  is_finite x = false.
Proof.
  intros H. destruct (is_finite x) eqn:E; [|done].
  apply is_finite_SF in E. destruct (Prim2SF x); done.
Qed.

(** [0 / y] is a zero when [y] is neither zero nor [NaN]. *)
Lemma zero_div_SF y :
  nonzeroNumber (Prim2SF y) →
  ∃ s, Prim2SF (0 / y)%float = S754_zero s.
Proof.
  intros Hy. rewrite div_spec. change (Prim2SF 0) with (S754_zero false).
  destruct (Prim2SF y) as [|sy| |sy m e]; try done; simpl; eauto.
Qed.

(** A finite number times a zero is a zero. *)
Lemma finite_mul_zero_SF d r s :
  is_finite d = true → Prim2SF r = S754_zero s →
  ∃ s', Prim2SF (d * r)%float = S754_zero s'.
Proof.
  intros Hd Hr. apply is_finite_SF in Hd. rewrite mul_spec, Hr.
  destruct (Prim2SF d) as [sd|sd| |sd m e]; try done; simpl; eauto.
Qed.

(** Adding a zero changes nothing, except that [-0 + +0] is [+0]. *)
Lemma add_zero_r_SF v z s :
  Prim2SF v ≠ S754_zero true → Prim2SF z = S754_zero s → (v + z)%float = v.
Proof.
  intros Hv Hz. apply Prim2SF_inj. rewrite add_spec, Hz.
  destruct (Prim2SF v) as [[]|[]| |sv m e]; try done; destruct s; reflexivity.
Qed.


(** [x / x = 1] for every finite non-zero [x]. *)
Lemma div_self_SF x s m e :
  Prim2SF x = S754_finite s m e → (x / x)%float = 1%float.
Proof.
  intros Hx. apply Prim2SF_inj. rewrite div_spec, Hx, Prim2SF_one.
  unfold SF64div, SFdiv, SFdiv_core_binary.
  replace (Zdigits2 (Z.pos m) + e - (Zdigits2 (Z.pos m) + e)) with 0 by lia.
  rewrite Z.sub_diag. cbv zeta.
  change (Z.min (fexp prec emax 0) 0) with (-53).
  change (0 - -53) with 53. cbv iota.
  assert (Hdiv : Z.div_eucl (Z.shiftl (Z.pos m) 53) (Z.pos m) = (9007199254740992, 0)).
  { transitivity (Z.shiftl (Z.pos m) 53 / Z.pos m, Z.shiftl (Z.pos m) 53 mod Z.pos m).
    - unfold Z.div, Z.modulo. destruct (Z.div_eucl _ _); reflexivity.
    - rewrite Z.shiftl_mul_pow2, Z.mul_comm, Z.div_mul, Z.mod_mul by lia. reflexivity. }
  change (IntDef.Z.div_eucl (Z.shiftl (Z.pos m) 53) (Z.pos m))
    with (Z.div_eucl (Z.shiftl (Z.pos m) 53) (Z.pos m)).
  rewrite Hdiv.
  assert (Hloc : new_location (Z.pos m) 0 = loc_Exact).
  { unfold new_location, new_location_even, new_location_odd.
    destruct (Z.even (Z.pos m)); reflexivity. }
  rewrite Hloc. destruct s; reflexivity.
Qed.

(** A zero baseline: [(x - z) / z * 100] is an infinity or [NaN]. *)
Lemma percent_of_zero_not_finite x z :
  (z =? 0)%float = true → is_finite ((x - z) / z * 100)%float = false.
Proof.
  intros Hz. rewrite FloatAxioms.eqb_spec in Hz. change (Prim2SF 0) with (S754_zero false) in Hz.
  apply is_finite_false_SF.
  rewrite mul_spec, div_spec, sub_spec.
  change (Prim2SF 100) with (S754_finite false 7036874417766400 (-46)).
  destruct (Prim2SF z) as [sz|sz| |sz mz ez]; try (destruct sz; discriminate); try discriminate.
  destruct (Prim2SF x) as [[]|[]| |sx mx ex]; destruct sz; exact I.
Qed.

(** ** Rounding errors of binary64 operations *)

Lemma bpow_pos e : (0 < bpow e)%R.
Proof. apply powerRZ_lt. lra. Qed.

Lemma bpow_add a b : bpow (a + b) = (bpow a * bpow b)%R.
Proof. apply powerRZ_add. lra. Qed.

Lemma bpow_0 : bpow 0 = 1%R.
Proof. reflexivity. Qed.

Lemma bpow_1 : bpow 1 = 2%R.
Proof. unfold bpow. simpl. lra. Qed.

Lemma bpow_succ e : bpow (e + 1) = (2 * bpow e)%R.
Proof. rewrite bpow_add, bpow_1. lra. Qed.

Lemma bpow_pred e : bpow (e - 1) = (bpow e / 2)%R.
Proof.
  replace e with (e - 1 + 1) at 2 by lia. rewrite bpow_succ. lra.
Qed.

Lemma bpow_IZR k : 0 <= k → bpow k = IZR (2 ^ k).
Proof.
  intros Hk. rewrite <- (Z2Nat.id k Hk).
  induction (Z.to_nat k) as [|n IH].
  - reflexivity.
  - rewrite Nat2Z.inj_succ, Z.pow_succ_r by lia.
    unfold Z.succ. rewrite bpow_succ, IH, mult_IZR. reflexivity.
Qed.

Lemma bpow_le a b : a <= b → (bpow a <= bpow b)%R.
Proof.
  intros Hab. replace b with (a + (b - a)) by lia.
  rewrite bpow_add, (bpow_IZR (b - a)) by lia.
  assert (H1 : (1 <= IZR (2 ^ (b - a)))%R).
  { apply IZR_le. assert (0 < 2 ^ (b - a)) by (apply Z.pow_pos_nonneg; lia). lia. }
  pose proof (bpow_pos a). nra.
Qed.

Lemma bpow_lt a b : a < b → (bpow a < bpow b)%R.
Proof.
  intros Hab. apply Rlt_le_trans with (bpow (a + 1)); [|apply bpow_le; lia].
  rewrite bpow_succ. pose proof (bpow_pos a). lra.
Qed.

Lemma bpow_lt_inv a b : (bpow a < bpow b)%R → a < b.
Proof.
  intros H. destruct (Z_lt_le_dec a b) as [|Hle]; [done|].
  apply bpow_le in Hle. lra.
Qed.

(** The number of binary digits of a positive integer. *)
Lemma digits2_bounds p :
  2 ^ (Z.pos (digits2_pos p) - 1) <= Z.pos p < 2 ^ Z.pos (digits2_pos p).
Proof.
  rewrite digits2_log2. replace (Z.succ (Z.log2 (Z.pos p)) - 1) with (Z.log2 (Z.pos p)) by lia.
  apply Z.log2_spec. lia.
Qed.

Lemma digits2_bounds_R p :
  (bpow (Z.pos (digits2_pos p) - 1) <= IZR (Z.pos p) < bpow (Z.pos (digits2_pos p)))%R.
Proof.
  pose proof (digits2_bounds p) as [H1 H2].
  rewrite !bpow_IZR by lia. split; [apply IZR_le|apply IZR_lt]; done.
Qed.

(** The number of digits is determined by the two powers around. *)
Lemma digits2_unique p d :
  2 ^ (d - 1) <= Z.pos p < 2 ^ d → Z.pos (digits2_pos p) = d.
Proof.
  intros [H1 H2]. pose proof (digits2_bounds p) as [H3 H4].
  assert (Hd : 0 < d).
  { destruct (Z_lt_le_dec 0 d) as [|Hle]; [done|].
    assert (2 ^ d <= 1); [|lia].
    destruct (Z.eq_dec d 0) as [->|]; [simpl; lia|].
    rewrite Z.pow_neg_r by lia. lia. }
  destruct (Z_lt_le_dec (Z.pos (digits2_pos p)) d) as [Hlt|Hge].
  - assert (2 ^ Z.pos (digits2_pos p) <= 2 ^ (d - 1)) by (apply Z.pow_le_mono_r; lia). lia.
  - destruct (Z_lt_le_dec d (Z.pos (digits2_pos p))) as [Hlt|Hle]; [|lia].
    assert (2 ^ d <= 2 ^ (Z.pos (digits2_pos p) - 1)) by (apply Z.pow_le_mono_r; lia). lia.
Qed.

(** *** Shifting with round and sticky bits *)

Lemma located_record m l : 
  shr_m (shr_record_of_loc m l) = m
  ∧ loc_of_shr_record (shr_record_of_loc m l) = l.
Proof. destruct l as [|[]]; done. Qed.

Lemma IZR_xO p : IZR (Z.pos p~0) = (2 * IZR (Z.pos p))%R.
Proof. rewrite Pos2Z.inj_xO, mult_IZR. reflexivity. Qed.

Lemma IZR_xI p : IZR (Z.pos p~1) = (2 * IZR (Z.pos p) + 1)%R.
Proof. rewrite Pos2Z.inj_xI, plus_IZR, mult_IZR. reflexivity. Qed.

Lemma shr_1_located mrs x :
  0 <= shr_m mrs →
  located (shr_m mrs) (loc_of_shr_record mrs) x →
  located (shr_m (shr_1 mrs)) (loc_of_shr_record (shr_1 mrs)) (x / 2).
Proof.
  destruct mrs as [m r s]. cbn [shr_m]. intros Hm.
  destruct m as [|[p|p|]|p]; [| | | |lia];
    destruct r, s; cbn [shr_1 orb shr_m loc_of_shr_record located];
    try rewrite IZR_xO; try rewrite IZR_xI; intros H; lra.
Qed.

Lemma shr_iter_located k mrs x :
  0 <= shr_m mrs →
  located (shr_m mrs) (loc_of_shr_record mrs) x →
  located (shr_m (Nat.iter k shr_1 mrs)) (loc_of_shr_record (Nat.iter k shr_1 mrs))
    (x / bpow (Z.of_nat k)).
Proof.
  intros Hm Hx. induction k as [|k IH].
  - cbn [Nat.iter]. change (Z.of_nat 0) with 0. rewrite bpow_0.
    by replace (x / 1)%R with x by lra.
  - rewrite Nat.iter_succ, Nat2Z.inj_succ. unfold Z.succ. rewrite bpow_succ.
    replace (x / (2 * bpow (Z.of_nat k)))%R with (x / bpow (Z.of_nat k) / 2)%R.
    + apply shr_1_located; [|exact IH].
      rewrite shr_iter_m by done. by apply Z.shiftr_nonneg.
    + pose proof (bpow_pos (Z.of_nat k)). field. lra.
Qed.

(** The shift of [shr], with the number of places it shifts by. *)
Lemma shr_located mrs e n x :
  0 <= shr_m mrs →
  located (shr_m mrs) (loc_of_shr_record mrs) x →
  located (shr_m (shr mrs e n).1) (loc_of_shr_record (shr mrs e n).1)
    (x / bpow (Z.max n 0))
  ∧ (shr mrs e n).2 = e + Z.max n 0
  ∧ shr_m (shr mrs e n).1 = Z.shiftr (shr_m mrs) (Z.max n 0).
Proof.
  intros Hm Hx. destruct n as [|p|p]; cbn [shr fst snd].
  - replace (Z.max 0 0) with 0 by lia.
    rewrite bpow_0, Z.shiftr_0_r. replace (x / 1)%R with x by lra.
    split; [done|]. split; [lia|done].
  - replace (Z.max (Z.pos p) 0) with (Z.of_nat (Pos.to_nat p)) by lia.
    rewrite iter_pos_nat.
    split; [by apply shr_iter_located|]. split; [lia|]. by apply shr_iter_m.
  - replace (Z.max (Z.neg p) 0) with 0 by lia.
    rewrite bpow_0, Z.shiftr_0_r. replace (x / 1)%R with x by lra.
    split; [done|]. split; [lia|done].
Qed.

Lemma round_located m l x :
  located m l x →
  (Rabs (IZR (round_nearest_even m l) - x) <= / 2)%R.
Proof.
  destruct l as [|[]]; cbn [located round_nearest_even]; intros H;
    try destruct (Z.even m); rewrite ?plus_IZR; apply Rabs_le; lra.
Qed.

(** *** Rounding to nearest *)

Lemma fexp_normal mu : -1074 <= mu - 53 → fexp prec emax mu = mu - 53.
Proof. unfold fexp, emin, prec, emax. lia. Qed.

(** Rounding a positive mantissa of at least 53 digits whose value lies in
    the range of the normal numbers: the result is finite, a multiple [k] of
    the unit in the last place with [k] a nearest integer to the exact
    quotient. *)
Lemma binary_round_aux_correct sx m e l x :
  located (Z.pos m) l x →
  53 <= Z.pos (digits2_pos m) →
  -1074 <= Z.pos (digits2_pos m) + e - 53 →
  Z.pos (digits2_pos m) + e <= 1023 →
  ∃ mf ef k,
    binary_round_aux prec emax sx (Z.pos m) e l = S754_finite sx mf ef
    ∧ (IZR (Z.pos mf) * bpow ef = IZR k * bpow (Z.pos (digits2_pos m) + e - 53))%R
    ∧ 2 ^ 52 <= k <= 2 ^ 53
    ∧ (Rabs (IZR k - x / bpow (Z.pos (digits2_pos m) - 53)) <= / 2)%R.
Proof.
  intros Hx Hd Hlow Hhigh. set (d := Z.pos (digits2_pos m)) in *.
  unfold binary_round_aux, shr_fexp.
  change (Zdigits2 (Z.pos m)) with d.
  rewrite (fexp_normal (d + e)) by lia.
  replace (d + e - 53 - e) with (d - 53) by lia.
  destruct (located_record (Z.pos m) l) as [Hm0 Hl0].
  pose proof (shr_located (shr_record_of_loc (Z.pos m) l) e (d - 53) x) as Hshr.
  rewrite Hm0, Hl0 in Hshr. specialize (Hshr ltac:(lia) Hx).
  replace (Z.max (d - 53) 0) with (d - 53) in Hshr by lia.
  destruct (shr (shr_record_of_loc (Z.pos m) l) e (d - 53)) as [mrs1 e1].
  cbn [fst snd] in Hshr. destruct Hshr as (Hloc1 & He1 & Hm1).
  pose proof (digits2_bounds m) as [Hlo Hhi]. fold d in Hlo, Hhi.
  assert (Hrange1 : 2 ^ 52 <= shr_m mrs1 < 2 ^ 53).
  { rewrite Hm1, Z.shiftr_div_pow2 by lia.
    assert (Hp : 0 < 2 ^ (d - 53)) by (apply Z.pow_pos_nonneg; lia).
    assert (E1 : 2 ^ (d - 1) = 2 ^ 52 * 2 ^ (d - 53)).
    { rewrite <- Z.pow_add_r by lia. f_equal. lia. }
    assert (E2 : 2 ^ d = 2 ^ 53 * 2 ^ (d - 53)).
    { rewrite <- Z.pow_add_r by lia. f_equal. lia. }
    split.
    - apply Z.div_le_lower_bound; lia.
    - apply Z.div_lt_upper_bound; lia. }
  pose proof (round_nearest_even_bounds (shr_m mrs1) (loc_of_shr_record mrs1)) as Hr.
  pose proof (round_located _ _ _ Hloc1) as Hnear.
  set (k := round_nearest_even (shr_m mrs1) (loc_of_shr_record mrs1)) in *.
  assert (Hk : 2 ^ 52 <= k <= 2 ^ 53) by lia.
  destruct k as [|q|q] eqn:Ek; [lia| |lia].
  set (n2 := fexp prec emax (Zdigits2 (Z.pos q) + e1) - e1).
  pose proof (shr_m_pos q false false e1 n2) as Hm2.
  pose proof (shr_e (Build_shr_record (Z.pos q) false false) e1 n2) as He2.
  cbn [shr_record_of_loc].
  destruct (shr _ e1 n2) as [mrs2 e2]. cbn [fst snd] in Hm2, He2.
  destruct (Z.eq_dec (Z.pos q) (2 ^ 53)) as [Etop|Hne].
  - (* the mantissa was rounded up to 2^53 *)
    assert (Hdq : Z.pos (digits2_pos q) = 54).
    { apply digits2_unique. rewrite Etop. split; [done|]. apply Z.pow_lt_mono_r; lia. }
    assert (Hn2 : n2 = 1).
    { subst n2. cbn [Zdigits2]. rewrite Hdq, (fexp_normal (54 + e1)) by lia. lia. }
    rewrite Hn2 in Hm2, He2. rewrite Etop in Hm2.
    change (Z.shiftr (2 ^ 53) (Z.max 1 0)) with (2 ^ 52) in Hm2.
    change (Z.max 1 0) with 1 in He2.
    destruct (shr_m mrs2) as [|m2|m2]; try discriminate.
    assert (Hfit : (e2 <=? emax - prec) = true).
    { apply Z.leb_le. unfold emax, prec. lia. }
    rewrite Hfit.
    exists m2, e2, (2 ^ 53). split; [reflexivity|]. split; [|split; [lia|]].
    + rewrite Hm2, He2, He1. replace (e + (d - 53) + 1) with (d + e - 53 + 1) by lia.
      rewrite bpow_succ. change (2 ^ 53) with (2 * 2 ^ 52).
      rewrite mult_IZR. lra.
    + rewrite <- Etop. exact Hnear.
  - assert (Hdq : Z.pos (digits2_pos q) = 53).
    { apply digits2_unique. lia. }
    assert (Hn2 : n2 = 0).
    { subst n2. cbn [Zdigits2]. rewrite Hdq, (fexp_normal (53 + e1)) by lia. lia. }
    rewrite Hn2 in Hm2, He2.
    change (Z.max 0 0) with 0 in Hm2, He2. rewrite Z.shiftr_0_r in Hm2.
    destruct (shr_m mrs2) as [|m2|m2]; try discriminate.
    assert (Hfit : (e2 <=? emax - prec) = true).
    { apply Z.leb_le. unfold emax, prec. lia. }
    rewrite Hfit.
    exists m2, e2, (Z.pos q). split; [reflexivity|]. split; [|split; [lia|exact Hnear]].
    rewrite Hm2, He2, He1. f_equal. f_equal. lia.
Qed.

Lemma scale_error k y B :
  (0 < B)%R → (Rabs (k - y) <= / 2)%R → (Rabs (k * B - y * B) <= B / 2)%R.
Proof.
  intros HB H. replace (k * B - y * B)%R with ((k - y) * B)%R by lra.
  rewrite Rabs_mult, (Rabs_pos_eq B) by lra.
  pose proof (Rabs_pos (k - y)). nra.
Qed.

(** The same in terms of values: the result is within half a unit in the
    last place of the exact value [x * 2^e]. *)
Lemma binary_round_aux_value sx m e l x :
  located (Z.pos m) l x →
  53 <= Z.pos (digits2_pos m) →
  -1074 <= Z.pos (digits2_pos m) + e - 53 →
  Z.pos (digits2_pos m) + e <= 1023 →
  ∃ mf ef k,
    binary_round_aux prec emax sx (Z.pos m) e l = S754_finite sx mf ef
    ∧ (IZR (Z.pos mf) * bpow ef = IZR k * bpow (Z.pos (digits2_pos m) + e - 53))%R
    ∧ 2 ^ 52 <= k <= 2 ^ 53
    ∧ (Rabs (IZR k * bpow (Z.pos (digits2_pos m) + e - 53) - x * bpow e)
       <= bpow (Z.pos (digits2_pos m) + e - 53) / 2)%R.
Proof.
  intros Hx Hd Hlow Hhigh.
  destruct (binary_round_aux_correct sx m e l x Hx Hd Hlow Hhigh)
    as (mf & ef & k & Hres & Hval & Hk & Hnear).
  exists mf, ef, k. split; [exact Hres|]. split; [exact Hval|]. split; [exact Hk|].
  set (d := Z.pos (digits2_pos m)) in *.
  pose proof (bpow_pos (d - 53)) as Hp1. pose proof (bpow_pos (d + e - 53)) as Hp2.
  replace (x * bpow e)%R with (x / bpow (d - 53) * bpow (d + e - 53))%R.
  - by apply scale_error.
  - replace (d + e - 53) with ((d - 53) + e) by lia. rewrite bpow_add. field. lra.
Qed.

Lemma iter_xO_pow m d : Z.pos (Pos.iter xO m d) = Z.pos m * 2 ^ Z.pos d.
Proof.
  induction d as [|d IH] using Pos.peano_ind.
  - simpl. lia.
  - rewrite Pos.iter_succ, Pos2Z.inj_xO, IH, Pos2Z.inj_succ, Z.pow_succ_r by lia. lia.
Qed.

(** Rounding of an integer mantissa with its exponent: the value
    [m * 2^e], of magnitude [mu], is rounded to a multiple of [2^(mu - 53)]
    within half of it. *)
Lemma binary_round_correct sx m e :
  -1074 <= Z.pos (digits2_pos m) + e - 53 →
  Z.pos (digits2_pos m) + e <= 1023 →
  ∃ mf ef k,
    binary_round prec emax sx m e = S754_finite sx mf ef
    ∧ (IZR (Z.pos mf) * bpow ef = IZR k * bpow (Z.pos (digits2_pos m) + e - 53))%R
    ∧ 2 ^ 52 <= k <= 2 ^ 53
    ∧ (Rabs (IZR k * bpow (Z.pos (digits2_pos m) + e - 53) - IZR (Z.pos m) * bpow e)
       <= bpow (Z.pos (digits2_pos m) + e - 53) / 2)%R.
Proof.
  intros Hlow Hhigh. set (d := Z.pos (digits2_pos m)) in *.
  unfold binary_round, shl_align. fold d.
  rewrite (fexp_normal (d + e)) by lia.
  destruct (d + e - 53 - e) as [|dd|dd] eqn:Ed.
  - apply (binary_round_aux_value sx m e loc_Exact (IZR (Z.pos m))); fold d; [done|lia..].
  - apply (binary_round_aux_value sx m e loc_Exact (IZR (Z.pos m))); fold d; [done|lia..].
  - pose proof (digits2_pos_iter m dd) as Hdig. fold d in Hdig.
    pose proof (iter_xO_pow m dd) as Hpow.
    destruct (binary_round_aux_value sx (Pos.iter xO m dd) (d + e - 53) loc_Exact
                (IZR (Z.pos (Pos.iter xO m dd))))
      as (mf & ef & k & Hres & Hval & Hk & Hnear); [done|lia..|].
    rewrite Hdig in Hval, Hnear.
    replace (d + Z.pos dd + (d + e - 53) - 53) with (d + e - 53) in Hval, Hnear by lia.
    exists mf, ef, k. split; [exact Hres|]. split; [exact Hval|]. split; [exact Hk|].
    replace (IZR (Z.pos m) * bpow e)%R
      with (IZR (Z.pos (Pos.iter xO m dd)) * bpow (d + e - 53))%R; [exact Hnear|].
    rewrite Hpow, mult_IZR, <- bpow_IZR by lia.
    replace e with (Z.pos dd + (d + e - 53)) at 2 by lia. rewrite bpow_add. lra.
Qed.

(** When the value is itself a multiple of [2^(mu - 53)], rounding is
    exact. *)
Lemma round_exact k j B V :
  (0 < B)%R → V = (IZR j * B)%R → (Rabs (IZR k * B - V) <= B / 2)%R →
  (IZR k * B)%R = V.
Proof.
  intros HB -> H. f_equal. f_equal.
  replace (IZR k * B - IZR j * B)%R with (IZR (k - j) * B)%R in H
    by (rewrite minus_IZR; lra).
  rewrite Rabs_mult, (Rabs_pos_eq B) in H by lra.
  assert (Hlt : (Rabs (IZR (k - j)) < 1)%R).
  { pose proof (Rabs_pos (IZR (k - j))). nra. }
  rewrite <- abs_IZR in Hlt. apply lt_IZR in Hlt. lia.
Qed.

(** *** Values of the operations *)

Lemma represents_finite x v :
  represents x v → (0 < v)%R →
  ∃ m e, Prim2SF x = S754_finite false m e
         ∧ v = (IZR (Z.pos m) * bpow e)%R ∧ (bpow (-1022) <= v)%R.
Proof.
  unfold represents. destruct (Prim2SF x) as [s|s| |[] m e]; try done.
  - intros ->. lra.
  - intros [H1 H2] _. eauto.
Qed.

Lemma represents_nonneg x v : represents x v → (0 <= v)%R.
Proof.
  unfold represents. destruct (Prim2SF x) as [s|s| |[] m e]; try done.
  - intros ->. lra.
  - intros [_ H]. pose proof (bpow_pos (-1022)). lra.
Qed.

(** Magnitude of a positive value given by mantissa and exponent. *)
Lemma value_magnitude m e :
  (bpow (Z.pos (digits2_pos m) + e - 1) <= IZR (Z.pos m) * bpow e
   < bpow (Z.pos (digits2_pos m) + e))%R.
Proof.
  pose proof (digits2_bounds_R m) as [H1 H2]. pose proof (bpow_pos e) as He.
  replace (Z.pos (digits2_pos m) + e - 1) with (Z.pos (digits2_pos m) - 1 + e) by lia.
  rewrite !bpow_add. split; nra.
Qed.

(** The result of rounding a positive integer mantissa with its exponent,
    as a represented value. *)
Lemma binary_round_represents m e :
  (bpow (-1022) <= IZR (Z.pos m) * bpow e)%R →
  (IZR (Z.pos m) * bpow e < bpow 1023)%R →
  ∃ mf ef mu k,
    binary_round prec emax false m e = S754_finite false mf ef
    ∧ (bpow (mu - 1) <= IZR (Z.pos m) * bpow e < bpow mu)%R
    ∧ -1021 <= mu <= 1023
    ∧ (IZR (Z.pos mf) * bpow ef)%R = (IZR k * bpow (mu - 53))%R
    ∧ 2 ^ 52 <= k <= 2 ^ 53
    ∧ (Rabs (IZR k * bpow (mu - 53) - IZR (Z.pos m) * bpow e) <= bpow (mu - 53) / 2)%R.
Proof.
  intros Hlow Hhigh. pose proof (value_magnitude m e) as [Hm1 Hm2].
  set (mu := Z.pos (digits2_pos m) + e) in *.
  assert (Hmu1 : -1022 < mu) by (apply bpow_lt_inv; lra).
  assert (Hmu2 : mu - 1 < 1023) by (apply bpow_lt_inv; lra).
  destruct (binary_round_correct false m e) as (mf & ef & k & Hres & Hval & Hk & Hnear);
    fold mu; [lia..|].
  exists mf, ef, mu, k. fold mu in Hval, Hnear.
  split; [exact Hres|]. split; [done|]. split; [lia|]. done.
Qed.

Lemma ofZ_represents a : 0 <= a < 2 ^ 53 → represents (JS.ofZ a) (IZR a).
Proof.
  intros [H0 Hlt]. unfold represents. destruct a as [|p|p]; [reflexivity| |lia].
  unfold JS.ofZ. rewrite of_uint63_spec, Uint63.of_Z_spec.
  rewrite Z.mod_small by (change Uint63Axioms.wB with (2 ^ 63); lia).
  cbn [binary_normalize].
  assert (Hone : (1 <= IZR (Z.pos p))%R) by (apply IZR_le; lia).
  assert (Hp : (IZR (Z.pos p) < bpow 53)%R).
  { rewrite bpow_IZR by lia. by apply IZR_lt. }
  assert (Hb1 : (bpow (-1022) <= bpow 0)%R) by (apply bpow_le; lia).
  assert (Hb2 : (bpow 53 <= bpow 1023)%R) by (apply bpow_le; lia).
  rewrite bpow_0 in Hb1.
  destruct (binary_round_represents p 0)
    as (mf & ef & mu & k & Hres & Hmag & Hmu & Hval & Hk & Hnear);
    rewrite ?bpow_0, ?Rmult_1_r; [lra..|].
  rewrite bpow_0, Rmult_1_r in Hmag, Hnear. rewrite Hres.
  assert (Hmu53 : mu <= 53).
  { assert (mu - 1 < 53); [|lia]. apply bpow_lt_inv. lra. }
  assert (Hexact : (IZR k * bpow (mu - 53))%R = IZR (Z.pos p)).
  { apply (round_exact k (Z.pos p * 2 ^ (53 - mu))); [apply bpow_pos| |exact Hnear].
    rewrite mult_IZR, <- bpow_IZR by lia. rewrite Rmult_assoc, <- bpow_add.
    replace (53 - mu + (mu - 53)) with 0 by lia. rewrite bpow_0. lra. }
  split; [lra|lra].
Qed.

Lemma shl_align_value mx ex ez :
  ez <= ex →
  (IZR (Z.pos (shl_align mx ex ez).1) * bpow ez = IZR (Z.pos mx) * bpow ex)%R.
Proof.
  intros Hle. unfold shl_align. destruct (ez - ex) as [|d|d] eqn:Ed; cbn [fst].
  - replace ez with ex by lia. reflexivity.
  - lia.
  - rewrite iter_xO_pow, mult_IZR, <- bpow_IZR by lia.
    replace ex with (Z.pos d + ez) by lia. rewrite bpow_add. lra.
Qed.

(** Addition of two represented numbers: exact, or rounded to a nearest
    multiple of the unit in the last place of the sum. *)
Lemma add_represents x y X Y :
  represents x X → represents y Y → (X + Y < bpow 1023)%R →
  ∃ Z, represents (x + y) Z
       ∧ (Z = (X + Y)%R
          ∨ ∃ mu k, (bpow (mu - 1) <= X + Y < bpow mu)%R
                    ∧ Z = (IZR k * bpow (mu - 53))%R
                    ∧ (Rabs (Z - (X + Y)) <= bpow (mu - 53) / 2)%R).
Proof.
  intros Hx Hy Hsum. pose proof (represents_nonneg _ _ Hx) as HX0.
  pose proof (represents_nonneg _ _ Hy) as HY0.
  unfold represents in *. rewrite add_spec. unfold SF64add, SFadd.
  destruct (Prim2SF x) as [sx|sx| |[] mx ex]; try done;
    destruct (Prim2SF y) as [sy|sy| |[] my ey]; try done.
  - subst X Y. exists 0%R. split; [|left; lra]. by destruct sx, sy.
  - subst X. exists Y. split; [done|left; lra].
  - subst Y. exists X. split; [done|left; lra].
  - destruct Hx as [-> HXn], Hy as [-> HYn].
    set (ez := Z.min ex ey).
    assert (Hez : ez <= ex ∧ ez <= ey) by (subst ez; lia).
    pose proof (shl_align_value mx ex ez (proj1 Hez)) as Hvx.
    pose proof (shl_align_value my ey ez (proj2 Hez)) as Hvy.
    cbn [cond_Zopp]. 
    set (ax := (shl_align mx ex ez).1) in *. set (ay := (shl_align my ey ez).1) in *.
    change (Z.pos ax + Z.pos ay) with (Z.pos (ax + ay)). cbn [binary_normalize].
    assert (Hv : (IZR (Z.pos (ax + ay)) * bpow ez
                  = IZR (Z.pos mx) * bpow ex + IZR (Z.pos my) * bpow ey)%R).
    { rewrite Pos2Z.inj_add, plus_IZR. lra. }
    destruct (binary_round_represents (ax + ay) ez)
      as (mf & ef & mu & k & Hres & Hmag & Hmu & Hval & Hk & Hnear); [lra..|].
    rewrite Hres. rewrite Hv in Hmag, Hnear.
    exists (IZR k * bpow (mu - 53))%R. split.
    + split; [by rewrite Hval|].
      apply Rle_trans with (bpow (mu - 1)); [apply bpow_le; lia|].
      replace (mu - 1) with (52 + (mu - 53)) by lia. rewrite bpow_add, bpow_IZR by lia.
      pose proof (bpow_pos (mu - 53)). apply Rmult_le_compat_r; [lra|].
      apply IZR_le. lia.
    + right. exists mu, k. done.
Qed.

Lemma add_small x y X Y :
  represents x X → represents y Y → (X + Y < 2)%R →
  ∃ Z, represents (x + y) Z ∧ (Rabs (Z - (X + Y)) <= bpow (-53))%R.
Proof.
  intros Hx Hy Hsum.
  assert (Hb : (2 <= bpow 1023)%R).
  { rewrite <- bpow_1. apply bpow_le. lia. }
  destruct (add_represents x y X Y Hx Hy) as (Z & HZ & [->|(mu & k & Hmag & _ & Hnear)]);
    [lra| |].
  - exists (X + Y)%R. split; [done|]. pose proof (bpow_pos (-53)).
    replace (X + Y - (X + Y))%R with 0%R by lra. rewrite Rabs_R0. lra.
  - exists Z. split; [done|].
    assert (Hmu : mu <= 1).
    { assert (mu - 1 < 1); [|lia]. apply bpow_lt_inv. rewrite bpow_1. lra. }
    apply Rle_trans with (bpow (mu - 53) / 2)%R; [exact Hnear|].
    rewrite <- bpow_pred. apply bpow_le. lia.
Qed.

Lemma add_exact_int x y A B :
  represents x (IZR A) → represents y (IZR B) →
  0 <= A → 0 <= B → A + B < 2 ^ 53 →
  represents (x + y) (IZR (A + B)).
Proof.
  intros Hx Hy HA HB Hlt.
  assert (Hs : (IZR A + IZR B < bpow 53)%R).
  { rewrite bpow_IZR, <- plus_IZR by lia. by apply IZR_lt. }
  assert (Hb : (bpow 53 <= bpow 1023)%R) by (apply bpow_le; lia).
  destruct (add_represents x y _ _ Hx Hy) as (Z & HZ & [->|(mu & k & Hmag & -> & Hnear)]);
    [lra| |].
  - by rewrite plus_IZR.
  - assert (Hmu : mu <= 53).
    { assert (mu - 1 < 53); [|lia]. apply bpow_lt_inv. lra. }
    rewrite plus_IZR.
    rewrite <- (round_exact k ((A + B) * 2 ^ (53 - mu)) (bpow (mu - 53)) (IZR A + IZR B));
      [exact HZ|apply bpow_pos| |exact Hnear].
    rewrite mult_IZR, <- bpow_IZR, plus_IZR by lia. rewrite Rmult_assoc, <- bpow_add.
    replace (53 - mu + (mu - 53)) with 0 by lia. rewrite bpow_0. lra.
Qed.

(** *** Division *)

Lemma new_location_located m2 q r :
  0 < m2 → 0 <= r < m2 →
  located q (new_location m2 r) (IZR q + IZR r / IZR m2).
Proof.
  intros Hm Hr.
  assert (Hm' : (0 < IZR m2)%R) by (by apply IZR_lt).
  set (rho := (IZR r / IZR m2)%R).
  assert (Hrho : (rho * IZR m2 = IZR r)%R) by (subst rho; field; lra).
  unfold new_location, new_location_even, new_location_odd.
  change (IntDef.Z.even m2) with (Z.even m2).
  assert (Hlt : (IZR r < IZR m2)%R) by (apply IZR_lt; lia).
  destruct (Z.even m2) eqn:Eeven; cbv beta; destruct (Z.eqb_spec r 0) as [E0|Hr0];
    try (subst r; assert (rho = 0%R) by (subst rho; lra); cbn [located]; lra).
  - assert (Hrpos : (1 <= IZR r)%R) by (apply IZR_le; lia).
    destruct (Z.compare_spec (2 * r) m2) as [E|E|E]; cbn [located].
    + apply (f_equal IZR) in E. rewrite mult_IZR in E. nra.
    + apply IZR_lt in E. rewrite mult_IZR in E. split; nra.
    + apply IZR_lt in E. rewrite mult_IZR in E. split; nra.
  - assert (Hrpos : (1 <= IZR r)%R) by (apply IZR_le; lia).
    assert (Hodd : 2 * r ≠ m2).
    { intros <-. rewrite Z.even_mul in Eeven. discriminate. }
    destruct (Z.compare_spec (2 * r + 1) m2) as [E|E|E]; cbn [located].
    + assert (E' : 2 * r < m2) by lia. apply IZR_lt in E'. rewrite mult_IZR in E'.
      split; nra.
    + assert (E' : 2 * r < m2) by lia. apply IZR_lt in E'. rewrite mult_IZR in E'.
      split; nra.
    + assert (E' : m2 < 2 * r) by lia. apply IZR_lt in E'. rewrite mult_IZR in E'.
      split; nra.
Qed.

Lemma bpow_opp e : bpow (- e) = (/ bpow e)%R.
Proof. apply powerRZ_neg'. Qed.

Lemma bpow_sub a b : bpow (a - b) = (bpow a / bpow b)%R.
Proof.
  replace (a - b) with (a + - b) by lia. rewrite bpow_add, bpow_opp. reflexivity.
Qed.

Lemma div_zero_represents x y Y :
  represents x 0 → represents y Y → (0 < Y)%R → represents (x / y) 0.
Proof.
  intros Hx Hy HY. destruct (represents_finite _ _ Hy HY) as (m & e & Ey & _).
  unfold represents in *. rewrite div_spec, Ey.
  destruct (Prim2SF x) as [s|s| |[] mx ex]; try done.
  destruct Hx as [Hx1 Hx2]. pose proof (bpow_pos (-1022)). lra.
Qed.

(** Division of two positive represented numbers whose quotient is in the
    range of the normal numbers: the relative error is at most [2^-53]. *)
Lemma div_represents x y X Y :
  represents x X → represents y Y → (0 < X)%R → (0 < Y)%R →
  (bpow (-1021) <= X / Y)%R → (X / Y < bpow 1023)%R →
  ∃ W, represents (x / y) W ∧ (Rabs (W - X / Y) <= bpow (-53) * (X / Y))%R.
Proof.
  intros Hx Hy HX HY Hlow Hhigh.
  destruct (represents_finite _ _ Hx HX) as (m1 & e1 & Ex & -> & _).
  destruct (represents_finite _ _ Hy HY) as (m2 & e2 & Ey & -> & _).
  unfold represents. rewrite div_spec, Ex, Ey. unfold SF64div, SFdiv, SFdiv_core_binary.
  cbn [xorb Zdigits2].
  set (d1 := Z.pos (digits2_pos m1)). set (d2 := Z.pos (digits2_pos m2)).
  set (t := d1 + e1 - (d2 + e2)).
  set (X := (IZR (Z.pos m1) * bpow e1)%R) in *.
  set (Y := (IZR (Z.pos m2) * bpow e2)%R) in *.
  set (V := (X / Y)%R) in *.
  assert (HVY : (V * Y = X)%R) by (subst V; field; lra).
  pose proof (value_magnitude m1 e1) as [HX1 HX2]. fold d1 X in HX1, HX2.
  pose proof (value_magnitude m2 e2) as [HY1 HY2]. fold d2 Y in HY1, HY2.
  assert (HVpos : (0 < V)%R) by (subst V; apply Rdiv_lt_0_compat; lra).
  assert (HVlo : (bpow (t - 1) < V)%R).
  { destruct (Rlt_le_dec (bpow (t - 1)) V) as [|Hle]; [done|]. exfalso.
    assert (E : (bpow (t - 1) * bpow (d2 + e2) = bpow (d1 + e1 - 1))%R).
    { rewrite <- bpow_add. f_equal. lia. }
    pose proof (bpow_pos (t - 1)). nra. }
  assert (HVhi : (V < bpow (t + 1))%R).
  { destruct (Rlt_le_dec V (bpow (t + 1))) as [|Hle]; [done|]. exfalso.
    assert (E : (bpow (t + 1) * bpow (d2 + e2 - 1) = bpow (d1 + e1))%R).
    { rewrite <- bpow_add. f_equal. lia. }
    pose proof (bpow_pos (t + 1)). pose proof (bpow_pos (d2 + e2 - 1)). nra. }
  assert (Ht : -1021 <= t).
  { assert (-1021 < t + 1); [|lia]. apply bpow_lt_inv. lra. }
  rewrite (fexp_normal t) by lia.
  set (e' := Z.min (t - 53) (e1 - e2)).
  assert (He' : e' <= t - 53 ∧ e' <= e1 - e2) by (subst e'; lia).
  set (s := e1 - e2 - e').
  assert (Hs : 0 <= s) by (subst s; lia).
  set (m' := match s with
             | 0 => Z.pos m1
             | Z.pos _ => Z.shiftl (Z.pos m1) s
             | Z.neg _ => 0
             end).
  assert (Hm' : m' = Z.pos m1 * 2 ^ s).
  { subst m'. destruct s as [|ps|ps] eqn:Es; [simpl; lia| |lia].
    rewrite Z.shiftl_mul_pow2 by lia. reflexivity. }
  change (IntDef.Z.div_eucl m' (Z.pos m2)) with (Z.div_eucl m' (Z.pos m2)).
  pose proof (Z.div_eucl_eq m' (Z.pos m2) ltac:(lia)) as Heq.
  pose proof (Z.mod_pos_bound m' (Z.pos m2) ltac:(lia)) as Hbd.
  unfold Z.modulo in Hbd.
  destruct (Z.div_eucl m' (Z.pos m2)) as [q r].
  set (xr := (IZR q + IZR r / IZR (Z.pos m2))%R).
  assert (Hm2 : (0 < IZR (Z.pos m2))%R) by (apply IZR_lt; lia).
  assert (Hxr : (xr * bpow e' = V)%R).
  { assert (E1 : (xr * IZR (Z.pos m2) = IZR m')%R).
    { subst xr. rewrite Heq, plus_IZR, mult_IZR. field. lra. }
    assert (E2 : IZR m' = (IZR (Z.pos m1) * bpow s)%R).
    { rewrite Hm', mult_IZR, bpow_IZR by lia. reflexivity. }
    assert (E3 : (bpow s * bpow e' * bpow e2 = bpow e1)%R).
    { rewrite <- !bpow_add. f_equal. subst s. lia. }
    pose proof (bpow_pos e2). pose proof (bpow_pos e').
    apply Rmult_eq_reg_r with Y; [|lra]. rewrite HVY. subst X Y.
    transitivity (xr * IZR (Z.pos m2) * (bpow e' * bpow e2))%R; [lra|].
    rewrite E1, E2, <- E3. lra. }
  assert (Hr0 : (0 <= IZR r / IZR (Z.pos m2) < 1)%R).
  { assert (H0 : (0 <= IZR r)%R) by (apply IZR_le; lia).
    assert (H1 : (IZR r < IZR (Z.pos m2))%R) by (apply IZR_lt; lia).
    split.
    - apply Rmult_le_pos; [lra|]. apply Rlt_le, Rinv_0_lt_compat. lra.
    - apply Rmult_lt_reg_r with (IZR (Z.pos m2)); [lra|].
      unfold Rdiv. rewrite Rmult_assoc, Rinv_l by lra. lra. }
  assert (Hq52 : 2 ^ 52 <= q).
  { assert (Hb : (bpow 52 < xr)%R).
    { pose proof (bpow_pos e') as Hpe.
      assert (E : (bpow 52 * bpow e' <= bpow (t - 1))%R).
      { rewrite <- bpow_add. apply bpow_le. lia. }
      apply Rmult_lt_reg_r with (bpow e'); [done|]. lra. }
    rewrite bpow_IZR in Hb by lia.
    assert (Hlt : (IZR (2 ^ 52) < IZR (q + 1))%R) by (rewrite plus_IZR; subst xr; lra).
    apply lt_IZR in Hlt. lia. }
  destruct q as [|pq|pq]; [lia| |lia].
  set (dq := Z.pos (digits2_pos pq)).
  pose proof (digits2_bounds pq) as [Hdq1 Hdq2]. fold dq in Hdq1, Hdq2.
  assert (Hdq : 53 <= dq).
  { assert (52 < dq); [|lia]. apply (Z.pow_lt_mono_r_iff 2); lia. }
  pose proof (value_magnitude pq e') as [Hq1 Hq2]. fold dq in Hq1, Hq2.
  pose proof (bpow_pos e') as Hpe.
  assert (HqV : (IZR (Z.pos pq) * bpow e' <= V)%R).
  { rewrite <- Hxr. subst xr. nra. }
  assert (HVq : (V < bpow (dq + e'))%R).
  { rewrite <- Hxr. rewrite bpow_add, (bpow_IZR dq) by lia.
    assert (Hle : (IZR (Z.pos pq) + 1 <= IZR (2 ^ dq))%R).
    { rewrite <- plus_IZR. apply IZR_le. lia. }
    subst xr. nra. }
  assert (Hmu1 : -1021 < dq + e') by (apply bpow_lt_inv; lra).
  assert (Hmu2 : dq + e' - 1 < 1023) by (apply bpow_lt_inv; lra).
  destruct (binary_round_aux_value false pq e' (new_location (Z.pos m2) r) xr)
    as (mf & ef & k & Hres & Hval & Hk & Hnear); fold dq.
  { apply new_location_located; lia. }
  { lia. } { lia. } { lia. }
  fold dq in Hval, Hnear. rewrite Hres. rewrite Hxr in Hnear.
  set (B := bpow (dq + e' - 53)) in *.
  assert (HB : (0 < B)%R) by apply bpow_pos.
  assert (HB52 : (bpow (dq + e' - 1) = IZR (2 ^ 52) * B)%R).
  { subst B. rewrite <- bpow_IZR, <- bpow_add by lia. f_equal. lia. }
  exists (IZR k * B)%R. split.
  - split; [by rewrite Hval|].
    apply Rle_trans with (bpow (dq + e' - 1)); [apply bpow_le; lia|].
    rewrite HB52. apply Rmult_le_compat_r; [lra|]. apply IZR_le. lia.
  - apply Rle_trans with (B / 2)%R; [exact Hnear|].
    assert (Hhalf : (bpow (-53) * IZR (2 ^ 52) = / 2)%R).
    { rewrite <- bpow_IZR, <- bpow_add by lia. replace (-53 + 52) with (- (1)) by lia.
      rewrite bpow_opp, bpow_1. reflexivity. }
    assert (HVB : (IZR (2 ^ 52) * B <= V)%R) by lra.
    pose proof (bpow_pos (-53)) as Hu. nra.
Qed.

(** *** Sums of integers and of normalized weights *)

Lemma Rabs_le_inv a b : (Rabs a <= b)%R → (- b <= a <= b)%R.
Proof. unfold Rabs. destruct (Rcase_abs a); lra. Qed.

Lemma sumZ_nonneg l : Forall (λ a, 0 <= a) l → 0 <= sumZ l.
Proof. induction 1 as [|a l Ha Hl IH]; simpl; lia. Qed.

Lemma zero_represents : represents 0%float 0.
Proof. reflexivity. Qed.

(** The raw sum of integers that stay below [2^53] is exact. *)
Lemma raw_sum_represents l acc P :
  represents acc (IZR P) → 0 <= P →
  Forall (λ a, 0 <= a) l → P + sumZ l < 2 ^ 53 →
  represents (foldl (λ sum num, (sum + num)%float) acc (map JS.ofZ l)) (IZR (P + sumZ l)).
Proof.
  revert acc P. induction l as [|a l IH]; intros acc P Hacc HP Hl Hlt.
  - simpl. by rewrite Z.add_0_r.
  - apply Forall_cons in Hl as [Ha Hl]. pose proof (sumZ_nonneg l Hl) as Hs.
    cbn [map foldl sumZ foldr] in *. fold (sumZ l) in *.
    replace (P + (a + sumZ l)) with ((P + a) + sumZ l) by lia.
    apply IH; [|lia|done|lia].
    apply add_exact_int; [done| |lia..]. apply ofZ_represents. lia.
Qed.

Lemma unit_roundoff : bpow (-53) = (/ 9007199254740992)%R.
Proof. change (-53) with (- (53)). rewrite bpow_opp, bpow_IZR by lia. reflexivity. Qed.

(** The left-to-right sum of the normalized weights: each division adds a
    relative error of at most [2^-53] and each addition an absolute error of
    at most [2^-53]. *)
Lemma weights_sum l y T acc A P k :
  represents y (IZR T) → 0 < T < 2 ^ 53 →
  represents acc A → 0 <= P → Forall (λ a, 0 <= a) l → P + sumZ l <= T →
  0 <= k → k + Z.of_nat (length l) <= 2 ^ 22 →
  (Rabs (A - IZR P / IZR T) <= bpow (-53) * (IZR P / IZR T) + IZR k * bpow (-53))%R →
  ∃ A', represents
          (foldl (λ s w, (s + w)%float) acc (map (λ num, (num / y)%float) (map JS.ofZ l))) A'
        ∧ (Rabs (A' - IZR (P + sumZ l) / IZR T)
           <= bpow (-53) * (IZR (P + sumZ l) / IZR T)
              + IZR (k + Z.of_nat (length l)) * bpow (-53))%R.
Proof.
  intros Hy HS. revert acc A P k.
  assert (HSR : (0 < IZR T)%R) by (apply IZR_lt; lia).
  induction l as [|a l IH]; intros acc A P k Hacc HP Hl Hle Hk Hn Hinv.
  - exists A. simpl. rewrite !Z.add_0_r. done.
  - apply Forall_cons in Hl as [Ha Hl]. pose proof (sumZ_nonneg l Hl) as Hs.
    cbn [map foldl sumZ foldr length] in *. fold (sumZ l) in *.
    rewrite unit_roundoff in *.
    set (u := (/ 9007199254740992)%R) in *.
    assert (Hu : (0 < u)%R) by (subst u; lra).
    set (rP := (IZR P / IZR T)%R) in *. set (ra := (IZR a / IZR T)%R).
    assert (HrP : (0 <= rP)%R).
    { subst rP. apply Rmult_le_pos; [apply IZR_le; lia|]. apply Rlt_le, Rinv_0_lt_compat. lra. }
    assert (Hra : (0 <= ra)%R).
    { subst ra. apply Rmult_le_pos; [apply IZR_le; lia|]. apply Rlt_le, Rinv_0_lt_compat. lra. }
    assert (Hsum1 : (rP + ra <= 1)%R).
    { subst rP ra. replace (IZR P / IZR T + IZR a / IZR T)%R with (IZR (P + a) / IZR T)%R
        by (rewrite plus_IZR; field; lra).
      apply Rmult_le_reg_r with (IZR T); [lra|].
      unfold Rdiv. rewrite Rmult_assoc, Rinv_l, Rmult_1_r, Rmult_1_l by lra.
      apply IZR_le. lia. }
    assert (Hk22 : (IZR k <= 4194304)%R).
    { change 4194304%R with (IZR (2 ^ 22)). apply IZR_le. lia. }
    assert (Hk0 : (0 <= IZR k)%R) by (apply IZR_le; lia).
    apply Rabs_le_inv in Hinv.
    (* the weight *)
    assert (Hw : ∃ W, represents (JS.ofZ a / y)%float W
                      ∧ (- (u * ra) <= W - ra <= u * ra)%R).
    { destruct (Z.eq_dec a 0) as [->|Ha0].
      - exists 0%R. split.
        + apply (div_zero_represents _ _ (IZR T)); [reflexivity|done|lra].
        + subst ra. unfold Rdiv. rewrite Rmult_0_l. lra.
      - assert (HaR : (1 <= IZR a)%R) by (apply IZR_le; lia).
        assert (HaS : (IZR a <= IZR T)%R) by (apply IZR_le; lia).
        assert (HS53 : (IZR T <= 9007199254740992)%R).
        { change 9007199254740992%R with (IZR (2 ^ 53)). apply IZR_le. lia. }
        assert (Hralo : (u <= ra)%R).
        { subst ra u. apply Rmult_le_reg_r with (IZR T); [lra|].
          unfold Rdiv. rewrite Rmult_assoc, Rinv_l, Rmult_1_r by lra.
          apply Rle_trans with (/ 9007199254740992 * 9007199254740992)%R; [|lra].
          apply Rmult_le_compat_l; lra. }
        assert (Hrahi : (ra <= 1)%R) by lra.
        destruct (div_represents (JS.ofZ a) y (IZR a) (IZR T)) as (W & HW & HWerr);
          [apply ofZ_represents; lia|done|lra|lra| | |].
        + fold ra. apply Rle_trans with (bpow (-53)); [apply bpow_le; lia|].
          rewrite unit_roundoff. exact Hralo.
        + fold ra. apply Rle_lt_trans with (bpow 0); [rewrite bpow_0; lra|].
          apply bpow_lt. lia.
        + exists W. split; [done|]. fold ra in HWerr. rewrite unit_roundoff in HWerr.
          by apply Rabs_le_inv in HWerr. }
    destruct Hw as (W & HW & HWerr).
    destruct (add_small acc (JS.ofZ a / y)%float A W Hacc HW) as (A1 & HA1 & Herr1).
    { subst u. lra. }
    rewrite unit_roundoff in Herr1. fold u in Herr1. apply Rabs_le_inv in Herr1.
    destruct (IH _ A1 (P + a) (k + 1) HA1) as (A' & HA' & Hfinal);
      [lia|done|lia|lia|lia| |].
    + replace (IZR (P + a) / IZR T)%R with (rP + ra)%R
        by (subst rP ra; rewrite plus_IZR; field; lra).
      rewrite plus_IZR. apply Rabs_le. lra.
    + exists A'. split; [done|].
      replace (P + (a + sumZ l)) with (P + a + sumZ l) by lia.
      replace (k + Z.of_nat (Datatypes.S (length l))) with (k + 1 + Z.of_nat (length l)) by lia.
      exact Hfinal.
Qed.

(** *** The tolerance test *)

Lemma canonical_digits m e :
  bounded prec emax m e = true →
  Z.pos (digits2_pos m) <= 53 ∧ -1074 <= e
  ∧ (-1074 < e → Z.pos (digits2_pos m) = 53).
Proof.
  unfold bounded, canonical_mantissa. intros [Hc _]%andb_prop.
  apply Z.eqb_eq in Hc. revert Hc. unfold fexp, emin, prec, emax. lia.
Qed.

(** Comparison of two positive numbers in canonical form follows their
    values. *)
Lemma SFleb_value m1 e1 m2 e2 :
  bounded prec emax m1 e1 = true → bounded prec emax m2 e2 = true →
  (IZR (Z.pos m1) * bpow e1 <= IZR (Z.pos m2) * bpow e2)%R →
  SFleb (S754_finite false m1 e1) (S754_finite false m2 e2) = true.
Proof.
  intros H1 H2 Hle. apply canonical_digits in H1 as (Hd1 & He1 & Hn1).
  apply canonical_digits in H2 as (Hd2 & He2 & Hn2).
  unfold SFleb, SFcompare. change (IntDef.Z.compare e1 e2) with (Z.compare e1 e2).
  destruct (Z.compare_spec e1 e2) as [E|E|E]; [|done|].
  - subst e2. pose proof (bpow_pos e1) as Hp.
    assert (Hm : (IZR (Z.pos m1) <= IZR (Z.pos m2))%R) by nra.
    apply le_IZR in Hm.
    change (Pos.compare_cont Eq m1 m2) with (Pos.compare m1 m2).
    destruct (Pos.compare_spec m1 m2); [done|done|lia].
  - exfalso. specialize (Hn1 ltac:(lia)).
    pose proof (digits2_bounds m1) as [Hlo _]. rewrite Hn1 in Hlo.
    pose proof (digits2_bounds m2) as [_ Hhi].
    assert (Hm2 : Z.pos m2 < 2 ^ 53).
    { eapply Z.lt_le_trans; [exact Hhi|]. apply Z.pow_le_mono_r; lia. }
    apply IZR_le in Hlo. apply IZR_lt in Hm2.
    change (2 ^ (53 - 1)) with 4503599627370496 in Hlo.
    change (2 ^ 53) with 9007199254740992 in Hm2.
    assert (Hb : (2 * bpow e2 <= bpow e1)%R).
    { rewrite <- bpow_succ. apply bpow_le. lia. }
    pose proof (bpow_pos e2). nra.
Qed.

Lemma tolerance_value :
  Prim2SF tolerance = S754_finite false 4835703278458517 (-82).
Proof. reflexivity. Qed.

(** A sum whose value is within [(2^22 + 1) * 2^-53] of 1 passes the test
    [Math.abs(sum - 1) <= 1e-9]. *)
Lemma within_tolerance s A :
  represents s A →
  (Rabs (A - 1) <= 4194305 * bpow (-53))%R →
  (abs (s - 1) <=? tolerance)%float = true.
Proof.
  intros Hs Hnear. rewrite unit_roundoff in Hnear. apply Rabs_le_inv in Hnear.
  destruct (represents_finite s A Hs) as (ms & es & Es & HA & _); [lra|].
  pose proof (Prim2SF_valid s) as Hvs. rewrite Es in Hvs. cbn [valid_binary] in Hvs.
  apply canonical_digits in Hvs as (Hds & Hes & _).
  pose proof (Prim2SF_valid (abs (s - 1))) as Hvalid.
  rewrite leb_spec, tolerance_value. rewrite abs_spec, sub_spec in Hvalid |- *.
  rewrite Es, Prim2SF_one in Hvalid |- *. unfold SFone, SF64sub, SFsub in Hvalid |- *.
  cbn [cond_Zopp] in Hvalid |- *.
  (* the exponent of [s] is -53 or more *)
  assert (Hes53 : -54 < es).
  { apply bpow_lt_inv. pose proof (digits2_bounds ms) as [_ Hhi].
    assert (Hm : (IZR (Z.pos ms) < 9007199254740992)%R).
    { change 9007199254740992%R with (IZR (2 ^ 53)). apply IZR_lt.
      eapply Z.lt_le_trans; [exact Hhi|]. apply Z.pow_le_mono_r; lia. }
    change (-54) with (- (54)). rewrite bpow_opp, bpow_IZR by lia.
    change (2 ^ 54) with 18014398509481984. pose proof (bpow_pos es). nra. }
  set (ez := Z.min es (-52)) in *.
  assert (Hez : ez <= es ∧ ez <= -52 ∧ -54 < ez) by (subst ez; lia).
  pose proof (shl_align_value ms es ez ltac:(lia)) as Hvx.
  pose proof (shl_align_value 4503599627370496 (-52) ez ltac:(lia)) as Hv1.
  set (ax := (shl_align ms es ez).1) in *.
  set (a1 := (shl_align 4503599627370496 (-52) ez).1) in *.
  assert (Hone : (IZR (Z.pos 4503599627370496) * bpow (-52) = 1)%R).
  { change (-52) with (- (52)). rewrite bpow_opp, bpow_IZR by lia.
    change (2 ^ 52) with 4503599627370496. field. }
  rewrite Hone in Hv1.
  change (IntDef.Z.sub (Z.pos ax) (Z.pos a1)) with (Z.pos ax - Z.pos a1) in Hvalid |- *.
  assert (HV : (IZR (Z.pos ax - Z.pos a1) * bpow ez = A - 1)%R).
  { rewrite minus_IZR. lra. }
  pose proof (bpow_pos ez) as Hpez.
  destruct (Z.pos ax - Z.pos a1) as [|p|p] eqn:EM; cbn [binary_normalize] in Hvalid |- *.
  - reflexivity.
  - pose proof (value_magnitude p ez) as [Hm1 Hm2].
    assert (Hp1 : (1 <= IZR (Z.pos p))%R) by (apply IZR_le; lia).
    assert (Hmu2 : Z.pos (digits2_pos p) + ez - 1 < 0).
    { apply bpow_lt_inv. rewrite bpow_0. lra. }
    destruct (binary_round_correct false p ez) as (mf & ef & k & Hres & Hval & Hk & Hn);
      [lia|lia|].
    rewrite Hres in Hvalid |- *. cbn [SFabs valid_binary] in Hvalid |- *.
    apply SFleb_value; [exact Hvalid|reflexivity|].
    rewrite Hval. apply Rabs_le_inv in Hn.
    set (B := bpow (Z.pos (digits2_pos p) + ez - 53)) in *.
    assert (HB : (bpow (Z.pos (digits2_pos p) + ez - 1) = 4503599627370496 * B)%R).
    { subst B. change 4503599627370496%R with (IZR (2 ^ 52)).
      rewrite <- bpow_IZR, <- bpow_add by lia. f_equal. lia. }
    assert (HB0 : (0 < B)%R) by apply bpow_pos.
    change (-82) with (- (82)). rewrite bpow_opp, bpow_IZR by lia.
    change (2 ^ 82) with 4835703278458516698824704. lra.
  - pose proof (value_magnitude p ez) as [Hm1 Hm2].
    assert (Hp1 : (1 <= IZR (Z.pos p))%R) by (apply IZR_le; lia).
    assert (HVn : (IZR (Z.pos p) * bpow ez = 1 - A)%R).
    { change (Z.neg p) with (- Z.pos p) in HV. rewrite opp_IZR in HV. lra. }
    assert (Hmu2 : Z.pos (digits2_pos p) + ez - 1 < 0).
    { apply bpow_lt_inv. rewrite bpow_0. lra. }
    destruct (binary_round_correct true p ez) as (mf & ef & k & Hres & Hval & Hk & Hn);
      [lia|lia|].
    rewrite Hres in Hvalid |- *. cbn [SFabs valid_binary] in Hvalid |- *.
    apply SFleb_value; [exact Hvalid|reflexivity|].
    rewrite Hval. apply Rabs_le_inv in Hn.
    set (B := bpow (Z.pos (digits2_pos p) + ez - 53)) in *.
    assert (HB : (bpow (Z.pos (digits2_pos p) + ez - 1) = 4503599627370496 * B)%R).
    { subst B. change 4503599627370496%R with (IZR (2 ^ 52)).
      rewrite <- bpow_IZR, <- bpow_add by lia. f_equal. lia. }
    assert (HB0 : (0 < B)%R) by apply bpow_pos.
    change (-82) with (- (82)). rewrite bpow_opp, bpow_IZR by lia.
    change (2 ^ 82) with 4835703278458516698824704. lra.
Qed.

(** ** The regular timeline *)

Lemma regularTimeline_cons a b step :
  0 < step → a <= b →
  regularTimeline a b step = a :: regularTimeline (a + step) b step.
Proof.
  intros Hs Hab. unfold regularTimeline.
  assert (Hq : (b - a) / step = (b - (a + step)) / step + 1).
  { replace (b - a) with (b - (a + step) + 1 * step) by lia.
    rewrite Z.div_add by lia. reflexivity. }
  assert (Hge : 0 <= (b - a) / step) by (apply Z.div_pos; lia).
  replace (Z.to_nat ((b - a) / step + 1))
    with (S (Z.to_nat ((b - (a + step)) / step + 1))) by lia.
  cbn [seq map]. f_equal; [lia|].
  rewrite <- seq_shift, map_map. apply map_ext. intros k. lia.
Qed.

Lemma regularTimeline_nil a b step :
  0 < step → b < a → regularTimeline a b step = [].
Proof.
  intros Hs Hab. unfold regularTimeline.
  assert ((b - a) / step < 0) by (apply Z.div_lt_upper_bound; lia).
  replace (Z.to_nat ((b - a) / step + 1)) with 0%nat by lia. reflexivity.
Qed.

(** The loop exits by its own test whenever it is given the fuel of
    [loopFuel] (or more), and produces the regular timeline. *)
Lemma timestampsLoop_enough fuel t b step :
  0 < step → (Z.to_nat ((b - t) / step + 1) < fuel)%nat →
  timestampsLoop fuel t b step = Some (regularTimeline t b step).
Proof.
  intros Hs. revert t. induction fuel as [|fuel IH]; intros t Hf; [lia|].
  cbn [timestampsLoop]. destruct (Z.leb_spec t b) as [Hle|Hgt].
  - assert (Hq : (b - t) / step = (b - (t + step)) / step + 1).
    { replace (b - t) with (b - (t + step) + 1 * step) by lia.
      rewrite Z.div_add by lia. reflexivity. }
    assert (Hge : 0 <= (b - t) / step) by (apply Z.div_pos; lia).
    rewrite IH by lia. rewrite (regularTimeline_cons t b step) by lia. reflexivity.
  - rewrite regularTimeline_nil by lia. reflexivity.
Qed.

Lemma getTimeStep_pos i : 0 < getTimeStep i.
Proof. destruct i; reflexivity. Qed.

Lemma generateTimestamps_finite a b step :
  0 < step →
  generateTimestamps (JS.Finite a) (JS.Finite b) step = Ok (regularTimeline a b step).
Proof.
  intros Hs. unfold generateTimestamps, loopFuel.
  rewrite timestampsLoop_enough by lia. reflexivity.
Qed.

(** An empty window: the loop body never runs. *)
Lemma generateTimestamps_disjoint lo hi step :
  0 < step → JS.leb lo hi = false → generateTimestamps lo hi step = Ok [].
Proof.
  intros Hs Hlt. destruct lo as [|a|], hi as [|b|]; try discriminate; try reflexivity.
  rewrite generateTimestamps_finite by done.
  rewrite regularTimeline_nil; [done|done|]. simpl in Hlt. lia.
Qed.

(** ** Running the routes *)

Lemma bind_ok {A B} (c : M A) (k : A → M B) w a w' :
  c w = (Ok a, w') → bind c k w = k a w'.
Proof. unfold bind. by intros ->. Qed.

Lemma getWeightedPrices_loaded alchemy symbolList ratioList i env w priceDataList w' :
  loadAll alchemy symbolList i env w = (Ok priceDataList, w') →
  getWeightedPrices alchemy symbolList ratioList i env w
  = (weightedSeries symbolList ratioList i priceDataList, w').
Proof. intros H. unfold getWeightedPrices. by rewrite (bind_ok _ _ _ _ _ H). Qed.

Lemma split_nonempty sep s : JS.split sep s ≠ [].
Proof.
  destruct s as [|c s]; simpl; [done|].
  destruct (Ascii.eqb c sep); [done|]. by destruct (JS.split sep s).
Qed.

Lemma processRatios_length Number ratios :
  length (processRatios Number ratios) = length ratios.
Proof.
  unfold processRatios. destruct (forallb _ _); by rewrite ?length_map.
Qed.

(** The accepted case of [GET /aggregate]. *)
Lemma aggregateRoute_accepted Number alchemy query env w i :
  JS.truthy (symbols query) = true →
  JS.truthy (ratios query) = true →
  length (JS.split "," (default "" (symbols query)))
  = length (JS.split "," (default "" (ratios query))) →
  isValidInterval (intervalOrDefault query) = Some i →
  aggregateRoute Number alchemy query env w
  = catch
      (do weightedData <-
         getWeightedPrices alchemy (JS.split "," (default "" (symbols query)))
           (processRatios Number (JS.split "," (default "" (ratios query)))) i env;
       respond 200 (AggregateJson weightedData i))
      (λ error, respond 500 (ErrorJson error)) w.
Proof.
  intros Hs Hr Hlen Hi. unfold aggregateRoute.
  rewrite Hs, Hr, processRatios_length, Hlen, Nat.eqb_refl, Hi. reflexivity.
Qed.

Lemma pnlRoute_accepted Number alchemy query env w :
  JS.truthy (symbols query) = true →
  JS.truthy (ratios query) = true →
  length (JS.split "," (default "" (symbols query)))
  = length (JS.split "," (default "" (ratios query))) →
  pnlRoute Number alchemy query env w
  = catch
      (do weightedData <-
         getWeightedPrices alchemy (JS.split "," (default "" (symbols query)))
           (processRatios Number (JS.split "," (default "" (ratios query)))) I30d env;
       do payload <- lift (percentChange weightedData);
       respond 200 payload)
      (λ error, respond 500 (ErrorJson error)) w.
Proof.
  intros Hs Hr Hlen. unfold pnlRoute.
  rewrite Hs, Hr, processRatios_length, Hlen, Nat.eqb_refl. reflexivity.
Qed.

(** C1 (as the code has it).  When the common window is empty (its start
    lies after its end) [getWeightedPrices] returns the empty series; no
    error is raised, and [GET /aggregate] answers 200 with no points. *)
Theorem no_overlap_gives_empty_series
    Number alchemy query env w i priceDataList w' :
  JS.truthy (symbols query) = true →
  JS.truthy (ratios query) = true →
  length (JS.split "," (default "" (symbols query)))
  = length (JS.split "," (default "" (ratios query))) →
  isValidInterval (intervalOrDefault query) = Some i →
  loadAll alchemy (JS.split "," (default "" (symbols query))) i env w
  = (Ok priceDataList, w') →
  JS.leb (commonStart priceDataList) (commonEnd priceDataList) = false →
  getWeightedPrices alchemy (JS.split "," (default "" (symbols query)))
    (processRatios Number (JS.split "," (default "" (ratios query)))) i env w
  = (Ok [], w')
  ∧ aggregateRoute Number alchemy query env w
    = (Ok {| status := 200; body := AggregateJson [] i |}, w').
Proof.
  intros Hs Hr Hlen Hi Hload Hgap.
  assert (Hg : getWeightedPrices alchemy (JS.split "," (default "" (symbols query)))
                 (processRatios Number (JS.split "," (default "" (ratios query)))) i env w
               = (Ok [], w')).
  { rewrite (getWeightedPrices_loaded _ _ _ _ _ _ _ _ Hload). f_equal.
    unfold weightedSeries.
    rewrite generateTimestamps_disjoint by auto using getTimeStep_pos. reflexivity. }
  split; [exact Hg|].
  rewrite aggregateRoute_accepted with (i := i) by done.
  unfold catch. rewrite (bind_ok _ _ _ _ _ Hg). reflexivity.
Qed.

(** ** Available prices: sorted, without repeated instants *)

#[global] Instance byTime_trans : Transitive byTime.
Proof. unfold byTime. intros a b c. lia. Qed.

#[global] Instance byTime_total : Total byTime.
Proof. unfold byTime. intros a b. lia. Qed.

Lemma availablePrices_sorted pm lo hi :
  StronglySorted byTime (availablePrices pm lo hi).
Proof. apply StronglySorted_merge_sort; apply _. Qed.

Lemma availablePrices_perm pm lo hi :
  availablePrices pm lo hi ≡ₚ List.filter (inWindow lo hi) pm.
Proof. apply merge_sort_Permutation. Qed.

Lemma mapSet_keys k v m e :
  e ∈ (JS.mapSet k v m).*1 → e = k ∨ e ∈ m.*1.
Proof.
  induction m as [|[k' v'] m IH]; simpl.
  - rewrite list_elem_of_singleton. auto.
  - destruct (k' =? k) eqn:E; simpl; rewrite !elem_of_cons; [tauto|].
    intros [->|H]; [tauto|]. destruct (IH H); tauto.
Qed.

Lemma mapSet_NoDup k v m : NoDup m.*1 → NoDup (JS.mapSet k v m).*1.
Proof.
  induction m as [|[k' v'] m IH]; simpl; intros Hnd.
  - apply NoDup_singleton.
  - apply NoDup_cons in Hnd as [Hk Hnd].
    destruct (Z.eqb_spec k' k) as [->|Hne]; simpl; apply NoDup_cons; split; auto.
    intros Hin. apply mapSet_keys in Hin as [?|?]; [lia|done].
Qed.

Lemma foldl_mapSet_keys (pts : list Point) m :
  NoDup m.*1 →
  let m' := foldl (λ m point, JS.mapSet (timestamp point) (value point) m) m pts in
  NoDup m'.*1 ∧ ∀ e, e ∈ m'.*1 → e ∈ m.*1 ∨ e ∈ map timestamp pts.
Proof.
  revert m. induction pts as [|p pts IH]; intros m Hnd; simpl.
  - split; [done|]. auto.
  - destruct (IH (JS.mapSet (timestamp p) (value p) m) (mapSet_NoDup _ _ _ Hnd)) as [H1 H2].
    split; [exact H1|]. intros e He. apply H2 in He as [He|He].
    + apply mapSet_keys in He as [->|He]; [right; left|left; done].
    + right. by right.
Qed.

(** Every instant is a key of the map at most once, and is one of the
    series' timestamps. *)
Lemma priceMap_keys d :
  NoDup (priceMap d).*1 ∧ ∀ e, e ∈ (priceMap d).*1 → e ∈ map timestamp (data d).
Proof.
  destruct (foldl_mapSet_keys (data d) [] (NoDup_nil_2)) as [H1 H2].
  split; [exact H1|]. intros e He. apply H2 in He as [He|He]; [|done].
  by apply elem_of_nil in He.
Qed.

Lemma filter_keys_NoDup (f : Z * float → bool) m :
  NoDup m.*1 → NoDup (List.filter f m).*1.
Proof.
  induction m as [|x m IH]; simpl; [done|]. intros [Hx Hnd]%NoDup_cons.
  destruct (f x); simpl; auto. apply NoDup_cons. split; auto.
  intros Hin. apply Hx. apply list_elem_of_fmap in Hin as (y & -> & Hy).
  apply list_elem_of_fmap. exists y. split; [done|].
  apply list_elem_of_In. apply list_elem_of_In in Hy. apply filter_In in Hy. tauto.
Qed.

Lemma sorted_NoDup_strict (l : list (Z * float)) :
  StronglySorted byTime l → NoDup l.*1 → StronglySorted beforeTime l.
Proof.
  induction 1 as [|x l Hs IH Hall]; intros Hnd; constructor.
  - apply IH. by apply NoDup_cons in Hnd as [_ ?].
  - apply NoDup_cons in Hnd as [Hx _].
    rewrite Forall_forall in Hall. apply Forall_forall. intros y Hy.
    specialize (Hall y Hy). unfold byTime in Hall. unfold beforeTime.
    destruct (Z.eq_dec x.1 y.1) as [E|E]; [|lia].
    exfalso. apply Hx. rewrite E. apply list_elem_of_fmap. exists y. done.
Qed.

Lemma availablePrices_strict d lo hi :
  StronglySorted beforeTime (availablePrices (priceMap d) lo hi).
Proof.
  apply sorted_NoDup_strict; [apply availablePrices_sorted|].
  rewrite (availablePrices_perm (priceMap d) lo hi).
  apply filter_keys_NoDup, priceMap_keys.
Qed.

Lemma availablePrices_times d lo hi e :
  e ∈ availablePrices (priceMap d) lo hi → e.1 ∈ map timestamp (data d).
Proof.
  intros He. apply priceMap_keys. apply list_elem_of_fmap. exists e. split; [done|].
  rewrite (availablePrices_perm (priceMap d) lo hi) in He.
  apply list_elem_of_In in He. apply filter_In in He as [He _]. by apply list_elem_of_In.
Qed.

(** ** The search for the bracketing pair *)

Lemma findBracket_none_low prices t :
  Forall (λ e, t < e.1) prices → findBracket prices t = None.
Proof.
  induction 1 as [|x l Hx Hl IH]; [done|]. destruct l as [|y l]; [done|].
  cbn [findBracket]. destruct (Z.leb_spec x.1 t); [lia|]. simpl. exact IH.
Qed.

Lemma findBracket_none_high prices t :
  Forall (λ e, e.1 < t) prices → findBracket prices t = None.
Proof.
  induction 1 as [|x l Hx Hl IH]; [done|]. destruct l as [|y l]; [done|].
  cbn [findBracket]. apply Forall_cons in Hl as Hy. destruct Hy as [Hy _].
  destruct (Z.geb_spec y.1 t); [lia|]. rewrite andb_false_r. exact IH.
Qed.

Lemma findBracket_first a b rest :
  a.1 <= b.1 → findBracket (a :: b :: rest) a.1 = Some (a, b).
Proof.
  intros Hab. cbn [findBracket].
  destruct (Z.leb_spec a.1 a.1); [|lia]. destruct (Z.geb_spec b.1 a.1); [done|lia].
Qed.

Lemma findBracket_upper pre a b post :
  StronglySorted beforeTime (pre ++ a :: b :: post) →
  findBracket (pre ++ a :: b :: post) b.1 = Some (a, b).
Proof.
  induction pre as [|p pre IH]; intros Hs.
  - simpl app. cbn [findBracket].
    apply StronglySorted_inv in Hs as [_ Hall]. apply Forall_cons in Hall as [Hab _].
    unfold beforeTime in Hab.
    destruct (Z.leb_spec a.1 b.1); [|lia]. destruct (Z.geb_spec b.1 b.1); [done|lia].
  - apply StronglySorted_inv in Hs as [Hs Hall].
    specialize (IH Hs).
    assert (∃ q l, pre ++ a :: b :: post = q :: l ∧ q.1 < b.1) as (q & l & Eq & Hq).
    { destruct pre as [|q pre].
      - exists a, (b :: post). split; [done|].
        apply StronglySorted_inv in Hs as [_ Ha]. by apply Forall_cons in Ha as [? _].
      - exists q, (pre ++ a :: b :: post). split; [done|].
        apply StronglySorted_inv in Hs as [_ Hq]. rewrite Forall_forall in Hq.
        apply Hq. rewrite elem_of_app. right. apply elem_of_cons. right. apply elem_of_cons. by left. }
    simpl app. rewrite Eq in *. cbn [findBracket].
    destruct (Z.geb_spec q.1 b.1); [lia|]. rewrite andb_false_r. exact IH.
Qed.

Lemma sorted_first_least (x : Z * float) l :
  StronglySorted byTime (x :: l) → Forall (λ e, x.1 <= e.1) (x :: l).
Proof.
  intros [_ Hall]%StronglySorted_inv. constructor; [lia|exact Hall].
Qed.

Lemma sorted_last_greatest (l : list (Z * float)) y :
  StronglySorted byTime l → last l = Some y → Forall (λ e, e.1 <= y.1) l.
Proof.
  induction 1 as [|x l Hs IH Hall]; intros Hl; [done|].
  destruct l as [|x' l].
  - simpl in Hl. injection Hl as <-. constructor; [lia|done].
  - change (last (x :: x' :: l)) with (last (x' :: l)) in Hl.
    specialize (IH Hl). constructor; [|exact IH].
    rewrite Forall_forall in Hall.
    assert (Hy : y ∈ x' :: l).
    { apply list_elem_of_lookup. exists (length l).
      rewrite last_lookup in Hl. exact Hl. }
    exact (Hall y Hy).
Qed.

(** C2 (as the code has it).  For an instant before the first or after the
    last of a series' points inside the window, the search finds no pair and
    the value is read off the straight line through the first and the last
    of those points: the series is extrapolated, not clamped.  (With a
    single point in the window the two ends coincide and the ratio is 0.) *)
Theorem outside_points_extrapolates sym pm lo hi t first rest lastPoint :
  availablePrices pm lo hi = first :: rest →
  last (first :: rest) = Some lastPoint →
  t < first.1 ∨ lastPoint.1 < t →
  interpolatedValue sym pm lo hi t
  = Ok (first.2 + (lastPoint.2 - first.2)
                  * (if (lastPoint.1 - first.1 =? 0)%Z then 0
                     else JS.ofZ (t - first.1)%Z / JS.ofZ (lastPoint.1 - first.1)%Z))%float.
Proof.
  intros Hav Hlast Hout. unfold interpolatedValue, interpolate. rewrite Hav.
  pose proof (availablePrices_sorted pm lo hi) as Hs. rewrite Hav in Hs.
  assert (Hnone : findBracket (first :: rest) t = None).
  { destruct Hout as [Hlow|Hhigh].
    - apply findBracket_none_low. eapply Forall_impl; [apply sorted_first_least, Hs|].
      simpl. intros. lia.
    - apply findBracket_none_high.
      eapply Forall_impl; [apply (sorted_last_greatest _ _ Hs Hlast)|]. simpl. intros. lia. }
  rewrite Hnone, Hlast. reflexivity.
Qed.

(** ** Percentage change *)

(** C3 (as the code has it).  When the first aggregated value is zero the
    route raises nothing.  It answers 200, and the [pnl] of its payload is
    [(last - first) / first * 100] computed in binary64 on the first and
    last elements of the aggregated series: the quotient by zero makes it an
    infinity or [NaN], which [JSON.stringify] sends as ["pnl":null]. *)
Theorem zero_baseline_gives_nonfinite_pnl
    Number alchemy query env w first rest lastPoint w' :
  JS.truthy (symbols query) = true →
  JS.truthy (ratios query) = true →
  length (JS.split "," (default "" (symbols query)))
  = length (JS.split "," (default "" (ratios query))) →
  getWeightedPrices alchemy (JS.split "," (default "" (symbols query)))
    (processRatios Number (JS.split "," (default "" (ratios query)))) I30d env w
  = (Ok (first :: rest), w') →
  last (first :: rest) = Some lastPoint →
  (value first =? 0)%float = true →
  pnlRoute Number alchemy query env w
  = (Ok {| status := 200;
           body := PnlJson ((value lastPoint - value first) / value first * 100)%float
                     (value first) (value lastPoint)
                     (timestamp first) (timestamp lastPoint) |}, w')
  ∧ is_finite ((value lastPoint - value first) / value first * 100)%float = false
  ∧ (∀ response, (pnlRoute Number alchemy query env w).1 = Ok response →
                 status response = 200 ∧ pnlField (body response) = Some None).
Proof.
  intros Hs Hr Hlen Hg Hlast Hzero.
  assert (Hfin : is_finite ((value lastPoint - value first) / value first * 100)%float
                 = false) by (by apply percent_of_zero_not_finite).
  assert (Hroute :
    pnlRoute Number alchemy query env w
    = (Ok {| status := 200;
             body := PnlJson ((value lastPoint - value first) / value first * 100)%float
                       (value first) (value lastPoint)
                       (timestamp first) (timestamp lastPoint) |}, w')).
  { rewrite pnlRoute_accepted by done.
    unfold catch. rewrite (bind_ok _ _ _ _ _ Hg).
    unfold percentChange, lift, bind, respond, ret. rewrite Hlast. reflexivity. }
  split; [exact Hroute|]. split; [exact Hfin|].
  intros response. rewrite Hroute. intros [= <-]. split; [reflexivity|].
  cbn [body pnlField]. unfold jsonNumber. by rewrite Hfin.
Qed.

(** ** Interpolation at known points *)

Lemma lerp_at_lower lo hi :
  is_finite (hi.2 - lo.2) = true →
  lo.2 ≠ (-0)%float →
  0 <= hi.1 - lo.1 < 2 ^ 63 →
  lerp lo hi lo.1 = lo.2.
Proof.
  intros Hfin Hneg Hd. unfold lerp. rewrite Z.sub_diag.
  assert (Hv : Prim2SF lo.2 ≠ S754_zero true).
  { intros E. apply Hneg. apply Prim2SF_inj. rewrite E. reflexivity. }
  assert (Hratio : ∃ s, Prim2SF (if hi.1 - lo.1 =? 0 then 0%float
                                 else (JS.ofZ 0 / JS.ofZ (hi.1 - lo.1))%float)
                        = S754_zero s).
  { destruct (Z.eqb_spec (hi.1 - lo.1) 0) as [E|E]; [by exists false|].
    apply zero_div_SF, ofZ_nonzero; lia. }
  destruct Hratio as [s Hs].
  destruct (finite_mul_zero_SF _ _ _ Hfin Hs) as [s' Hs'].
  by apply add_zero_r_SF with s'.
Qed.

Lemma lerp_at_upper lo hi :
  0 < hi.1 - lo.1 < 2 ^ 63 →
  lerp lo hi hi.1 = (lo.2 + (hi.2 - lo.2))%float.
Proof.
  intros Hd. unfold lerp.
  destruct (Z.eqb_spec (hi.1 - lo.1) 0) as [E|_]; [lia|].
  destruct (ofZ_pos_spec (hi.1 - lo.1)) as (m & e & Hm); [lia..|].
  rewrite (div_self_SF _ _ _ _ Hm), mul_one_r. reflexivity.
Qed.

Lemma validTime_diff a b :
  JS.validTime a → JS.validTime b → Z.abs (b - a) < 2 ^ 63.
Proof. unfold JS.validTime. change (2 ^ 63) with 9223372036854775808. lia. Qed.

(** C4 (as the code has it).  At the first point a series has in the window
    (alone there or not) the pair the code works with has that point as its
    lower end, and the value is the point's value bit for bit, provided the
    difference to the upper end is finite and the value is not the negative
    zero.  At any later known point the pair found is the one that ends
    there; the ratio is 1 and the value is [v_lo + (v_hi - v_lo)], the
    rounded sum, which need not be [v_hi]. *)
Theorem known_point_interpolation sym d lo hi :
  Forall (λ point, JS.validTime (timestamp point)) (data d) →
  (∀ first rest,
     availablePrices (priceMap d) lo hi = first :: rest →
     is_finite ((default first (head rest)).2 - first.2) = true →
     first.2 ≠ (-0)%float →
     interpolatedValue sym (priceMap d) lo hi first.1 = Ok first.2)
  ∧ (∀ pre a b post,
       availablePrices (priceMap d) lo hi = pre ++ a :: b :: post →
       interpolatedValue sym (priceMap d) lo hi b.1 = Ok (a.2 + (b.2 - a.2))%float).
Proof.
  intros Hvalid.
  assert (Htime : ∀ e, e ∈ availablePrices (priceMap d) lo hi → JS.validTime e.1).
  { intros e He. apply availablePrices_times in He.
    apply list_elem_of_fmap in He as (p & -> & Hp).
    rewrite Forall_forall in Hvalid. by apply Hvalid. }
  pose proof (availablePrices_strict d lo hi) as Hstrict.
  split.
  - intros first rest Hav Hfin Hneg. unfold interpolatedValue, interpolate.
    rewrite Hav in *. destruct rest as [|second rest].
    + simpl. f_equal. apply lerp_at_lower; [exact Hfin|exact Hneg|].
      rewrite Z.sub_diag. done.
    + assert (Hlt : first.1 < second.1).
      { apply StronglySorted_inv in Hstrict as [_ Hall].
        by apply Forall_cons in Hall as [? _]. }
      rewrite findBracket_first by lia. simpl default. f_equal.
      apply lerp_at_lower; [exact Hfin|exact Hneg|].
      pose proof (validTime_diff first.1 second.1
                    (Htime first ltac:(left)) (Htime second ltac:(right; left))).
      lia.
  - intros pre a b post Hav. unfold interpolatedValue, interpolate.
    rewrite Hav in *. rewrite findBracket_upper by exact Hstrict.
    assert (Hlt : a.1 < b.1).
    { pose proof (StronglySorted_app_1_r _ _ _ Hstrict) as Hr.
      apply StronglySorted_inv in Hr as [_ Hall].
      by apply Forall_cons in Hall as [? _]. }
    assert (Ha : a ∈ pre ++ a :: b :: post) by (rewrite elem_of_app; right; left).
    assert (Hb : b ∈ pre ++ a :: b :: post)
      by (rewrite elem_of_app; right; right; left).
    pose proof (validTime_diff a.1 b.1 (Htime a Ha) (Htime b Hb)).
    destruct (pre ++ a :: b :: post) as [|x l] eqn:E.
    { by destruct pre. }
    simpl default. f_equal. apply lerp_at_upper. lia.
Qed.

(** ** Weights *)

Lemma isInteger_finite x :
  JS.isInteger x = true → (x =? 0)%float = false →
  ∃ s m e, Prim2SF x = S754_finite s m e.
Proof.
  unfold JS.isInteger. rewrite FloatAxioms.eqb_spec.
  change (Prim2SF 0) with (S754_zero false).
  destruct (Prim2SF x) as [[]|[]| |s m e]; try discriminate; eauto.
Qed.

Lemma processRatios_single Number r :
  JS.isInteger (Number r) = true → (Number r =? 0)%float = false →
  processRatios Number [r] = [1%float].
Proof.
  intros Hint Hnz. unfold processRatios. cbn [map forallb]. rewrite Hint.
  cbn [andb foldl map].
  destruct (isInteger_finite _ Hint Hnz) as (s & m & e & Hx).
  assert (Hsum : (0 + Number r)%float = Number r).
  { apply Prim2SF_inj. rewrite add_spec, Hx. reflexivity. }
  rewrite Hsum, (div_self_SF _ _ _ _ Hx). reflexivity.
Qed.

Lemma isInteger_ofZ a : 0 <= a < 2 ^ 53 → JS.isInteger (JS.ofZ a) = true.
Proof.
  intros Ha. pose proof (ofZ_represents a Ha) as Hr.
  unfold represents in Hr. unfold JS.isInteger.
  destruct (Prim2SF (JS.ofZ a)) as [s|s| |[] m e]; try done.
  destruct Hr as [Hv _]. destruct (Z.leb_spec 0 e) as [|He]; [done|]. cbn [orb].
  apply Z.eqb_eq.
  assert (Hm : Z.pos m = a * 2 ^ (- e)).
  { apply eq_IZR. rewrite mult_IZR, <- bpow_IZR, Hv by lia.
    rewrite Rmult_assoc, <- bpow_add. replace (e + - e) with 0 by lia.
    rewrite bpow_0. lra. }
  rewrite Hm. apply Z.mod_mul. assert (0 < 2 ^ (- e)) by (apply Z.pow_pos_nonneg; lia). lia.
Qed.

Lemma elem_le_sumZ l a : Forall (λ x, 0 <= x) l → a ∈ l → a <= sumZ l.
Proof.
  induction 1 as [|x l Hx Hl IH]; [by intros ?%elem_of_nil|].
  pose proof (sumZ_nonneg l Hl). intros [->|Hin]%elem_of_cons; simpl.
  - fold (sumZ l). lia.
  - fold (sumZ l). specialize (IH Hin). lia.
Qed.

(** Non-negative integers whose sum is positive and below [2^53], at most
    [2^22] of them: the normalized weights pass the tolerance test. *)
Lemma integer_weights_sum_to_one Number ratios amounts :
  map Number ratios = map JS.ofZ amounts →
  Forall (λ a, 0 <= a) amounts →
  0 < sumZ amounts < 2 ^ 53 →
  Z.of_nat (length ratios) <= 2 ^ 22 →
  processRatios Number ratios
  = map (λ num, (num / sumOf (map Number ratios))%float) (map Number ratios)
  ∧ sumsToOne (processRatios Number ratios) = true.
Proof.
  intros Hnum Hpos Hsum Hlen.
  assert (Hlen' : length amounts = length ratios).
  { apply (f_equal length) in Hnum. rewrite !length_map in Hnum. done. }
  assert (Hint : forallb JS.isInteger (map Number ratios) = true).
  { rewrite Hnum. apply forallb_forall. intros x Hx.
    apply in_map_iff in Hx as (a & <- & Ha). apply list_elem_of_In in Ha.
    apply isInteger_ofZ. pose proof (elem_le_sumZ _ _ Hpos Ha).
    rewrite Forall_forall in Hpos. specialize (Hpos a Ha). lia. }
  assert (Hproc : processRatios Number ratios
                  = map (λ num, (num / sumOf (map Number ratios))%float) (map Number ratios)).
  { unfold processRatios. rewrite Hint. reflexivity. }
  split; [exact Hproc|].
  rewrite Hproc, Hnum. unfold sumsToOne.
  pose proof (raw_sum_represents amounts 0%float 0 zero_represents ltac:(lia) Hpos ltac:(lia))
    as Htotal.
  fold (sumOf (map JS.ofZ amounts)) in Htotal. rewrite Z.add_0_l in Htotal.
  destruct (weights_sum amounts (sumOf (map JS.ofZ amounts)) (sumZ amounts) 0%float 0 0 0)
    as (A' & HA' & Herr); [done|lia|exact zero_represents|lia|done|lia|lia| | |].
  { lia. }
  { unfold Rdiv. rewrite !Rmult_0_l, Rmult_0_r, Rplus_0_l, Rminus_0_r, Rabs_R0. lra. }
  fold (sumOf (map (λ num, (num / sumOf (map JS.ofZ amounts))%float) (map JS.ofZ amounts)))
    in HA'.
  apply (within_tolerance _ A' HA').
  rewrite !Z.add_0_l in Herr.
  assert (HT : (0 < IZR (sumZ amounts))%R) by (apply IZR_lt; lia).
  replace (IZR (sumZ amounts) / IZR (sumZ amounts))%R with 1%R in Herr by (field; lra).
  assert (Hn : (IZR (Z.of_nat (length amounts)) <= 4194304)%R).
  { change 4194304%R with (IZR (2 ^ 22)). apply IZR_le. lia. }
  pose proof (bpow_pos (-53)) as Hu.
  eapply Rle_trans; [exact Herr|]. nra.
Qed.

(** C5 (as the code has it).  [processRatios] takes the all-integer branch
    exactly when every converted ratio is an integer, and then divides each
    by their raw left-to-right sum; any other vector comes back unchanged,
    so that it passes the tolerance test exactly when the input does.  For
    ratios that read as non-negative integers with a non-zero sum below
    [2^53], at most [2^22] of them, the weights pass the test
    [Math.abs(sum - 1) <= 1e-9], the sum being taken left to right in
    binary64; a single non-zero integer weight becomes exactly 1. *)
Theorem processRatios_normalizes Number ratios :
  (Forall (λ r, JS.isInteger (Number r) = true) ratios →
   processRatios Number ratios
   = map (λ num, (num / sumOf (map Number ratios))%float) (map Number ratios))
  ∧ (¬ Forall (λ r, JS.isInteger (Number r) = true) ratios →
     processRatios Number ratios = map Number ratios
     ∧ sumsToOne (processRatios Number ratios) = sumsToOne (map Number ratios))
  ∧ (∀ r, ratios = [r] → JS.isInteger (Number r) = true →
          (Number r =? 0)%float = false →
          processRatios Number ratios = [1%float])
  ∧ (∀ amounts,
       map Number ratios = map JS.ofZ amounts →
       Forall (λ a, 0 <= a) amounts →
       0 < sumZ amounts < 2 ^ 53 →
       Z.of_nat (length ratios) <= 2 ^ 22 →
       sumsToOne (processRatios Number ratios) = true).
Proof.
  assert (Hall : forallb JS.isInteger (map Number ratios) = true
                 ↔ Forall (λ r, JS.isInteger (Number r) = true) ratios).
  { rewrite forallb_forall, Forall_forall. split.
    - intros H r Hr. apply H, in_map, list_elem_of_In, Hr.
    - intros H x Hx. apply in_map_iff in Hx as (r & <- & Hr).
      apply H, list_elem_of_In, Hr. }
  split; [|split; [|split]].
  - intros H. apply Hall in H. unfold processRatios. rewrite H. reflexivity.
  - intros H.
    assert (E : processRatios Number ratios = map Number ratios).
    { unfold processRatios.
      destruct (forallb JS.isInteger (map Number ratios)) eqn:E; [|reflexivity].
      exfalso. apply H, Hall. reflexivity. }
    split; [exact E|]. by rewrite E.
  - intros r -> Hint Hnz. by apply processRatios_single.
  - intros amounts Hnum Hpos Hsum Hlen.
    exact (proj2 (integer_weights_sum_to_one Number ratios amounts Hnum Hpos Hsum Hlen)).
Qed.

(** C6.  [GET /aggregate/pnl] aggregates over the 30-day interval whatever
    [interval] the query carries, and reports
    [(last - first) / first * 100] of the first and last elements of the
    aggregated series. *)
Theorem pnl_over_long_interval
    Number alchemy query env w first rest lastPoint w' :
  JS.truthy (symbols query) = true →
  JS.truthy (ratios query) = true →
  length (JS.split "," (default "" (symbols query)))
  = length (JS.split "," (default "" (ratios query))) →
  getWeightedPrices alchemy (JS.split "," (default "" (symbols query)))
    (processRatios Number (JS.split "," (default "" (ratios query)))) I30d env w
  = (Ok (first :: rest), w') →
  last (first :: rest) = Some lastPoint →
  ∀ requested,
    pnlRoute Number alchemy
      {| symbols := symbols query; ratios := ratios query; interval := requested |} env w
    = (Ok {| status := 200;
             body := PnlJson ((value lastPoint - value first) / value first * 100)%float
                       (value first) (value lastPoint)
                       (timestamp first) (timestamp lastPoint) |}, w').
Proof.
  intros Hs Hr Hlen Hg Hlast requested.
  rewrite pnlRoute_accepted by done. cbn [symbols ratios].
  unfold catch. rewrite (bind_ok _ _ _ _ _ Hg).
  unfold percentChange, lift, bind, respond, ret. rewrite Hlast. reflexivity.
Qed.

(** C9.  A query whose symbol and ratio lists differ in length is refused
    with status 400 by both aggregate routes, and the world is left as it
    was: no cache read, no upstream request, no cache write. *)
Theorem count_mismatch_rejected_before_loading Number alchemy query env w :
  JS.truthy (symbols query) = true →
  JS.truthy (ratios query) = true →
  length (JS.split "," (default "" (symbols query)))
  ≠ length (JS.split "," (default "" (ratios query))) →
  aggregateRoute Number alchemy query env w
  = (Ok {| status := 400;
           body := Text "Number of symbols must match number of ratios" |}, w)
  ∧ pnlRoute Number alchemy query env w
    = (Ok {| status := 400;
             body := Text "Number of symbols must match number of ratios" |}, w).
Proof.
  intros Hs Hr Hlen. unfold aggregateRoute, pnlRoute.
  rewrite Hs, Hr, processRatios_length.
  apply Nat.eqb_neq in Hlen. rewrite Hlen. split; reflexivity.
Qed.

(** ** Minimum and maximum of the instants of a series *)

Lemma max_finite (l : list Z) :
  l ≠ [] →
  ∃ t, JS.max (map JS.Finite l) = JS.Finite t ∧ Forall (λ x, x <= t) l ∧ t ∈ l.
Proof.
  induction l as [|x l IH]; [done|]. intros _. destruct l as [|y l].
  - exists x. simpl. split; [done|]. split; [constructor; [lia|done]|left].
  - destruct IH as (t & Ht & Hall & Hin); [done|].
    change (JS.max (map JS.Finite (x :: y :: l)))
      with (JS.max2 (JS.Finite x) (JS.max (map JS.Finite (y :: l)))).
    rewrite Ht. unfold JS.max2, JS.leb. destruct (Z.leb_spec x t).
    + exists t. split; [done|]. split; [constructor; [lia|done]|by right].
    + exists x. split; [done|]. split; [|left].
      constructor; [lia|]. eapply Forall_impl; [exact Hall|]. simpl. intros. lia.
Qed.


(** ** The batch snapshot *)

Lemma lowerChar_idemp c : JS.lowerChar (JS.lowerChar c) = JS.lowerChar c.
Proof. destruct c as [[] [] [] [] [] [] [] []]; reflexivity. Qed.

Lemma toLowerCase_idemp s : JS.toLowerCase (JS.toLowerCase s) = JS.toLowerCase s.
Proof. induction s as [|c s IH]; simpl; [done|]. by rewrite lowerChar_idemp, IH. Qed.

Lemma assign_lookup acc e key :
  assign acc e !! key
  = if decide (JS.toLowerCase e.1 = key ∧ key ≠ "__proto__") then Some (value e.2)
    else acc !! key.
Proof.
  unfold assign. cbv zeta.
  destruct (String.eqb_spec (JS.toLowerCase e.1) "__proto__") as [Hp|Hp].
  - case_decide as Hk; [|done]. destruct Hk as [<- Hk]. done.
  - case_decide as Hk.
    + destruct Hk as [<- _]. apply lookup_insert_eq.
    + apply lookup_insert_ne. intros <-. apply Hk. done.
Qed.

Lemma assign_untouched entries acc key :
  Forall (λ e : string * Point, JS.toLowerCase e.1 ≠ key) entries →
  foldl assign acc entries !! key = acc !! key.
Proof.
  revert acc. induction entries as [|e entries IH]; intros acc Hall; [done|].
  apply Forall_cons in Hall as [He Hall]. simpl.
  rewrite IH by done. rewrite assign_lookup. case_decide as Hk; [|done].
  by destruct Hk.
Qed.

(** No assignment creates the key [__proto__]. *)
Lemma assign_proto entries acc :
  foldl assign acc entries !! "__proto__" = acc !! "__proto__".
Proof.
  revert acc. induction entries as [|e entries IH]; intros acc; [done|].
  simpl. rewrite IH, assign_lookup. case_decide as Hk; [|done]. by destruct Hk.
Qed.

Lemma assign_last_wins entries acc idx e :
  entries !! idx = Some e →
  JS.toLowerCase e.1 ≠ "__proto__" →
  (∀ j e', (idx < j)%nat → entries !! j = Some e' →
           JS.toLowerCase e'.1 ≠ JS.toLowerCase e.1) →
  foldl assign acc entries !! JS.toLowerCase e.1 = Some (value e.2).
Proof.
  revert acc idx. induction entries as [|x entries IH]; intros acc idx Hidx Hp Hlater; [done|].
  destruct idx as [|idx]; simpl in *.
  - injection Hidx as ->. rewrite assign_untouched.
    + rewrite assign_lookup. by rewrite decide_True.
    + apply Forall_forall. intros e' He'.
      apply list_elem_of_lookup in He' as [j Hj].
      apply (Hlater (S j) e'); [lia|exact Hj].
  - apply IH with idx; [exact Hidx|exact Hp|].
    intros j e' Hj He'. apply (Hlater (S j) e'); [lia|exact He'].
Qed.

Lemma assign_keys entries acc key v :
  foldl assign acc entries !! key = Some v →
  acc !! key = Some v
  ∨ (key ≠ "__proto__" ∧ ∃ e, e ∈ entries ∧ key = JS.toLowerCase e.1).
Proof.
  revert acc. induction entries as [|x entries IH]; intros acc H; [by left|].
  simpl in H. apply IH in H as [H|(Hp & e & He & ->)].
  - rewrite assign_lookup in H. case_decide as Hk.
    + destruct Hk as [<- Hk]. right. split; [done|]. exists x. split; [left|done].
    + by left.
  - right. split; [done|]. exists e. split; [by right|done].
Qed.

(** The date test of the snapshot, for the last points of the series. *)
Lemma latest_valid priceDataList latest :
  Forall2 (λ d point, last (data d) = Some point) priceDataList latest →
  Forall (λ d, ∀ point, last (data d) = Some point → JS.validTime (timestamp point))
    priceDataList →
  forallb (λ point, JS.validTimeb (timestamp point)) latest = true.
Proof.
  induction 1 as [|d p l ps Hp Hl IH]; intros Hv; [done|].
  apply Forall_cons in Hv as [Hd Hv]. simpl. apply andb_true_intro. split.
  - apply Z.leb_le. exact (Hd p Hp).
  - by apply IH.
Qed.

Lemma latestPoints_spec priceDataList :
  Forall (λ d, data d ≠ []) priceDataList →
  ∃ latest, latestPoints priceDataList = Ok latest
            ∧ Forall2 (λ d point, last (data d) = Some point) priceDataList latest.
Proof.
  induction 1 as [|d l Hd Hl (latest & Hlat & Hall)].
  - exists []. split; [done|constructor].
  - destruct (last (data d)) as [p|] eqn:Ep.
    + exists (p :: latest). unfold latestPoints in *. simpl. rewrite Ep. simpl.
      rewrite Hlat. simpl. split; [done|]. by constructor.
    + apply last_None in Ep. done.
Qed.

Lemma mapM_length {A B} (f : A → M B) l w out w' :
  mapM f l w = (Ok out, w') → length out = length l.
Proof.
  revert w out w'. induction l as [|x l IH]; intros w out w' H.
  - injection H as <- _. done.
  - simpl in H. unfold bind in H. destruct (f x w) as [[y| |] w1]; try discriminate.
    destruct (mapM f l w1) as [[ys| |] w2] eqn:E; try discriminate.
    injection H as <- _. simpl. f_equal. eapply IH, E.
Qed.

(** C7 (as the code has it).  For symbols written in ASCII and non-empty
    series whose last points carry dates that parse, the snapshot's
    [timestamp] is the greatest of the timestamps of the series' last
    elements, every key of [values] is the lower-cased form of a requested
    symbol and is not [__proto__], and the key of a symbol other than
    [__proto__] holds the value of the last element of that symbol's series
    unless a later symbol of the list has the same lower-cased form (the
    later assignment then overwrites the entry).  The object never has a
    key [__proto__]. *)
Theorem batch_snapshot_latest alchemy query env w i priceDataList w' :
  JS.truthy (symbols query) = true →
  JS.isAscii (default "" (symbols query)) = true →
  isValidInterval (intervalOrDefault query) = Some i →
  loadAll alchemy (JS.split "," (default "" (symbols query))) i env w
  = (Ok priceDataList, w') →
  Forall (λ d, data d ≠ []) priceDataList →
  Forall (λ d, ∀ point, last (data d) = Some point → JS.validTime (timestamp point))
    priceDataList →
  ∃ values latestTimestamp latest,
    batchRoute alchemy query env w
    = (Ok {| status := 200; body := BatchJson values latestTimestamp |}, w')
    ∧ Forall2 (λ d point, last (data d) = Some point) priceDataList latest
    ∧ Forall (λ point, timestamp point <= latestTimestamp) latest
    ∧ (∃ point, point ∈ latest ∧ timestamp point = latestTimestamp)
    ∧ (∀ key v, values !! key = Some v →
         JS.toLowerCase key = key
         ∧ key ≠ "__proto__"
         ∧ ∃ sym, sym ∈ JS.split "," (default "" (symbols query))
                  ∧ key = JS.toLowerCase sym)
    ∧ values !! "__proto__" = None
    ∧ (∀ idx sym point,
         lastWithKey (JS.split "," (default "" (symbols query))) idx sym →
         JS.toLowerCase sym ≠ "__proto__" →
         latest !! idx = Some point →
         values !! JS.toLowerCase sym = Some (value point)).
Proof.
  intros Hs _ Hi Hload Hne Hvalid.
  set (symbolList := JS.split "," (default "" (symbols query))) in *.
  destruct (latestPoints_spec _ Hne) as (latest & Hlat & Hall).
  assert (Hlen : length latest = length symbolList).
  { rewrite <- (Forall2_length _ _ _ Hall). eapply mapM_length, Hload. }
  assert (Hnonempty : map timestamp latest ≠ []).
  { pose proof (split_nonempty "," (default "" (symbols query))) as Hsp.
    fold symbolList in Hsp. destruct latest; [|done]. by destruct symbolList. }
  destruct (max_finite _ Hnonempty) as (t & Ht & Hmax & Hin).
  rewrite map_map in Ht.
  exists (batchValues symbolList latest), t, latest.
  split; [|split; [exact Hall|split; [|split; [|split; [|split]]]]].
  - unfold batchRoute. rewrite Hs, Hi. cbn [negb]. fold symbolList.
    unfold catch. rewrite (bind_ok _ _ _ _ _ Hload).
    unfold snapshot, lift, bind, respond, ret. rewrite Hlat. cbn [rbind].
    rewrite (latest_valid _ _ Hall Hvalid), Ht. reflexivity.
  - rewrite Forall_fmap in Hmax. exact Hmax.
  - apply list_elem_of_fmap in Hin as (p & -> & Hp). eauto.
  - intros key v Hkey. unfold batchValues in Hkey.
    apply (assign_keys _ ∅) in Hkey as [Hkey|(Hp & e & He & ->)];
      [by rewrite lookup_empty in Hkey|].
    split; [apply toLowerCase_idemp|]. split; [exact Hp|].
    exists e.1. split; [|done].
    apply list_elem_of_lookup in He as [j Hj].
    apply lookup_zip_with_Some in Hj as (s & p & -> & Hsj & _).
    apply list_elem_of_lookup. eauto.
  - unfold batchValues. by rewrite assign_proto, lookup_empty.
  - intros idx sym point [Hidx Hlater] Hp Hpoint. unfold batchValues.
    apply (assign_last_wins (zip symbolList latest) ∅ idx (sym, point)).
    + apply lookup_zip_with_Some. eauto.
    + exact Hp.
    + intros j e' Hj He'. apply lookup_zip_with_Some in He' as (s & p & -> & Hsj & _).
      simpl. by apply (Hlater j).
Qed.

(** ** One symbol with unit weight *)







(** ** The cache only holds non-empty series *)

Lemma keeps_ret {A} (a : A) (Q : A → Prop) : Q a → keeps (ret a) Q.
Proof. intros H w Hw. split; [done|]. intros a' [= <-]. done. Qed.

Lemma keeps_throw {A} e (Q : A → Prop) : keeps (throw e) Q.
Proof. intros w Hw. split; [done|]. intros a' [=]. Qed.

Lemma keeps_lift {A} (r : Result A) : keeps (lift r) (λ _, True).
Proof. intros w Hw. split; done. Qed.

Lemma keeps_bind {A B} (c : M A) (k : A → M B) (P : A → Prop) (Q : B → Prop) :
  keeps c P → (∀ a, P a → keeps (k a) Q) → keeps (bind c k) Q.
Proof.
  intros Hc Hk w Hw. destruct (Hc w Hw) as [Hw1 Ha]. unfold bind.
  destruct (c w) as [[a| |] w1]; simpl in *; [|split; [done|by intros ? [=]]..].
  apply (Hk a (Ha a eq_refl) w1 Hw1).
Qed.

Lemma keeps_catch {A} (c : M A) (h : Error → M A) (Q : A → Prop) :
  keeps c Q → (∀ e, keeps (h e) Q) → keeps (catch c h) Q.
Proof.
  intros Hc Hh w Hw. destruct (Hc w Hw) as [Hw1 Ha]. unfold catch.
  destruct (c w) as [[a| |] w1]; simpl in *; [done| |split; [done|by intros ? [=]]].
  apply (Hh e w1 Hw1).
Qed.

Lemma keeps_weaken {A} (c : M A) (P Q : A → Prop) :
  keeps c P → (∀ a, P a → Q a) → keeps c Q.
Proof. intros Hc HPQ w Hw. destruct (Hc w Hw) as [? Ha]. split; [done|]. auto. Qed.

Lemma keeps_mapM {A B} (f : A → M B) l (P : B → Prop) :
  (∀ x, keeps (f x) P) → keeps (mapM f l) (Forall P).
Proof.
  intros Hf. induction l as [|x l IH]; simpl.
  - apply keeps_ret. constructor.
  - eapply keeps_bind; [apply Hf|]. intros y Hy.
    eapply keeps_bind; [apply IH|]. intros ys Hys.
    apply keeps_ret. by constructor.
Qed.

Lemma keeps_getCachedPrice sym i env :
  keeps (getCachedPrice sym i env) (λ cached, ∀ d, cached = Some d → data d ≠ []).
Proof.
  unfold getCachedPrice. destruct (PRICE_CACHE env); simpl; [|apply keeps_throw].
  intros w Hw. split; [exact Hw|]. simpl. intros cached [= <-] d Hd. by apply Hw in Hd.
Qed.

(** The only writer: the series it stores has passed the emptiness test of
    the fetch. *)
Lemma keeps_setCachedPrice sym i d env :
  data d ≠ [] → keeps (setCachedPrice sym i d env) (λ _, True).
Proof.
  intros Hd. unfold setCachedPrice. destruct (PRICE_CACHE env); simpl negb; cbv iota;
    [|apply keeps_throw].
  generalize (generateCacheKey sym i). intros cacheKey.
  intros w Hw. split; [|done]. intros key d' Hlook. simpl in Hlook.
  destruct (decide (cacheKey = key)) as [<-|Hne].
  - rewrite lookup_insert_eq in Hlook. by injection Hlook as <-.
  - rewrite lookup_insert_ne in Hlook by done. by apply Hw in Hlook.
Qed.

Lemma keeps_fetchPriceFromAlchemy alchemy sym i env :
  keeps (fetchPriceFromAlchemy alchemy sym i env) (λ d, data d ≠ []).
Proof.
  unfold fetchPriceFromAlchemy.
  destruct (JS.truthy (ALCHEMY_API_KEY env)); simpl; [|apply keeps_throw].
  intros w Hw. unfold bind, emit.
  destruct (alchemy (trace w) sym (getTimeRangeAndInterval (now w) i))
    as [st txt details|s c [[|p pts]|]]; simpl; split; try done; try (by intros ? [=]).
  intros a [= <-]. done.
Qed.

Lemma keeps_loadPrice alchemy sym i env :
  keeps (loadPrice alchemy sym i env) (λ d, data d ≠ []).
Proof.
  unfold loadPrice. eapply keeps_bind; [apply keeps_getCachedPrice|].
  intros [d|] Hcached.
  - apply keeps_ret. by apply Hcached.
  - eapply keeps_bind; [apply keeps_fetchPriceFromAlchemy|]. intros d Hd.
    eapply keeps_bind; [by apply keeps_setCachedPrice|]. intros _ _.
    by apply keeps_ret.
Qed.

Lemma keeps_loadAll alchemy symbolList i env :
  keeps (loadAll alchemy symbolList i env) (λ _, True).
Proof.
  unfold loadAll. eapply keeps_weaken; [|done].
  apply keeps_mapM. intros sym. apply keeps_loadPrice.
Qed.

Lemma keeps_respond st b : keeps (respond st b) (λ _, True).
Proof. by apply keeps_ret. Qed.

Lemma keeps_getWeightedPrices alchemy symbolList ratioList i env :
  keeps (getWeightedPrices alchemy symbolList ratioList i env) (λ _, True).
Proof.
  unfold getWeightedPrices. eapply keeps_bind; [apply keeps_loadAll|].
  intros. apply keeps_lift.
Qed.

Lemma keeps_world {A} (c : M A) (Q : A → Prop) w :
  keeps c Q → nonEmptyStore w → nonEmptyStore (c w).2.
Proof. intros Hc Hw. apply (Hc w Hw). Qed.

Lemma keeps_call Number alchemy c env w :
  nonEmptyStore w → nonEmptyStore (after Number alchemy c env w).
Proof.
  intros Hw. destruct c as [sym q|q|q|q|]; simpl.
  - apply (keeps_world (priceRoute alchemy sym q env) (λ _, True)); [|exact Hw].
    unfold priceRoute. destruct (isValidInterval _); [|apply keeps_respond].
    apply keeps_catch; [|intros; apply keeps_respond].
    eapply keeps_bind; [apply keeps_loadPrice|]. intros. apply keeps_respond.
  - apply (keeps_world (aggregateRoute Number alchemy q env) (λ _, True)); [|exact Hw].
    unfold aggregateRoute.
    destruct (_ || _); [apply keeps_respond|].
    destruct (negb _); [apply keeps_respond|].
    destruct (isValidInterval _); [|apply keeps_respond].
    apply keeps_catch; [|intros; apply keeps_respond].
    eapply keeps_bind; [apply keeps_getWeightedPrices|]. intros. apply keeps_respond.
  - apply (keeps_world (pnlRoute Number alchemy q env) (λ _, True)); [|exact Hw].
    unfold pnlRoute.
    destruct (_ || _); [apply keeps_respond|].
    destruct (negb _); [apply keeps_respond|].
    apply keeps_catch; [|intros; apply keeps_respond].
    eapply keeps_bind; [apply keeps_getWeightedPrices|]. intros.
    eapply keeps_bind; [apply keeps_lift|]. intros. apply keeps_respond.
  - apply (keeps_world (batchRoute alchemy q env) (λ _, True)); [|exact Hw].
    unfold batchRoute.
    destruct (negb _); [apply keeps_respond|].
    destruct (isValidInterval _); [|apply keeps_respond].
    apply keeps_catch; [|intros; apply keeps_respond].
    eapply keeps_bind; [apply keeps_loadAll|]. intros.
    eapply keeps_bind; [apply keeps_lift|]. intros. apply keeps_respond.
  - apply (keeps_world (scheduled alchemy env) (λ _, True)); [|exact Hw].
    unfold scheduled. eapply keeps_bind; [|intros; by apply keeps_ret].
    apply keeps_mapM with (P := λ _, True). intros sym.
    apply keeps_catch; [|intros; by apply keeps_ret].
    eapply keeps_bind; [apply keeps_fetchPriceFromAlchemy|]. intros d Hd.
    by apply keeps_setCachedPrice.
Qed.

Lemma reachable_nonEmptyStore Number alchemy env w :
  reachable Number alchemy env w → nonEmptyStore w.
Proof.
  induction 1 as [w Hw|w c _ IH|w t _ IH|w key _ IH].
  - intros key d. rewrite Hw, lookup_empty. done.
  - by apply keeps_call.
  - exact IH.
  - intros k d. simpl. intros Hd. apply lookup_delete_Some in Hd as [_ Hd]. by apply IH in Hd.
Qed.

(** C10.  In every world the worker can reach from an empty cache, all
    cached series are non-empty: a cache hit yields a series with at least
    one point, and the "no data in range" failure of a load only happens
    when the key is absent from the cache, that is, on the fetch path. *)
Theorem cached_series_nonempty Number alchemy env w :
  reachable Number alchemy env w →
  nonEmptyStore w
  ∧ (∀ sym i d w',
       getCachedPrice sym i env w = (Ok (Some d), w') → data d ≠ [])
  ∧ (∀ sym i failed w',
       loadPrice alchemy sym i env w = (Throw (NoDataInRange failed), w') →
       store w !! generateCacheKey sym i = None).
Proof.
  intros Hreach. pose proof (reachable_nonEmptyStore _ _ _ _ Hreach) as Hinv.
  split; [exact Hinv|split].
  - intros sym i d w' Hget.
    destruct (keeps_getCachedPrice sym i env w Hinv) as [_ Hres].
    rewrite Hget in Hres. by apply (Hres (Some d) eq_refl).
  - intros sym i failed w' Hfail. unfold loadPrice, getCachedPrice in Hfail.
    destruct (PRICE_CACHE env); simpl in Hfail; [|discriminate].
    unfold bind, emit in Hfail. simpl in Hfail.
    destruct (store w !! generateCacheKey sym i); [discriminate|done].
Qed.

(** ** The claims on the sample data *)

(** C1, counterexample.  The series "A" over [0, 10] and "B" over [20, 30]
    have no common window, yet [getWeightedPrices] throws nothing and the
    route answers 200 with an empty list. *)
Lemma no_overlap_is_not_an_error :
  (loadAll Sample.alchemy ["A"; "B"] I24h Sample.env Sample.start).1
  = Ok [Sample.priceData "A" Sample.seriesA; Sample.priceData "B" Sample.seriesB]
  ∧ commonStart [Sample.priceData "A" Sample.seriesA; Sample.priceData "B" Sample.seriesB]
    = JS.Finite 20
  ∧ commonEnd [Sample.priceData "A" Sample.seriesA; Sample.priceData "B" Sample.seriesB]
    = JS.Finite 10
  ∧ (getWeightedPrices Sample.alchemy ["A"; "B"]
       (processRatios JS.decimal ["0.5"; "0.5"]) I24h Sample.env Sample.start).1
    = Ok []
  ∧ (∀ e, (getWeightedPrices Sample.alchemy ["A"; "B"]
             (processRatios JS.decimal ["0.5"; "0.5"]) I24h Sample.env Sample.start).1
          ≠ Throw e)
  ∧ (aggregateRoute JS.decimal Sample.alchemy (Sample.query "A,B" "0.5,0.5")
       Sample.env Sample.start).1
    = Ok {| status := 200; body := AggregateJson [] I24h |}.
Proof.
  repeat split; try (vm_compute; reflexivity).
  intros e E. vm_compute in E. discriminate.
Qed.

Lemma no_overlap_gives_empty_series_witness :
  JS.leb (commonStart [Sample.priceData "A" Sample.seriesA; Sample.priceData "B" Sample.seriesB])
    (commonEnd [Sample.priceData "A" Sample.seriesA; Sample.priceData "B" Sample.seriesB])
  = false
  ∧ aggregateRoute JS.decimal Sample.alchemy (Sample.query "A,B" "0.5,0.5")
      Sample.env Sample.start
    = (Ok {| status := 200; body := AggregateJson [] I24h |},
       (loadAll Sample.alchemy ["A"; "B"] I24h Sample.env Sample.start).2).
Proof.
  split; [reflexivity|].
  refine (proj2 (no_overlap_gives_empty_series JS.decimal Sample.alchemy
                   (Sample.query "A,B" "0.5,0.5") Sample.env Sample.start I24h
                   [Sample.priceData "A" Sample.seriesA; Sample.priceData "B" Sample.seriesB]
                   _ _ _ _ _ _ _)); vm_compute; reflexivity.
Defined.

(** C2, counterexample.  "W" fixes the window to [600000, 1200000]; "K" has
    points at 800000 (100) and 1000000 (200) inside it.  At the instants
    600000 and 1200000, outside K's points, the values used are 0 and 300,
    not the boundary values 100 and 200. *)
Lemma outside_points_are_not_clamped :
  commonStart [Sample.priceData "W" Sample.seriesW; Sample.priceData "K" Sample.seriesK]
  = JS.Finite 600000
  ∧ commonEnd [Sample.priceData "W" Sample.seriesW; Sample.priceData "K" Sample.seriesK]
    = JS.Finite 1200000
  ∧ availablePrices (priceMap (Sample.priceData "K" Sample.seriesK))
      (JS.Finite 600000) (JS.Finite 1200000)
    = [(800000, 100%float); (1000000, 200%float)]
  ∧ interpolatedValue "K" (priceMap (Sample.priceData "K" Sample.seriesK))
      (JS.Finite 600000) (JS.Finite 1200000) 600000 = Ok 0%float
  ∧ interpolatedValue "K" (priceMap (Sample.priceData "K" Sample.seriesK))
      (JS.Finite 600000) (JS.Finite 1200000) 1200000 = Ok 300%float
  ∧ (aggregateRoute JS.decimal Sample.alchemy (Sample.query "W,K" "0.5,0.5")
       Sample.env Sample.start).1
    = Ok {| status := 200;
            body := AggregateJson
                      [{| timestamp := 600000; value := 5 |};
                       {| timestamp := 900000; value := 80 |};
                       {| timestamp := 1200000; value := 155 |}] I24h |}.
Proof. repeat split; vm_compute; reflexivity. Qed.

Lemma outside_points_extrapolates_witness :
  600000 < 800000
  ∧ interpolatedValue "K" (priceMap (Sample.priceData "K" Sample.seriesK))
      (JS.Finite 600000) (JS.Finite 1200000) 600000
    = Ok (100 + (200 - 100) * (JS.ofZ (600000 - 800000) / JS.ofZ (1000000 - 800000)))%float.
Proof.
  split; [lia|].
  refine (outside_points_extrapolates "K" (priceMap (Sample.priceData "K" Sample.seriesK))
            (JS.Finite 600000) (JS.Finite 1200000) 600000
            (800000, 100%float) [(1000000, 200%float)] (1000000, 200%float) _ _ _).
  - vm_compute. reflexivity.
  - reflexivity.
  - left. simpl. lia.
Defined.

(** C3, counterexample.  The series "Z" starts at price 0; the route answers
    200 with an infinite [pnl], sent as [null]. *)
Lemma zero_baseline_is_not_an_error :
  (getWeightedPrices Sample.alchemy ["Z"] (processRatios JS.decimal ["1"]) I30d
     Sample.env Sample.start).1
  = Ok [{| timestamp := 0; value := 0 |}; {| timestamp := 86400000; value := 5 |}]
  ∧ (pnlRoute JS.decimal Sample.alchemy (Sample.query "Z" "1") Sample.env Sample.start).1
    = Ok {| status := 200; body := PnlJson infinity 0 5 0 86400000 |}
  ∧ pnlField (PnlJson infinity 0 5 0 86400000) = Some None.
Proof. repeat split; vm_compute; reflexivity. Qed.

Lemma zero_baseline_gives_nonfinite_pnl_witness :
  pnlRoute JS.decimal Sample.alchemy (Sample.query "Z" "1") Sample.env Sample.start
  = (Ok {| status := 200;
           body := PnlJson ((5 - 0) / 0 * 100)%float 0 5 0 86400000 |},
     (loadAll Sample.alchemy ["Z"] I30d Sample.env Sample.start).2)
  ∧ is_finite ((5 - 0) / 0 * 100)%float = false
  ∧ (∀ response,
       (pnlRoute JS.decimal Sample.alchemy (Sample.query "Z" "1") Sample.env
          Sample.start).1 = Ok response →
       status response = 200 ∧ pnlField (body response) = Some None).
Proof.
  refine (zero_baseline_gives_nonfinite_pnl JS.decimal Sample.alchemy
            (Sample.query "Z" "1") Sample.env Sample.start
            {| timestamp := 0; value := 0 |} [{| timestamp := 86400000; value := 5 |}]
            {| timestamp := 86400000; value := 5 |}
            _ _ _ _ _ _ _); vm_compute; reflexivity.
Defined.

(** C4, counterexample.  The series "L" has the known points (0, 0.03) and
    (300000, 0.3).  At the instant 300000 the interpolated value is
    [0.03 + (0.3 - 0.03)], which is 0.30000000000000004 and not 0.3. *)
Lemma known_point_is_not_reproduced :
  availablePrices (priceMap (Sample.priceData "L" Sample.seriesL))
    (JS.Finite 0) (JS.Finite 300000)
  = [(0, JS.decimal "0.03"); (300000, JS.decimal "0.3")]
  ∧ interpolatedValue "L" (priceMap (Sample.priceData "L" Sample.seriesL))
      (JS.Finite 0) (JS.Finite 300000) 300000
    = Ok (JS.decimal "0.03" + (JS.decimal "0.3" - JS.decimal "0.03"))%float
  ∧ (JS.decimal "0.03" + (JS.decimal "0.3" - JS.decimal "0.03") =? JS.decimal "0.3")%float
    = false
  ∧ (JS.decimal "0.03" + (JS.decimal "0.3" - JS.decimal "0.03"))%float ≠ JS.decimal "0.3".
Proof.
  repeat split; try (vm_compute; reflexivity).
  intros E. apply (f_equal Prim2SF) in E. vm_compute in E. discriminate.
Qed.

Lemma known_point_interpolation_witness :
  Forall (λ point, JS.validTime (timestamp point)) Sample.seriesL
  ∧ interpolatedValue "L" (priceMap (Sample.priceData "L" Sample.seriesL))
      (JS.Finite 0) (JS.Finite 300000) 0
    = Ok (JS.decimal "0.03")
  ∧ interpolatedValue "L" (priceMap (Sample.priceData "L" Sample.seriesL))
      (JS.Finite 0) (JS.Finite 300000) 300000
    = Ok (JS.decimal "0.03" + (JS.decimal "0.3" - JS.decimal "0.03"))%float.
Proof.
  assert (Hvalid : Forall (λ point, JS.validTime (timestamp point)) Sample.seriesL).
  { repeat constructor; unfold JS.validTime; simpl; lia. }
  pose proof (known_point_interpolation "L" (Sample.priceData "L" Sample.seriesL)
                (JS.Finite 0) (JS.Finite 300000) Hvalid) as [Hfirst Hlater].
  split; [exact Hvalid|split].
  - refine (Hfirst (0, JS.decimal "0.03") [(300000, JS.decimal "0.3")] _ _ _).
    + vm_compute. reflexivity.
    + vm_compute. reflexivity.
    + intros E. apply (f_equal Prim2SF) in E. vm_compute in E. discriminate.
  - refine (Hlater [] (0, JS.decimal "0.03") (300000, JS.decimal "0.3") [] _).
    vm_compute. reflexivity.
Defined.

(** C5, counterexample.  The ratios "0,0" are non-negative integers; their
    normalized weights are [NaN], and the sum is not within 1e-9 of 1.  Two
    ratios that read as the largest binary64 number, an integer, have the
    sum [Infinity]: the weights are 0 and sum to 0. *)
Lemma zero_weights_do_not_sum_to_one :
  forallb JS.isInteger (map JS.decimal ["0"; "0"]) = true
  ∧ forallb (λ x, (0 <=? x)%float) (map JS.decimal ["0"; "0"]) = true
  ∧ processRatios JS.decimal ["0"; "0"] = [nan; nan]
  ∧ sumsToOne (processRatios JS.decimal ["0"; "0"]) = false
  ∧ JS.isInteger Fixture.largest = true
  ∧ processRatios (λ _, Fixture.largest) ["a"; "b"] = [0%float; 0%float]
  ∧ sumsToOne (processRatios (λ _, Fixture.largest) ["a"; "b"]) = false.
Proof. repeat split; vm_compute; reflexivity. Qed.

(** C5, witness: the percentages 60 and 40. *)
Lemma processRatios_normalizes_witness :
  map JS.decimal ["60"; "40"] = map JS.ofZ [60; 40]
  ∧ sumsToOne (processRatios JS.decimal ["60"; "40"]) = true.
Proof.
  assert (Hnum : map JS.decimal ["60"; "40"] = map JS.ofZ [60; 40])
    by (vm_compute; reflexivity).
  split; [exact Hnum|].
  destruct (processRatios_normalizes JS.decimal ["60"; "40"]) as (_ & _ & _ & Hsum).
  apply (Hsum [60; 40] Hnum).
  - repeat constructor; lia.
  - vm_compute. split; reflexivity.
  - vm_compute. discriminate.
Defined.

(** C6, witness: "P" goes from 100 to 110 over two days; a query that asks
    for the 24h interval gets the 30-day figure all the same. *)
Lemma pnl_over_long_interval_witness :
  pnlRoute JS.decimal Sample.alchemy
    {| symbols := Some "P"; ratios := Some "1"; interval := Some "24h" |}
    Sample.env Sample.start
  = (Ok {| status := 200;
           body := PnlJson ((110 - 100) / 100 * 100)%float 100 110 0 172800000 |},
     (loadAll Sample.alchemy ["P"] I30d Sample.env Sample.start).2).
Proof.
  refine (pnl_over_long_interval JS.decimal Sample.alchemy (Sample.query "P" "1")
            Sample.env Sample.start
            {| timestamp := 0; value := 100 |}
            [{| timestamp := 86400000; value := 104 |};
             {| timestamp := 172800000; value := 110 |}]
            {| timestamp := 172800000; value := 110 |}
            _ _ _ _ _ _ (Some "24h")); vm_compute; reflexivity.
Defined.

(** C7, counterexample.  "ETH" and "eth" are cached under different keys and
    have the last points (100, 10) and (90, 11).  Both are written to the
    key "eth": the snapshot holds 11 there, not the 10 of the series of
    "ETH". *)
Lemma colliding_symbols_share_a_key :
  (loadAll Sample.alchemy ["ETH"; "eth"] I24h Sample.env Sample.start).1
  = Ok [Sample.priceData "ETH" Sample.seriesETH; Sample.priceData "eth" Sample.serieseth]
  ∧ last Sample.seriesETH = Some (Sample.pt 100 "10")
  ∧ match (batchRoute Sample.alchemy (Sample.query "ETH,eth" "") Sample.env Sample.start).1 with
    | Ok {| status := 200; body := BatchJson values latestTimestamp |} =>
        latestTimestamp = 100
        ∧ values !! "eth" = Some 11%float
        ∧ values !! "ETH" = None
    | _ => False
    end.
Proof. repeat split; vm_compute; reflexivity. Qed.

Lemma batch_snapshot_latest_witness :
  Forall (λ d, data d ≠ [])
    [Sample.priceData "A" Sample.seriesA; Sample.priceData "B" Sample.seriesB]
  ∧ ∃ values latestTimestamp latest,
      batchRoute Sample.alchemy (Sample.query "A,B" "") Sample.env Sample.start
      = (Ok {| status := 200; body := BatchJson values latestTimestamp |},
         (loadAll Sample.alchemy ["A"; "B"] I24h Sample.env Sample.start).2)
      ∧ Forall2 (λ d point, last (data d) = Some point)
          [Sample.priceData "A" Sample.seriesA; Sample.priceData "B" Sample.seriesB] latest
      ∧ Forall (λ point, timestamp point <= latestTimestamp) latest
      ∧ (∃ point, point ∈ latest ∧ timestamp point = latestTimestamp)
      ∧ (∀ key v, values !! key = Some v →
           JS.toLowerCase key = key
           ∧ key ≠ "__proto__"
           ∧ ∃ sym, sym ∈ JS.split "," (default "" (symbols (Sample.query "A,B" "")))
                    ∧ key = JS.toLowerCase sym)
      ∧ values !! "__proto__" = None
      ∧ (∀ idx sym point,
           lastWithKey (JS.split "," (default "" (symbols (Sample.query "A,B" "")))) idx sym →
           JS.toLowerCase sym ≠ "__proto__" →
           latest !! idx = Some point →
           values !! JS.toLowerCase sym = Some (value point)).
Proof.
  assert (Hne : Forall (λ d, data d ≠ [])
                  [Sample.priceData "A" Sample.seriesA; Sample.priceData "B" Sample.seriesB]).
  { repeat constructor; discriminate. }
  assert (Hvalid : Forall (λ d, ∀ point, last (data d) = Some point →
                                         JS.validTime (timestamp point))
                     [Sample.priceData "A" Sample.seriesA;
                      Sample.priceData "B" Sample.seriesB]).
  { repeat constructor; intros point [= <-]; unfold JS.validTime; simpl; lia. }
  split; [exact Hne|].
  refine (batch_snapshot_latest Sample.alchemy (Sample.query "A,B" "") Sample.env
            Sample.start I24h _ _ _ _ _ _ Hne Hvalid); vm_compute; reflexivity.
Defined.

(** C9, witness: two symbols, one ratio. *)
Lemma count_mismatch_rejected_before_loading_witness :
  length (JS.split "," "A,B") ≠ length (JS.split "," "0.5")
  ∧ aggregateRoute JS.decimal Sample.alchemy (Sample.query "A,B" "0.5")
      Sample.env Sample.start
    = (Ok {| status := 400;
             body := Text "Number of symbols must match number of ratios" |}, Sample.start)
  ∧ pnlRoute JS.decimal Sample.alchemy (Sample.query "A,B" "0.5")
      Sample.env Sample.start
    = (Ok {| status := 400;
             body := Text "Number of symbols must match number of ratios" |}, Sample.start).
Proof.
  assert (Hlen : length (JS.split "," "A,B") ≠ length (JS.split "," "0.5"))
    by (vm_compute; lia).
  split; [exact Hlen|].
  exact (count_mismatch_rejected_before_loading JS.decimal Sample.alchemy
           (Sample.query "A,B" "0.5") Sample.env Sample.start eq_refl eq_refl Hlen).
Defined.

(** C10, witness: the world after one [GET /price/A] on an empty cache. *)
Lemma cached_series_nonempty_witness :
  reachable JS.decimal Sample.alchemy Sample.env
    (after JS.decimal Sample.alchemy (GetPrice "A" (Sample.query "" "")) Sample.env
       Sample.start)
  ∧ nonEmptyStore
      (after JS.decimal Sample.alchemy (GetPrice "A" (Sample.query "" "")) Sample.env
         Sample.start)
  ∧ store (after JS.decimal Sample.alchemy (GetPrice "A" (Sample.query "" "")) Sample.env
             Sample.start) !! generateCacheKey "A" I24h
    = Some (Sample.priceData "A" Sample.seriesA).
Proof.
  assert (Hreach : reachable JS.decimal Sample.alchemy Sample.env
                     (after JS.decimal Sample.alchemy (GetPrice "A" (Sample.query "" ""))
                        Sample.env Sample.start)).
  { apply reach_call, reach_start. reflexivity. }
  split; [exact Hreach|split].
  - exact (proj1 (cached_series_nonempty JS.decimal Sample.alchemy Sample.env _ Hreach)).
  - vm_compute. reflexivity.
Defined.

(** * Further properties of the worker *)

(** ** Intervals, cache keys and the requested window *)

(** X1.  [isValidInterval] accepts exactly the three interval names, and
    gives back the interval that is named. *)
Theorem isValidInterval_exact s i :
  isValidInterval s = Some i ↔ s = intervalName i.
Proof.
  unfold isValidInterval. split.
  - destruct (String.eqb_spec s "24h") as [->|_]; [by intros [= <-]|].
    destruct (String.eqb_spec s "7d") as [->|_]; [by intros [= <-]|].
    destruct (String.eqb_spec s "30d") as [->|_]; [by intros [= <-]|done].
  - intros ->. by destruct i.
Qed.

Lemma cache_key_suffix s s' i i' :
  (s +:+ ":" +:+ intervalName i = s' +:+ ":" +:+ intervalName i')%string →
  s = s' ∧ i = i'.
Proof.
  revert s'. induction s as [|c s IH]; intros [|c' s'] H.
  - destruct i, i'; try discriminate; done.
  - exfalso. simpl in H. injection H as <- H.
    destruct i; destruct s' as [|? [|? [|? [|? ?]]]]; simpl in H; try discriminate;
      destruct i'; discriminate.
  - exfalso. simpl in H. injection H as -> H.
    destruct i'; destruct s as [|? [|? [|? [|? ?]]]]; simpl in H; try discriminate;
      destruct i; discriminate.
  - simpl in H. injection H as <- H. destruct (IH _ H) as [-> ->]. done.
Qed.

Lemma generateCacheKey_injective_pair sym i sym' i' :
  generateCacheKey sym i = generateCacheKey sym' i' → sym = sym' ∧ i = i'.
Proof.
  unfold generateCacheKey. intros H. simpl in H.
  injection H as H. by apply cache_key_suffix.
Qed.

(** X2.  Two cache keys are equal only for the same symbol and the same
    interval: no two series share a cache entry. *)
Theorem generateCacheKey_injective sym i sym' i' :
  generateCacheKey sym i = generateCacheKey sym' i' ↔ sym = sym' ∧ i = i'.
Proof.
  split; [apply generateCacheKey_injective_pair|by intros [-> ->]].
Qed.

Lemma regularTimeline_length a b step :
  0 < step → a <= b →
  Z.of_nat (length (regularTimeline a b step)) = (b - a) / step + 1.
Proof.
  intros Hs Hab. unfold regularTimeline. rewrite length_map, length_seq.
  assert (0 <= (b - a) / step) by (apply Z.div_pos; lia). lia.
Qed.

(** X3.  The window requested from the provider ends now and is a whole
    number of sampling steps long (288, 168 or 30); for series that lie
    inside that window the loop generates at most one timestamp more than
    that number. *)
Theorem aligned_points_bounded i current a b :
  startTime (getTimeRangeAndInterval current i) <= a →
  a <= b →
  b <= endTime (getTimeRangeAndInterval current i) →
  endTime (getTimeRangeAndInterval current i) = current
  ∧ endTime (getTimeRangeAndInterval current i) - startTime (getTimeRangeAndInterval current i)
    = stepsInWindow i * getTimeStep i
  ∧ ∃ timestamps,
      generateTimestamps (JS.Finite a) (JS.Finite b) (getTimeStep i) = Ok timestamps
      ∧ Z.of_nat (length timestamps) <= stepsInWindow i + 1.
Proof.
  intros Ha Hab Hb.
  assert (Hlen : endTime (getTimeRangeAndInterval current i)
                 - startTime (getTimeRangeAndInterval current i)
                 = stepsInWindow i * getTimeStep i) by (destruct i; simpl; lia).
  split; [by destruct i|]. split; [exact Hlen|].
  exists (regularTimeline a b (getTimeStep i)).
  split; [apply generateTimestamps_finite, getTimeStep_pos|].
  rewrite regularTimeline_length by (auto using getTimeStep_pos).
  assert ((b - a) / getTimeStep i <= stepsInWindow i); [|lia].
  pose proof (getTimeStep_pos i) as Hpos.
  apply Z.div_le_upper_bound; [exact Hpos|]. lia.
Qed.

(** ** The cache and the loader *)

Lemma getCachedPrice_run sym i env w :
  PRICE_CACHE env = true →
  getCachedPrice sym i env w
  = (Ok (store w !! generateCacheKey sym i), withTrace w [KVGet (generateCacheKey sym i)]).
Proof. intros H. unfold getCachedPrice. rewrite H. reflexivity. Qed.

Lemma setCachedPrice_run sym i d env w :
  PRICE_CACHE env = true →
  setCachedPrice sym i d env w
  = (Ok tt, {| store := <[generateCacheKey sym i := d]> (store w);
               now := now w;
               trace := trace w ++ [KVPut (generateCacheKey sym i) CACHE_TTL] |}).
Proof. intros H. unfold setCachedPrice. rewrite H. reflexivity. Qed.

Lemma loadPrice_hit alchemy sym i env w d :
  PRICE_CACHE env = true →
  store w !! generateCacheKey sym i = Some d →
  loadPrice alchemy sym i env w
  = (Ok d, withTrace w [KVGet (generateCacheKey sym i)]).
Proof.
  intros Hc Hhit. unfold loadPrice.
  rewrite (bind_ok _ _ _ _ _ (getCachedPrice_run sym i env w Hc)), Hhit. reflexivity.
Qed.

Lemma loadPrice_miss alchemy sym i env w :
  PRICE_CACHE env = true →
  store w !! generateCacheKey sym i = None →
  loadPrice alchemy sym i env w
  = if negb (JS.truthy (ALCHEMY_API_KEY env))
    then (Throw ApiKeyNotConfigured, withTrace w [KVGet (generateCacheKey sym i)])
    else
      let range := getTimeRangeAndInterval (now w) i in
      let asked := withTrace w [KVGet (generateCacheKey sym i); AlchemyPost sym range] in
      match alchemy (trace w ++ [KVGet (generateCacheKey sym i)]) sym range with
      | ReplyFailed st txt details => (Throw (AlchemyFailed st txt details), asked)
      | ReplyJson s c (Some (p :: pts)) =>
          (Ok {| symbol := s; currency := c; data := p :: pts |},
           {| store := <[generateCacheKey sym i :=
                           {| symbol := s; currency := c; data := p :: pts |}]> (store w);
              now := now w;
              trace := trace w ++ [KVGet (generateCacheKey sym i); AlchemyPost sym range;
                                   KVPut (generateCacheKey sym i) CACHE_TTL] |})
      | ReplyJson _ _ _ => (Throw (NoDataInRange sym), asked)
      end.
Proof.
  intros Hc Hmiss. unfold loadPrice.
  rewrite (bind_ok _ _ _ _ _ (getCachedPrice_run sym i env w Hc)), Hmiss.
  unfold fetchPriceFromAlchemy.
  destruct (JS.truthy (ALCHEMY_API_KEY env)); cbn [negb]; [|reflexivity].
  unfold bind at 1. cbn [withTrace now trace].
  destruct (alchemy _ sym _) as [st txt details|s c [[|p pts]|]];
    unfold bind, emit, throw, ret, withTrace; cbn; rewrite <- ?app_assoc; try reflexivity.
  unfold setCachedPrice. rewrite Hc. cbn. by rewrite <- !app_assoc.
Qed.

Lemma loadPrice_unbound alchemy sym i env w :
  PRICE_CACHE env = false → loadPrice alchemy sym i env w = (Throw CacheNotConfigured, w).
Proof. intros Hc. unfold loadPrice, getCachedPrice, bind. rewrite Hc. reflexivity. Qed.

Lemma loadPrice_store alchemy sym i env w :
  (∀ e, (loadPrice alchemy sym i env w).1 = Throw e →
        store (loadPrice alchemy sym i env w).2 = store w)
  ∧ (∀ d, (loadPrice alchemy sym i env w).1 = Ok d →
          store (loadPrice alchemy sym i env w).2 !! generateCacheKey sym i = Some d
          ∧ PRICE_CACHE env = true
          ∧ ∀ key, key ≠ generateCacheKey sym i →
                   store (loadPrice alchemy sym i env w).2 !! key = store w !! key)
  ∧ (loadPrice alchemy sym i env w).1 ≠ Diverge
  ∧ now (loadPrice alchemy sym i env w).2 = now w.
Proof.
  destruct (PRICE_CACHE env) eqn:Hc.
  2: { rewrite loadPrice_unbound by done. cbn.
       split; [done|]. split; [by intros ? [=]|]. done. }
  destruct (store w !! generateCacheKey sym i) as [d0|] eqn:Hlook.
  { rewrite (loadPrice_hit alchemy sym i env w d0) by done. cbn.
    split; [by intros ? [=]|]. split; [|done]. intros d [= <-]. done. }
  rewrite loadPrice_miss by done.
  destruct (JS.truthy (ALCHEMY_API_KEY env)); cbn [negb].
  2: { cbn. split; [done|]. split; [by intros ? [=]|]. done. }
  cbv zeta.
  destruct (alchemy _ sym _) as [st txt details|s c [[|p pts]|]]; cbn.
  1,2,4: split; [done|]; split; [by intros ? [=]|]; done.
  split; [by intros ? [=]|]. split; [|done].
  intros d [= <-]. split; [by rewrite lookup_insert_eq|]. split; [done|].
  intros key Hkey. by rewrite lookup_insert_ne.
Qed.

(** X4.  With the cache bound, a series written for a symbol and interval
    is what the next read of that symbol and interval returns, reads of any
    other symbol or interval see what they saw before, and the write is
    logged with the fixed expiry of 240 seconds. *)
Theorem cache_write_then_read sym i d env w :
  PRICE_CACHE env = true →
  (setCachedPrice sym i d env w).1 = Ok tt
  ∧ (getCachedPrice sym i env (setCachedPrice sym i d env w).2).1 = Ok (Some d)
  ∧ (∀ sym' i', (sym', i') ≠ (sym, i) →
       (getCachedPrice sym' i' env (setCachedPrice sym i d env w).2).1
       = (getCachedPrice sym' i' env w).1)
  ∧ trace (setCachedPrice sym i d env w).2
    = trace w ++ [KVPut (generateCacheKey sym i) 240].
Proof.
  intros Hc. rewrite setCachedPrice_run by done. cbn [fst snd].
  split; [done|]. split; [|split; [|done]].
  - rewrite getCachedPrice_run by done. cbn [fst store]. by rewrite lookup_insert_eq.
  - intros sym' i' Hne. rewrite !getCachedPrice_run by done. cbn [fst store]. f_equal.
    apply lookup_insert_ne. intros E. apply Hne.
    apply generateCacheKey_injective_pair in E. by destruct E as [-> ->].
Qed.

(** X5.  Without the cache binding a load fails with the configuration
    error at once: the world is untouched (no cache call, no upstream
    request), for one symbol as for a list of them. *)
Theorem load_without_cache_binding alchemy sym symbolList ratioList i env w :
  PRICE_CACHE env = false →
  loadPrice alchemy sym i env w = (Throw CacheNotConfigured, w)
  ∧ getWeightedPrices alchemy (sym :: symbolList) ratioList i env w
    = (Throw CacheNotConfigured, w)
  ∧ priceRoute alchemy sym {| symbols := None; ratios := None;
                              interval := Some (intervalName i) |} env w
    = (Ok {| status := 500; body := ErrorJson CacheNotConfigured |}, w).
Proof.
  intros Hc.
  pose proof (loadPrice_unbound alchemy sym i env w Hc) as Hload.
  split; [exact Hload|split].
  - unfold getWeightedPrices, loadAll. cbn [mapM]. unfold bind at 1 2. by rewrite Hload.
  - assert (Hi : isValidInterval
                   (intervalOrDefault {| symbols := None; ratios := None;
                                         interval := Some (intervalName i) |}) = Some i)
      by (by destruct i).
    unfold priceRoute. rewrite Hi. unfold catch, bind. by rewrite Hload.
Qed.

(** X6.  When every requested symbol is cached, the loads are served from
    the cache alone: the cached series are returned in order, the only calls
    logged are the reads, the store is unchanged, and neither the API key
    nor the provider matters. *)
Theorem cached_symbols_make_no_request alchemy symbolList i env w :
  PRICE_CACHE env = true →
  Forall (λ sym, is_Some (store w !! generateCacheKey sym i)) symbolList →
  ∃ priceDataList,
    loadAll alchemy symbolList i env w
    = (Ok priceDataList,
       withTrace w (map (λ sym, KVGet (generateCacheKey sym i)) symbolList))
    ∧ Forall2 (λ sym d, store w !! generateCacheKey sym i = Some d)
        symbolList priceDataList.
Proof.
  intros Hc Hall. revert w Hall.
  induction symbolList as [|sym l IH]; intros w Hall.
  - exists []. split; [|constructor]. unfold loadAll, withTrace. cbn.
    rewrite app_nil_r. by destruct w.
  - apply Forall_cons in Hall as [[d Hd] Hall].
    destruct (IH (withTrace w [KVGet (generateCacheKey sym i)])) as (ds & Hds & Hlook).
    { exact Hall. }
    exists (d :: ds). split; [|by constructor].
    unfold loadAll in *. cbn [mapM].
    rewrite (bind_ok _ _ _ _ _ (loadPrice_hit alchemy sym i env w d Hc Hd)).
    rewrite (bind_ok _ _ _ _ _ Hds). unfold ret, withTrace. cbn.
    by rewrite <- app_assoc.
Qed.

(** X7.  Loading is idempotent: after a successful load, a second load of
    the same symbol and interval returns the same series from the cache,
    whatever the provider would answer now, and logs a cache read only. *)
Theorem load_twice_hits_cache alchemy alchemy' sym i env w d w1 :
  loadPrice alchemy sym i env w = (Ok d, w1) →
  loadPrice alchemy' sym i env w1
  = (Ok d, withTrace w1 [KVGet (generateCacheKey sym i)]).
Proof.
  intros Hload. destruct (loadPrice_store alchemy sym i env w) as (_ & Hok & _).
  rewrite Hload in Hok. destruct (Hok d eq_refl) as (Hkey & Hc & _).
  by apply loadPrice_hit.
Qed.

(** X8.  A load changes at most the cache entry of its own key, and a load
    that fails writes nothing at all; the clock is not touched. *)
Theorem load_writes_own_key_only alchemy sym i env w :
  (∀ key, key ≠ generateCacheKey sym i →
          store (loadPrice alchemy sym i env w).2 !! key = store w !! key)
  ∧ (∀ e, (loadPrice alchemy sym i env w).1 = Throw e →
          store (loadPrice alchemy sym i env w).2 = store w)
  ∧ now (loadPrice alchemy sym i env w).2 = now w.
Proof.
  destruct (loadPrice_store alchemy sym i env w) as (Hthrow & Hok & Hdiv & Hnow).
  split; [|split; [exact Hthrow|exact Hnow]].
  intros key Hkey. destruct (loadPrice alchemy sym i env w).1 as [d|e|] eqn:E.
  - by apply (Hok d eq_refl).
  - by rewrite (Hthrow e eq_refl).
  - done.
Qed.

(** X9.  On a cache miss without an API key the load fails with the
    key-configuration error after the cache read alone: the provider is not
    called and nothing is written. *)
Theorem load_miss_without_api_key alchemy sym i env w :
  PRICE_CACHE env = true →
  JS.truthy (ALCHEMY_API_KEY env) = false →
  store w !! generateCacheKey sym i = None →
  loadPrice alchemy sym i env w
  = (Throw ApiKeyNotConfigured, withTrace w [KVGet (generateCacheKey sym i)]).
Proof.
  intros Hc Hk Hmiss. rewrite loadPrice_miss by done. by rewrite Hk.
Qed.

(** X10.  On a cache miss with both bindings present the provider is asked
    once, for the window of the interval ending now.  A failed reply or a
    reply without points fails the load and leaves the store as it was; a
    reply with points is returned and cached under the key of the symbol and
    interval. *)
Theorem load_miss_asks_provider_once alchemy sym i env w :
  PRICE_CACHE env = true →
  JS.truthy (ALCHEMY_API_KEY env) = true →
  store w !! generateCacheKey sym i = None →
  ∃ events,
    trace (loadPrice alchemy sym i env w).2
    = trace w ++ KVGet (generateCacheKey sym i)
              :: AlchemyPost sym (getTimeRangeAndInterval (now w) i) :: events
    ∧ match alchemy (trace w ++ [KVGet (generateCacheKey sym i)]) sym
              (getTimeRangeAndInterval (now w) i) with
      | ReplyFailed st txt details =>
          (loadPrice alchemy sym i env w).1 = Throw (AlchemyFailed st txt details)
          ∧ events = [] ∧ store (loadPrice alchemy sym i env w).2 = store w
      | ReplyJson s c (Some (p :: pts)) =>
          (loadPrice alchemy sym i env w).1
          = Ok {| symbol := s; currency := c; data := p :: pts |}
          ∧ events = [KVPut (generateCacheKey sym i) CACHE_TTL]
          ∧ store (loadPrice alchemy sym i env w).2
            = <[generateCacheKey sym i := {| symbol := s; currency := c; data := p :: pts |}]>
                (store w)
      | ReplyJson _ _ _ =>
          (loadPrice alchemy sym i env w).1 = Throw (NoDataInRange sym)
          ∧ events = [] ∧ store (loadPrice alchemy sym i env w).2 = store w
      end.
Proof.
  intros Hc Hk Hmiss. rewrite loadPrice_miss by done. rewrite Hk. cbn [negb]. cbv zeta.
  destruct (alchemy _ sym _) as [st txt details|s c [[|p pts]|]]; cbn.
  - by exists [].
  - by exists [].
  - by exists [KVPut (generateCacheKey sym i) CACHE_TTL].
  - by exists [].
Qed.

(** ** The aligner *)

Lemma mapSet_elem k x m t v :
  NoDup m.*1 →
  (t, v) ∈ JS.mapSet k x m ↔ (t = k ∧ v = x) ∨ (t ≠ k ∧ (t, v) ∈ m).
Proof.
  induction m as [|[k' v'] m IH]; intros Hnd; simpl.
  - rewrite list_elem_of_singleton. split.
    + intros [= -> ->]. by left.
    + intros [[-> ->]|[_ H]]; [done|by apply elem_of_nil in H].
  - apply NoDup_cons in Hnd as [Hk' Hnd]. specialize (IH Hnd).
    destruct (Z.eqb_spec k' k) as [->|Hne]; rewrite !elem_of_cons.
    + split.
      * intros [[= -> ->]|H]; [by left|]. right. split; [|by right].
        intros ->. apply Hk'. apply list_elem_of_fmap. by exists (k, v).
      * intros [[-> ->]|[Hne [[= -> ->]|H]]]; [by left|done|by right].
    + rewrite IH. split.
      * intros [[= -> ->]|[[-> ->]|[Hne' H]]]; [right; split; [done|by left]|by left|].
        right. split; [done|by right].
      * intros [[-> ->]|[Hne' [[= -> ->]|H]]]; [right; by left|by left|].
        right. right. done.
Qed.

Lemma filter_snoc_eq (points : list Point) p t :
  filter (λ point, timestamp point = t) (points ++ [p])
  = filter (λ point, timestamp point = t) points
    ++ (if decide (timestamp p = t) then [p] else []).
Proof.
  rewrite filter_app. f_equal.
Qed.

(** X11.  The map built from a series holds each instant once, with the
    value of the last point of the series that carries this instant (a later
    duplicate overwrites an earlier one). *)
Theorem priceMap_last_point_wins d t v :
  (t, v) ∈ priceMap d ↔ lastValueAt (data d) t = Some v.
Proof.
  unfold priceMap, lastValueAt.
  induction (data d) as [|p points IH] using rev_ind.
  - simpl. split; [by intros H%elem_of_nil|done].
  - rewrite foldl_snoc, mapSet_elem.
    2: { apply (foldl_mapSet_keys points [] NoDup_nil_2). }
    rewrite IH, filter_snoc_eq. destruct (decide (timestamp p = t)) as [<-|Hne].
    + rewrite last_snoc. simpl. split.
      * intros [[_ ->]|[Hne _]]; done.
      * intros [= <-]. by left.
    + rewrite app_nil_r. split.
      * intros [[-> _]|[_ H]]; done.
      * intros H. right. split; [congruence|done].
Qed.

Lemma findBracket_found prices t lo hi :
  findBracket prices t = Some (lo, hi) →
  ∃ pre post, prices = pre ++ lo :: hi :: post ∧ lo.1 <= t <= hi.1.
Proof.
  induction prices as [|x l IH]; [done|]. destruct l as [|y l]; [done|].
  cbn [findBracket]. destruct (Z.leb_spec x.1 t) as [Hx|Hx]; simpl.
  - destruct (Z.geb_spec y.1 t) as [Hy|Hy].
    + intros [= <- <-]. exists [], l. split; [done|lia].
    + intros H. destruct (IH H) as (pre & post & -> & Hb).
      exists (x :: pre), post. done.
  - intros H. destruct (IH H) as (pre & post & -> & Hb).
    exists (x :: pre), post. done.
Qed.

Lemma findBracket_inside (first : Z * float) rest lastPoint t :
  rest ≠ [] →
  last (first :: rest) = Some lastPoint →
  first.1 <= t <= lastPoint.1 →
  is_Some (findBracket (first :: rest) t).
Proof.
  revert first. induction rest as [|y l IH]; intros first Hne Hlast Ht; [done|].
  cbn [findBracket]. destruct (Z.leb_spec first.1 t) as [_|?]; [|lia]. simpl.
  destruct (Z.geb_spec y.1 t) as [Hy|Hy]; [by eexists|].
  destruct l as [|z l].
  - simpl in Hlast. injection Hlast as <-. lia.
  - apply IH; [done|exact Hlast|lia].
Qed.

(** X12.  For an instant between the first and the last of a series' points
    inside the window (two points at least), the value is the linear
    interpolation between two neighbouring points that enclose the
    instant. *)
Theorem inside_points_interpolates_neighbours sym pm lo hi t first rest lastPoint :
  availablePrices pm lo hi = first :: rest →
  rest ≠ [] →
  last (first :: rest) = Some lastPoint →
  first.1 <= t <= lastPoint.1 →
  ∃ pre a b post,
    availablePrices pm lo hi = pre ++ a :: b :: post
    ∧ a.1 <= t <= b.1
    ∧ interpolatedValue sym pm lo hi t
      = Ok (a.2 + (b.2 - a.2)
                  * (if (b.1 - a.1 =? 0)%Z then 0
                     else JS.ofZ (t - a.1)%Z / JS.ofZ (b.1 - a.1)%Z))%float.
Proof.
  intros Hav Hne Hlast Ht.
  destruct (findBracket_inside first rest lastPoint t Hne Hlast Ht) as [[a b] Hfound].
  destruct (findBracket_found _ _ _ _ Hfound) as (pre & post & Hsplit & Hb).
  exists pre, a, b, post. rewrite Hav. split; [exact Hsplit|]. split; [exact Hb|].
  unfold interpolatedValue, interpolate. rewrite Hav, Hfound. reflexivity.
Qed.

Lemma rmapM_inv {A B} (f : A → Result B) l out :
  rmapM f l = Ok out → Forall2 (λ x y, f x = Ok y) l out.
Proof.
  revert out. induction l as [|x l IH]; intros out H.
  - injection H as <-. constructor.
  - simpl in H. destruct (f x) as [y| |] eqn:Ex; try discriminate. simpl in H.
    destruct (rmapM f l) as [ys| |]; try discriminate. injection H as <-.
    constructor; [done|]. by apply IH.
Qed.

Lemma weightedPoint_timestamp symbolList ratioList lo hi priceMaps t p :
  weightedPoint symbolList ratioList lo hi priceMaps t = Ok p → timestamp p = t.
Proof.
  unfold weightedPoint. destruct (reducePriceMaps _ _ _ _ _ _ _ _ _); try discriminate.
  by intros [= <-].
Qed.

Lemma regularTimeline_lookup a b step k t :
  0 < step → regularTimeline a b step !! k = Some t →
  t = a + Z.of_nat k * step ∧ t <= b.
Proof.
  intros Hs. unfold regularTimeline. rewrite list_lookup_fmap.
  destruct (seq 0 _ !! k) as [j|] eqn:Ej; [|done]. intros [= <-].
  apply lookup_seq in Ej as [-> Hk]. simpl. split; [done|].
  assert (Hq : Z.of_nat k <= (b - a) / step) by lia.
  assert (Hm : step * ((b - a) / step) <= b - a).
  { apply Z.mul_div_le. lia. }
  nia.
Qed.

(** X13.  The aggregated series runs over the regular timeline of the
    common window: its k-th point lies k steps after the window's start and
    not after its end, and for a non-empty window there are
    [(end - start) / step + 1] points, the first at the start. *)
Theorem aggregate_on_regular_timeline
    alchemy symbolList ratioList i env w priceDataList w' out a b :
  loadAll alchemy symbolList i env w = (Ok priceDataList, w') →
  commonStart priceDataList = JS.Finite a →
  commonEnd priceDataList = JS.Finite b →
  getWeightedPrices alchemy symbolList ratioList i env w = (Ok out, w') →
  (∀ k p, out !! k = Some p →
          timestamp p = a + Z.of_nat k * getTimeStep i ∧ timestamp p <= b)
  ∧ (a <= b → Z.of_nat (length out) = (b - a) / getTimeStep i + 1).
Proof.
  intros Hload Ha Hb Hout.
  rewrite (getWeightedPrices_loaded _ _ _ _ _ _ _ _ Hload) in Hout.
  injection Hout as Hout. unfold weightedSeries in Hout. rewrite Ha, Hb in Hout.
  rewrite generateTimestamps_finite in Hout by apply getTimeStep_pos.
  simpl in Hout. apply rmapM_inv in Hout.
  assert (Hts : map timestamp out = regularTimeline a b (getTimeStep i)).
  { induction Hout as [|t p l ps Htp _ IH]; [done|]. simpl. f_equal; [|exact IH].
    by apply weightedPoint_timestamp in Htp. }
  split.
  - intros k p Hk. apply (regularTimeline_lookup a b (getTimeStep i) k).
    + apply getTimeStep_pos.
    + rewrite <- Hts, list_lookup_fmap, Hk. done.
  - intros Hab. rewrite <- (length_map timestamp), Hts.
    apply regularTimeline_length; [apply getTimeStep_pos|done].
Qed.

Lemma mapSet_key_kept k v m e : e ∈ m.*1 → e ∈ (JS.mapSet k v m).*1.
Proof.
  induction m as [|[k' v'] m IH]; simpl; [by intros H%elem_of_nil|].
  destruct (k' =? k); simpl; rewrite !elem_of_cons; [done|].
  intros [->|H]; [by left|right; auto].
Qed.

Lemma mapSet_key_added k v m : k ∈ (JS.mapSet k v m).*1.
Proof.
  induction m as [|[k' v'] m IH]; simpl; [left|].
  destruct (Z.eqb_spec k' k) as [->|_]; simpl; [left|by right].
Qed.

Lemma priceMap_has_time d p : p ∈ data d → timestamp p ∈ (priceMap d).*1.
Proof.
  unfold priceMap. induction (data d) as [|q points IH] using rev_ind.
  - by intros H%elem_of_nil.
  - rewrite foldl_snoc, elem_of_app, list_elem_of_singleton. intros [H| ->].
    + by apply mapSet_key_kept, IH.
    + apply mapSet_key_added.
Qed.

Lemma availablePrices_nil_iff d a b :
  availablePrices (priceMap d) (JS.Finite a) (JS.Finite b) = [] ↔ ¬ hasPointIn a b d.
Proof.
  pose proof (availablePrices_perm (priceMap d) (JS.Finite a) (JS.Finite b)) as Hperm.
  split.
  - intros Hnil [p [Hp Hin]]. rewrite Hnil in Hperm.
    apply Permutation_nil_l in Hperm.
    apply priceMap_has_time in Hp. apply list_elem_of_fmap in Hp as ([t v] & Ht & He).
    simpl in Ht. subst t.
    assert (Hf : In (timestamp p, v) (List.filter (inWindow (JS.Finite a) (JS.Finite b))
                                        (priceMap d))).
    { apply filter_In. split; [by apply list_elem_of_In|].
      unfold inWindow, JS.leb. simpl. apply andb_true_intro. split; apply Z.leb_le; lia. }
    rewrite <- Hperm in Hf. done.
  - intros Hno. destruct (availablePrices _ _ _) as [|e l] eqn:E; [done|]. exfalso.
    apply Hno. assert (He : e ∈ e :: l) by left.
    assert (He' : e ∈ availablePrices (priceMap d) (JS.Finite a) (JS.Finite b))
      by (by rewrite E).
    pose proof (availablePrices_times d _ _ e He') as Htime.
    apply list_elem_of_fmap in Htime as (p & Hp1 & Hp2).
    exists p. split; [done|]. rewrite <- Hp1.
    rewrite Hperm in He. apply list_elem_of_In, filter_In in He as [_ Hw].
    unfold inWindow, JS.leb in Hw. apply andb_prop in Hw as [H1 H2].
    apply Z.leb_le in H1, H2. lia.
Qed.

Lemma reducePriceMaps_gap symbolList ratioList total a b t priceDataList k d idx sum :
  priceDataList !! k = Some d →
  ¬ hasPointIn a b d →
  (∀ j d', (j < k)%nat → priceDataList !! j = Some d' → hasPointIn a b d') →
  reducePriceMaps symbolList ratioList total (JS.Finite a) (JS.Finite b) t
    (map priceMap priceDataList) idx sum
  = Throw (NoDataForSymbol (default "undefined" (symbolList !! (idx + k)%nat))).
Proof.
  revert k idx sum. induction priceDataList as [|d0 l IH]; intros k idx sum Hk Hno Hbefore;
    [done|].
  cbn [map reducePriceMaps]. unfold interpolatedValue at 1.
  destruct k as [|k].
  - injection Hk as ->. apply availablePrices_nil_iff in Hno. rewrite Hno. simpl.
    by rewrite Nat.add_0_r.
  - destruct (availablePrices (priceMap d0) (JS.Finite a) (JS.Finite b)) as [|e es] eqn:E.
    { exfalso. apply availablePrices_nil_iff in E. apply E.
      apply (Hbefore 0%nat d0); [lia|done]. }
    unfold interpolate. destruct (default _ _) as [lower upper]. cbn [rbind].
    rewrite (IH k (S idx)); [|exact Hk|exact Hno|].
    + replace (S idx + k)%nat with (idx + S k)%nat by lia. reflexivity.
    + intros j d' Hj Hd'. apply (Hbefore (S j) d'); [lia|exact Hd'].
Qed.

(** X14.  When the common window is not empty but some series has no point
    inside it, the aggregation fails with "no price data" for the first such
    symbol of the list. *)
Theorem gap_in_window_throws symbolList ratioList i priceDataList a b k d :
  commonStart priceDataList = JS.Finite a →
  commonEnd priceDataList = JS.Finite b →
  a <= b →
  priceDataList !! k = Some d →
  ¬ hasPointIn a b d →
  (∀ j d', (j < k)%nat → priceDataList !! j = Some d' → hasPointIn a b d') →
  weightedSeries symbolList ratioList i priceDataList
  = Throw (NoDataForSymbol (default "undefined" (symbolList !! k))).
Proof.
  intros Ha Hb Hab Hk Hno Hbefore. unfold weightedSeries. rewrite Ha, Hb.
  rewrite generateTimestamps_finite by apply getTimeStep_pos.
  rewrite regularTimeline_cons by (auto using getTimeStep_pos).
  cbn [rbind rmapM]. unfold weightedPoint at 1.
  rewrite (reducePriceMaps_gap _ _ _ a b a priceDataList k d 0%nat) by done.
  reflexivity.
Qed.




(** ** The routes *)

Lemma mapM_outcome {A B} (f : A → M B) l w :
  (∀ x w0, (f x w0).1 ≠ Diverge) → (mapM f l w).1 ≠ Diverge.
Proof.
  intros Hf. revert w. induction l as [|x l IH]; intros w; [done|].
  cbn [mapM]. unfold bind at 1. pose proof (Hf x w) as Hx.
  destruct (f x w) as [[y| |] w1]; try done.
  unfold bind. pose proof (IH w1) as Hl.
  destruct (mapM f l w1) as [[ys| |] w2]; done.
Qed.

Lemma loadAll_outcome alchemy symbolList i env w :
  (loadAll alchemy symbolList i env w).1 ≠ Diverge.
Proof.
  apply mapM_outcome. intros sym w0. apply (loadPrice_store alchemy sym i env w0).
Qed.

Lemma mapM_ok_length {A B} (f : A → M B) l w out :
  (mapM f l w).1 = Ok out → length out = length l.
Proof.
  intros H. apply (mapM_length f l w out (mapM f l w).2).
  by destruct (mapM f l w) as [r w']; simpl in *; subst.
Qed.

Lemma series_min_not_neginf d : JS.min (timestampsOf d) ≠ JS.NegInfinity.
Proof.
  unfold timestampsOf. induction (data d) as [|p l IH]; [done|].
  simpl. unfold JS.min2. destruct (JS.leb _ _); [done|exact IH].
Qed.

Lemma series_max_not_posinf d : JS.max (timestampsOf d) ≠ JS.PosInfinity.
Proof.
  unfold timestampsOf. induction (data d) as [|p l IH]; [done|].
  simpl. unfold JS.max2. destruct (JS.leb _ _); [exact IH|done].
Qed.

Lemma commonStart_not_neginf priceDataList :
  priceDataList ≠ [] → commonStart priceDataList ≠ JS.NegInfinity.
Proof.
  destruct priceDataList as [|d l]; [done|]. intros _.
  change (commonStart (d :: l)) with (JS.max2 (JS.min (timestampsOf d)) (commonStart l)).
  pose proof (series_min_not_neginf d).
  unfold JS.max2, JS.leb.
  destruct (JS.min (timestampsOf d)) as [|x|], (commonStart l) as [|y|]; try done.
  by destruct (x <=? y).
Qed.

Lemma commonEnd_not_posinf priceDataList :
  priceDataList ≠ [] → commonEnd priceDataList ≠ JS.PosInfinity.
Proof.
  destruct priceDataList as [|d l]; [done|]. intros _.
  change (commonEnd (d :: l)) with (JS.min2 (JS.max (timestampsOf d)) (commonEnd l)).
  pose proof (series_max_not_posinf d).
  unfold JS.min2, JS.leb.
  destruct (JS.max (timestampsOf d)) as [|x|], (commonEnd l) as [|y|]; try done.
  by destruct (x <=? y).
Qed.

Lemma rmapM_outcome {A B} (f : A → Result B) l :
  (∀ x, f x ≠ Diverge) → rmapM f l ≠ Diverge.
Proof.
  intros Hf. induction l as [|x l IH]; [done|]. simpl.
  pose proof (Hf x). destruct (f x); try done. simpl. by destruct (rmapM f l).
Qed.

Lemma reducePriceMaps_outcome symbolList ratioList total lo hi t priceMaps idx sum :
  reducePriceMaps symbolList ratioList total lo hi t priceMaps idx sum ≠ Diverge.
Proof.
  revert idx sum. induction priceMaps as [|pm l IH]; intros idx sum; [done|].
  cbn [reducePriceMaps]. unfold interpolatedValue.
  destruct (interpolate _ _); [apply IH|done].
Qed.

(** The aggregation of at least one series returns or throws. *)
Lemma weightedSeries_outcome symbolList ratioList i priceDataList :
  priceDataList ≠ [] → weightedSeries symbolList ratioList i priceDataList ≠ Diverge.
Proof.
  intros Hne. unfold weightedSeries.
  pose proof (commonStart_not_neginf _ Hne) as Hs.
  pose proof (commonEnd_not_posinf _ Hne) as He.
  assert (Hgen : ∃ ts, generateTimestamps (commonStart priceDataList)
                         (commonEnd priceDataList) (getTimeStep i) = Ok ts).
  { destruct (commonStart priceDataList) as [|a|], (commonEnd priceDataList) as [|b|];
      try done; try (by eexists).
    eexists. apply generateTimestamps_finite, getTimeStep_pos. }
  destruct Hgen as [ts ->]. simpl. apply rmapM_outcome. intros t.
  unfold weightedPoint.
  pose proof (reducePriceMaps_outcome symbolList ratioList
                (foldl (λ sum ratio, (sum + ratio)%float) 0%float ratioList)
                (commonStart priceDataList) (commonEnd priceDataList) t
                (map priceMap priceDataList) 0%nat 0%float) as Hr.
  by destruct (reducePriceMaps _ _ _ _ _ _ _ _ _).
Qed.

Lemma getWeightedPrices_outcome alchemy symbolList ratioList i env w :
  symbolList ≠ [] →
  (getWeightedPrices alchemy symbolList ratioList i env w).1 ≠ Diverge.
Proof.
  intros Hne. unfold getWeightedPrices, bind.
  pose proof (loadAll_outcome alchemy symbolList i env w) as Hl.
  pose proof (mapM_ok_length (λ sym, loadPrice alchemy sym i env) symbolList w) as Hlen.
  fold (loadAll alchemy symbolList i env) in Hlen.
  destruct (loadAll alchemy symbolList i env w) as [[pdl| |] w1]; try done.
  unfold lift. simpl. apply weightedSeries_outcome.
  specialize (Hlen pdl eq_refl). destruct pdl; [|done]. by destruct symbolList.
Qed.

Lemma latestPoints_outcome priceDataList : latestPoints priceDataList ≠ Diverge.
Proof. apply rmapM_outcome. intros d. by destruct (last (data d)). Qed.

Lemma answered_respond_400 b w : answered (respond 400 b) w.
Proof. eexists. split; [done|]. split; [simpl; auto|done]. Qed.

Lemma answered_catch {A} (c : M A) (ok : A → Body) w :
  (c w).1 ≠ Diverge →
  answered (catch (do x <- c; respond 200 (ok x)) (λ error, respond 500 (ErrorJson error))) w.
Proof.
  intros Hc. unfold answered, catch, bind. destruct (c w) as [[x|e|] w1]; [| |done].
  - eexists. split; [done|]. simpl. split; [auto|lia].
  - eexists. split; [done|]. simpl. split; [auto|lia].
Qed.

(** X16.  Every route answers: whatever the query, the cache and the
    provider, each of the four routes returns a response (it neither throws
    nor loops), with status 200, 400 or 500; and a 400 answer leaves the
    world as it was: a rejected query causes no cache call and no upstream
    request. *)
Theorem routes_always_answer Number alchemy sym query env w :
  answered (priceRoute alchemy sym query env) w
  ∧ answered (aggregateRoute Number alchemy query env) w
  ∧ answered (pnlRoute Number alchemy query env) w
  ∧ answered (batchRoute alchemy query env) w.
Proof.
  split; [|split; [|split]].
  - unfold priceRoute. destruct (isValidInterval _); [|apply answered_respond_400].
    apply (answered_catch (loadPrice alchemy sym i env) (λ d, PriceJson sym i (data d))).
    apply (loadPrice_store alchemy sym i env w).
  - unfold aggregateRoute.
    destruct (_ || _); [apply answered_respond_400|].
    destruct (negb _); [apply answered_respond_400|].
    destruct (isValidInterval _); [|apply answered_respond_400].
    apply (answered_catch (getWeightedPrices _ _ _ _ _) (λ wd, AggregateJson wd i)).
    apply getWeightedPrices_outcome, split_nonempty.
  - unfold pnlRoute.
    destruct (_ || _); [apply answered_respond_400|].
    destruct (negb _); [apply answered_respond_400|].
    pose proof (getWeightedPrices_outcome alchemy
                  (JS.split "," (default "" (symbols query)))
                  (processRatios Number (JS.split "," (default "" (ratios query))))
                  I30d env w (split_nonempty _ _)) as Hg.
    unfold answered, catch, bind.
    destruct (getWeightedPrices _ _ _ _ _ w) as [[wd|e|] w1]; [| |done].
    + unfold lift, percentChange. destruct wd as [|first rest]; simpl.
      * eexists. split; [done|]. simpl. split; [auto|lia].
      * eexists. split; [done|]. simpl. split; [auto|lia].
    + eexists. split; [done|]. simpl. split; [auto|lia].
  - unfold batchRoute.
    destruct (negb _); [apply answered_respond_400|].
    destruct (isValidInterval _); [|apply answered_respond_400].
    pose proof (loadAll_outcome alchemy (JS.split "," (default "" (symbols query)))
                  i env w) as Hl.
    unfold answered, catch, bind.
    destruct (loadAll _ _ _ _ w) as [[pdl|e|] w1]; [| |done].
    + unfold lift, snapshot. pose proof (latestPoints_outcome pdl) as Hlat.
      destruct (latestPoints pdl) as [latest|e|]; [| |done]; simpl.
      * destruct (forallb _ latest);
          [destruct (JS.max _)|]; eexists; (split; [done|]); simpl; (split; [auto|lia]).
      * eexists. split; [done|]. simpl. split; [auto|lia].
    + eexists. split; [done|]. simpl. split; [auto|lia].
Qed.

Lemma loadAll_nonempty_series Number alchemy symbolList i env w priceDataList w' :
  reachable Number alchemy env w →
  loadAll alchemy symbolList i env w = (Ok priceDataList, w') →
  Forall (λ d, data d ≠ []) priceDataList.
Proof.
  intros Hreach Hload.
  pose proof (keeps_mapM (λ sym, loadPrice alchemy sym i env) symbolList
                (λ d, data d ≠ []) (λ sym, keeps_loadPrice alchemy sym i env)
                w (reachable_nonEmptyStore _ _ _ _ Hreach)) as [_ Hres].
  apply Hres. unfold loadAll in Hload. by rewrite Hload.
Qed.

Lemma mapM_throw_from {A B} (f : A → M B) (P : Error → Prop) l w e :
  (∀ x w0 e0, (f x w0).1 = Throw e0 → P e0) →
  (mapM f l w).1 = Throw e → P e.
Proof.
  intros Hf. revert w. induction l as [|x l IH]; intros w; [done|].
  cbn [mapM]. unfold bind at 1. pose proof (Hf x w) as Hx.
  destruct (f x w) as [[y| |] w1]; simpl in *; [|by intros [= <-]; apply Hx|done].
  unfold bind. pose proof (IH w1) as Hl.
  destruct (mapM f l w1) as [[ys| |] w2]; simpl in *; [done|exact Hl|done].
Qed.

Lemma mapM_throw_elem {A B} (f : A → M B) l w e :
  (mapM f l w).1 = Throw e → ∃ x w0, x ∈ l ∧ (f x w0).1 = Throw e.
Proof.
  revert w. induction l as [|x l IH]; intros w; [done|].
  cbn [mapM]. unfold bind at 1.
  destruct (f x w) as [[y| |] w1] eqn:Ex; simpl.
  - unfold bind. pose proof (IH w1) as Hl.
    destruct (mapM f l w1) as [[ys| |] w2]; simpl in *; [done| |done].
    intros He. destruct (Hl He) as (x' & w0 & Hin & Hx').
    exists x', w0. split; [by right|done].
  - intros [= <-]. exists x, w. split; [left|by rewrite Ex].
  - done.
Qed.

Lemma loadPrice_error alchemy sym i env w e :
  (loadPrice alchemy sym i env w).1 = Throw e → loadError e.
Proof.
  destruct (PRICE_CACHE env) eqn:Hc.
  2: { rewrite loadPrice_unbound by done. by intros [= <-]. }
  destruct (store w !! generateCacheKey sym i) as [d0|] eqn:Hlook.
  { by rewrite (loadPrice_hit alchemy sym i env w d0). }
  rewrite loadPrice_miss by done.
  destruct (JS.truthy (ALCHEMY_API_KEY env)); cbn [negb]; [|by intros [= <-]].
  cbv zeta. destruct (alchemy _ sym _) as [st txt details|s c [[|p pts]|]]; cbn;
    try (by intros [= <-]); done.
Qed.

Lemma forallb_false_elem {A} (f : A → bool) l :
  forallb f l = false → ∃ x, x ∈ l ∧ f x = false.
Proof.
  induction l as [|x l IH]; [done|]. simpl. destruct (f x) eqn:Ex.
  - intros H. destruct (IH H) as (y & Hy & Hfy). exists y. split; [by right|done].
  - intros _. exists x. split; [left|done].
Qed.

(** X17.  In every world the worker can reach from an empty cache, the
    batch route with an accepted query answers 200 with a snapshot, or 500
    with the failure of the load of one of the requested symbols, or 500
    with the date error, the latter when every load succeeded and the last
    point of a loaded series carries a date that does not parse.  It never
    fails on reading the last point of an empty series ([TypeError]). *)
Theorem batch_fails_only_on_load Number alchemy query env w i :
  reachable Number alchemy env w →
  JS.truthy (symbols query) = true →
  isValidInterval (intervalOrDefault query) = Some i →
  (∃ values latestTimestamp,
     (batchRoute alchemy query env w).1
     = Ok {| status := 200; body := BatchJson values latestTimestamp |})
  ∨ (∃ e, (batchRoute alchemy query env w).1
          = Ok {| status := 500; body := ErrorJson e |}
          ∧ loadError e
          ∧ ∃ sym w0, sym ∈ JS.split "," (default "" (symbols query))
                      ∧ (loadPrice alchemy sym i env w0).1 = Throw e)
  ∨ ((batchRoute alchemy query env w).1
     = Ok {| status := 500; body := ErrorJson RangeError |}
     ∧ ∃ priceDataList d point,
         (loadAll alchemy (JS.split "," (default "" (symbols query))) i env w).1
         = Ok priceDataList
         ∧ d ∈ priceDataList
         ∧ last (data d) = Some point
         ∧ ¬ JS.validTime (timestamp point)).
Proof.
  intros Hreach Hs Hi. unfold batchRoute. rewrite Hs, Hi. cbn [negb].
  set (symbolList := JS.split "," (default "" (symbols query))).
  pose proof (loadAll_outcome alchemy symbolList i env w) as Hdiv.
  pose proof (loadAll_nonempty_series Number alchemy symbolList i env w) as Hne.
  pose proof (mapM_ok_length (λ sym, loadPrice alchemy sym i env) symbolList w) as Hlen.
  pose proof (mapM_throw_from (λ sym, loadPrice alchemy sym i env) loadError symbolList w)
    as Herr.
  pose proof (mapM_throw_elem (λ sym, loadPrice alchemy sym i env) symbolList w)
    as Hwho.
  fold (loadAll alchemy symbolList i env) in Hlen, Herr, Hwho.
  unfold catch, bind.
  destruct (loadAll alchemy symbolList i env w) as [[pdl|e|] w1]; [| |done].
  - specialize (Hne pdl w1 Hreach eq_refl). specialize (Hlen pdl eq_refl).
    destruct (latestPoints_spec _ Hne) as (latest & Hlat & Hall).
    unfold lift, snapshot. rewrite Hlat. cbn [rbind].
    destruct (forallb (λ point, JS.validTimeb (timestamp point)) latest) eqn:Hvalid.
    + left.
      assert (Hnonempty : map timestamp latest ≠ []).
      { pose proof (split_nonempty "," (default "" (symbols query))) as Hsp.
        fold symbolList in Hsp. apply Forall2_length in Hall.
        destruct latest; [|done]. destruct pdl; [|done]. by destruct symbolList. }
      destruct (max_finite _ Hnonempty) as (t & Ht & _). rewrite map_map in Ht.
      rewrite Ht. eexists _, _. reflexivity.
    + right. right. split; [reflexivity|].
      apply forallb_false_elem in Hvalid as (point & Hin & Hbad).
      apply list_elem_of_lookup in Hin as [k Hk].
      destruct (Forall2_lookup_r _ _ _ _ _ Hall Hk) as (d & Hd & Hlast).
      exists pdl, d, point. split; [done|]. split; [by eapply list_elem_of_lookup_2|].
      split; [exact Hlast|]. unfold JS.validTime. apply Z.leb_gt in Hbad. lia.
  - right. left. exists e. split; [done|]. split; [|by apply Hwho].
    apply (Herr e). { intros sym w0 e0. apply loadPrice_error. } done.
Qed.

(** ** The scheduled refresh *)

Lemma refreshOne_run alchemy env sym w :
  refreshOne alchemy env sym w
  = if negb (JS.truthy (ALCHEMY_API_KEY env)) then (Ok tt, w)
    else
      let range := getTimeRangeAndInterval (now w) I30d in
      match alchemy (trace w) sym range with
      | ReplyJson s c (Some (p :: pts)) =>
          if PRICE_CACHE env
          then (Ok tt,
                {| store := <[generateCacheKey sym I30d :=
                                {| symbol := s; currency := c; data := p :: pts |}]> (store w);
                   now := now w;
                   trace := trace w ++ [AlchemyPost sym range;
                                        KVPut (generateCacheKey sym I30d) CACHE_TTL] |})
          else (Ok tt, withTrace w [AlchemyPost sym range])
      | _ => (Ok tt, withTrace w [AlchemyPost sym range])
      end.
Proof.
  unfold refreshOne, catch, fetchPriceFromAlchemy.
  destruct (JS.truthy (ALCHEMY_API_KEY env)); cbn [negb]; [|reflexivity].
  unfold bind at 1. cbv zeta.
  destruct (alchemy _ sym _) as [st txt details|s c [[|p pts]|]];
    unfold bind, emit, throw, ret, withTrace; cbn; try reflexivity.
  unfold setCachedPrice. destruct (PRICE_CACHE env); cbn; [|reflexivity].
  by rewrite <- !app_assoc.
Qed.

Lemma refreshOne_spec alchemy env sym w :
  (refreshOne alchemy env sym w).1 = Ok tt
  ∧ now (refreshOne alchemy env sym w).2 = now w
  ∧ (∃ events, trace (refreshOne alchemy env sym w).2 = trace w ++ events
               ∧ Forall (refreshEventOf sym) events)
  ∧ (store (refreshOne alchemy env sym w).2 = store w
     ∨ ∃ d, data d ≠ []
            ∧ store (refreshOne alchemy env sym w).2
              = <[generateCacheKey sym I30d := d]> (store w))
  ∧ (PRICE_CACHE env = true → JS.truthy (ALCHEMY_API_KEY env) = true →
     serves alchemy sym →
     ∃ d, data d ≠ []
          ∧ store (refreshOne alchemy env sym w).2
            = <[generateCacheKey sym I30d := d]> (store w)).
Proof.
  rewrite refreshOne_run.
  destruct (JS.truthy (ALCHEMY_API_KEY env)) eqn:Hk; cbn [negb].
  2: { cbn. split; [done|]. split; [done|]. split.
       - exists []. by rewrite app_nil_r.
       - split; [by left|]. intros _ [=]. }
  cbv zeta. set (range := getTimeRangeAndInterval (now w) I30d).
  assert (Hpost : refreshEventOf sym (AlchemyPost sym range)) by (by split).
  assert (Hfail :
    (∃ s c p pts, alchemy (trace w) sym range = ReplyJson s c (Some (p :: pts))) ∨
    ¬ (∃ s c p pts, alchemy (trace w) sym range = ReplyJson s c (Some (p :: pts)))).
  { destruct (alchemy (trace w) sym range) as [st txt details|s c [[|p pts]|]];
      [right|right|left|right]; try (by intros (? & ? & ? & ? & [=])). by eexists _, _, _, _. }
  destruct Hfail as [(s & c & p & pts & Hreply)|Hno].
  - rewrite Hreply. destruct (PRICE_CACHE env) eqn:Hc; cbn.
    + split; [done|]. split; [done|]. split.
      * exists [AlchemyPost sym range; KVPut (generateCacheKey sym I30d) CACHE_TTL].
        split; [done|]. by repeat constructor.
      * split; [right|intros _ _ _]; eexists; (split; [|reflexivity]); done.
    + split; [done|]. split; [done|]. split.
      * exists [AlchemyPost sym range]. split; [done|by constructor].
      * split; [by left|]. intros [=].
  - assert (Hrun : match alchemy (trace w) sym range with
                   | ReplyJson s c (Some (p :: pts)) =>
                       if PRICE_CACHE env
                       then (Ok tt,
                             {| store := <[generateCacheKey sym I30d :=
                                  {| symbol := s; currency := c; data := p :: pts |}]> (store w);
                                now := now w;
                                trace := trace w ++ [AlchemyPost sym range;
                                           KVPut (generateCacheKey sym I30d) CACHE_TTL] |})
                       else (Ok tt, withTrace w [AlchemyPost sym range])
                   | _ => (Ok tt, withTrace w [AlchemyPost sym range])
                   end = (Ok tt, withTrace w [AlchemyPost sym range])).
    { destruct (alchemy (trace w) sym range) as [st txt details|s c [[|p pts]|]];
        try reflexivity. destruct Hno. by eexists _, _, _, _. }
    rewrite Hrun. cbn. split; [done|]. split; [done|]. split.
    + exists [AlchemyPost sym range]. split; [done|by constructor].
    + split; [by left|]. intros _ _ Hserves. destruct Hno. apply Hserves.
Qed.

Lemma refreshAll_spec alchemy env symbolList w :
  let run := mapM (refreshOne alchemy env) symbolList in
  (∃ units, (run w).1 = Ok units)
  ∧ now (run w).2 = now w
  ∧ (∃ events, trace (run w).2 = trace w ++ events
               ∧ Forall (λ ev, ∃ sym, sym ∈ symbolList ∧ refreshEventOf sym ev) events)
  ∧ (∀ key, key ∉ map (λ sym, generateCacheKey sym I30d) symbolList →
            store (run w).2 !! key = store w !! key)
  ∧ (∀ key d, store w !! key = Some d → data d ≠ [] →
              ∃ d', store (run w).2 !! key = Some d' ∧ data d' ≠ [])
  ∧ (PRICE_CACHE env = true → JS.truthy (ALCHEMY_API_KEY env) = true →
     ∀ sym, sym ∈ symbolList → serves alchemy sym →
            ∃ d, store (run w).2 !! generateCacheKey sym I30d = Some d ∧ data d ≠ []).
Proof.
  cbv zeta. revert w. induction symbolList as [|sym l IH]; intros w.
  - cbn. split; [by eexists|]. split; [done|]. split.
    { exists []. by rewrite app_nil_r. }
    split; [done|]. split; [eauto|]. intros _ _ s Hs. by apply elem_of_nil in Hs.
  - cbn [mapM]. unfold bind.
    destruct (refreshOne_spec alchemy env sym w) as (Hok & Hnow & (ev1 & Htr1 & Hev1) & Hst & Hserve).
    destruct (refreshOne alchemy env sym w) as [r1 w1]. simpl in *. subst r1.
    specialize (IH w1). destruct IH as ((units & Hu) & Hnow2 & (ev2 & Htr2 & Hev2) & Hother & Hkeep & Hwarm).
    destruct (mapM (refreshOne alchemy env) l w1) as [r2 w2].
    simpl in *. subst r2. cbn.
    split; [by eexists|]. split; [by rewrite Hnow2|]. split; [|split; [|split]].
    + exists (ev1 ++ ev2). split; [by rewrite Htr2, Htr1, app_assoc|].
      apply Forall_app. split.
      * eapply Forall_impl; [exact Hev1|]. intros ev Hev. exists sym. split; [left|done].
      * eapply Forall_impl; [exact Hev2|]. intros ev (s & Hs & Hev). exists s.
        split; [by right|done].
    + intros key Hkey. apply not_elem_of_cons in Hkey as [Hk1 Hk2].
      rewrite Hother by done. destruct Hst as [->|(d & _ & ->)]; [done|].
      by rewrite lookup_insert_ne.
    + intros key d Hd Hne. destruct Hst as [Hst|(d1 & Hd1 & Hst)].
      * apply (Hkeep key d); [by rewrite Hst|done].
      * destruct (decide (generateCacheKey sym I30d = key)) as [<-|Hk].
        -- apply (Hkeep _ d1); [by rewrite Hst, lookup_insert_eq|done].
        -- apply (Hkeep key d); [by rewrite Hst, lookup_insert_ne|done].
    + intros Hc Hk s Hs Hserves. apply elem_of_cons in Hs as [->|Hs].
      * destruct (Hserve Hc Hk Hserves) as (d & Hd & Hst').
        apply (Hkeep _ d); [by rewrite Hst', lookup_insert_eq|done].
      * by apply Hwarm.
Qed.

(** X18.  The scheduled refresh never fails, whatever the provider and the
    bindings: it returns normally, it never reads the cache, every call it
    makes is a daily-granularity request for one of its four symbols or a
    write of such a symbol's 30-day key with the fixed expiry, and it leaves
    every other cache entry and the clock as they were. *)
Theorem scheduled_never_fails alchemy env w :
  (scheduled alchemy env w).1 = Ok tt
  ∧ now (scheduled alchemy env w).2 = now w
  ∧ (∃ events, trace (scheduled alchemy env w).2 = trace w ++ events
               ∧ Forall refreshEvent events)
  ∧ (∀ key, key ∉ map (λ sym, generateCacheKey sym I30d) refreshSymbols →
            store (scheduled alchemy env w).2 !! key = store w !! key).
Proof.
  destruct (refreshAll_spec alchemy env refreshSymbols w)
    as ((units & Hu) & Hnow & (events & Htr & Hev) & Hother & _).
  unfold scheduled. fold (refreshOne alchemy env). fold refreshSymbols.
  unfold bind. destruct (mapM (refreshOne alchemy env) refreshSymbols w) as [r w1].
  simpl in *. subst r. cbn.
  split; [done|]. split; [done|]. split; [|done].
  exists events. split; [done|]. eapply Forall_impl; [exact Hev|].
  intros [key|key ttl|s range] (sym & Hsym & Hev'); simpl in *; [done| |].
  - destruct Hev' as [-> ->]. split; [done|]. eauto.
  - destruct Hev' as [-> ->]. done.
Qed.

(** X19.  With both bindings present, a symbol of the refresh list that the
    provider serves is cached under its 30-day key after the refresh, with a
    non-empty series, even when the requests for other symbols fail. *)
Theorem scheduled_warms_served_symbols alchemy env w sym :
  PRICE_CACHE env = true →
  JS.truthy (ALCHEMY_API_KEY env) = true →
  sym ∈ refreshSymbols →
  serves alchemy sym →
  ∃ d, store (scheduled alchemy env w).2 !! generateCacheKey sym I30d = Some d
       ∧ data d ≠ [].
Proof.
  intros Hc Hk Hsym Hserves.
  destruct (refreshAll_spec alchemy env refreshSymbols w)
    as ((units & Hu) & _ & _ & _ & _ & Hwarm).
  specialize (Hwarm Hc Hk sym Hsym Hserves).
  unfold scheduled. fold (refreshOne alchemy env). fold refreshSymbols.
  unfold bind. destruct (mapM (refreshOne alchemy env) refreshSymbols w) as [r w1].
  simpl in *. subst r. cbn. exact Hwarm.
Qed.

(** ** The CORS shell *)

Lemma headersSet_lookup name val headers key :
  headersSet name val headers !! key
  = if decide (JS.toLowerCase name = key) then Some val else headers !! key.
Proof.
  unfold headersSet. case_decide as Hk.
  - subst key. apply lookup_insert_eq.
  - by apply lookup_insert_ne.
Qed.

Lemma addCorsHeaders_lookup {B} (response : HttpResponse B) key :
  httpHeaders (addCorsHeaders response) !! key
  = if decide (key = "access-control-allow-headers") then Some "Content-Type"
    else if decide (key = "access-control-allow-methods") then Some "GET, OPTIONS"
    else if decide (key = "access-control-allow-origin") then Some "*"
    else httpHeaders response !! key.
Proof.
  unfold addCorsHeaders. cbn [httpHeaders]. rewrite !headersSet_lookup.
  change (JS.toLowerCase "Access-Control-Allow-Headers") with "access-control-allow-headers".
  change (JS.toLowerCase "Access-Control-Allow-Methods") with "access-control-allow-methods".
  change (JS.toLowerCase "Access-Control-Allow-Origin") with "access-control-allow-origin".
  repeat case_decide; congruence.
Qed.

(** X20.  [addCorsHeaders] overrides the three CORS headers with its fixed
    values whatever the response carried, keeps every other header, the
    status, the status text and the body, and applying it twice is the same
    as applying it once. *)
Theorem addCorsHeaders_overrides_and_keeps {B} (response : HttpResponse B) :
  httpHeaders (addCorsHeaders response) !! "access-control-allow-origin" = Some "*"
  ∧ httpHeaders (addCorsHeaders response) !! "access-control-allow-methods"
    = Some "GET, OPTIONS"
  ∧ httpHeaders (addCorsHeaders response) !! "access-control-allow-headers"
    = Some "Content-Type"
  ∧ (∀ name, name ∉ corsNames →
             httpHeaders (addCorsHeaders response) !! name = httpHeaders response !! name)
  ∧ httpStatus (addCorsHeaders response) = httpStatus response
  ∧ httpStatusText (addCorsHeaders response) = httpStatusText response
  ∧ httpBody (addCorsHeaders response) = httpBody response
  ∧ addCorsHeaders (addCorsHeaders response) = addCorsHeaders response.
Proof.
  repeat split; try (rewrite addCorsHeaders_lookup; reflexivity).
  - intros name Hname. rewrite addCorsHeaders_lookup.
    unfold corsNames in Hname. rewrite !not_elem_of_cons in Hname.
    destruct Hname as (H1 & H2 & H3 & _). by repeat case_decide.
  - assert (Hh : httpHeaders (addCorsHeaders (addCorsHeaders response))
                 = httpHeaders (addCorsHeaders response)).
    { apply map_eq. intros key. rewrite !addCorsHeaders_lookup. by repeat case_decide. }
    unfold addCorsHeaders at 1. fold (addCorsHeaders (addCorsHeaders response)).
    destruct (addCorsHeaders response) as [st txt hs b] eqn:E.
    unfold addCorsHeaders in Hh |- *. cbn [httpHeaders httpStatus httpStatusText httpBody] in *.
    by rewrite Hh.
Qed.

(** X21.  Every response that leaves the [fetch] entry point carries the
    three CORS headers with their fixed values, whatever the handler put in
    them; if the handler fails, so does the entry point, with no response.
    A preflight ([OPTIONS]) never runs the handler: the world is unchanged
    and the answer is an empty 200. *)
Theorem fetch_responses_carry_cors {B} method (handle : M (HttpResponse (option B)))
    w response :
  (workerFetch method handle w).1 = Ok response →
  httpHeaders response !! "access-control-allow-origin" = Some "*"
  ∧ httpHeaders response !! "access-control-allow-methods" = Some "GET, OPTIONS"
  ∧ httpHeaders response !! "access-control-allow-headers" = Some "Content-Type"
  ∧ (method = "OPTIONS" →
     (workerFetch method handle w).2 = w
     ∧ httpStatus response = 200 ∧ httpBody response = None
     ∧ httpHeaders response !! "content-type" = Some "application/json")
  ∧ (method ≠ "OPTIONS" →
     (workerFetch method handle w).2 = (handle w).2
     ∧ ∃ inner, (handle w).1 = Ok inner
                ∧ httpStatus response = httpStatus inner
                ∧ httpBody response = httpBody inner).
Proof.
  unfold workerFetch. destruct (String.eqb_spec method "OPTIONS") as [->|Hm].
  - cbn [ret fst snd]. intros [= <-].
    split; [by rewrite addCorsHeaders_lookup|].
    split; [by rewrite addCorsHeaders_lookup|].
    split; [by rewrite addCorsHeaders_lookup|].
    split; [|done]. intros _. split; [done|]. split; [done|]. split; [done|].
    rewrite addCorsHeaders_lookup. reflexivity.
  - unfold bind. destruct (handle w) as [[inner|e|] w1]; cbn [ret fst snd]; [|done|done].
    intros [= <-].
    split; [by rewrite addCorsHeaders_lookup|].
    split; [by rewrite addCorsHeaders_lookup|].
    split; [by rewrite addCorsHeaders_lookup|].
    split; [done|]. intros _. split; [done|]. by exists inner.
Qed.

(** ** Defaults and degenerate inputs *)

(** X22.  An absent or empty [interval] parameter is served as [24h] by the
    price, aggregate and batch routes. *)
Theorem missing_interval_is_24h Number alchemy sym query env :
  interval query = None ∨ interval query = Some "" →
  let query' := {| symbols := symbols query; ratios := ratios query;
                   interval := Some "24h" |} in
  priceRoute alchemy sym query env = priceRoute alchemy sym query' env
  ∧ aggregateRoute Number alchemy query env = aggregateRoute Number alchemy query' env
  ∧ batchRoute alchemy query env = batchRoute alchemy query' env.
Proof.
  intros Hi. cbv zeta.
  assert (Hd : intervalOrDefault query = "24h").
  { unfold intervalOrDefault. by destruct Hi as [-> | ->]. }
  unfold priceRoute, aggregateRoute, batchRoute. rewrite Hd. done.
Qed.

Lemma sub_self_SF x s m e :
  Prim2SF x = S754_finite s m e → Prim2SF (x - x)%float = S754_zero false.
Proof.
  intros Hx. rewrite sub_spec, Hx. unfold SF64sub, SFsub.
  rewrite Z.min_id. unfold shl_align. rewrite Z.sub_diag. cbn [fst].
  reflexivity.
Qed.

(** X23.  A series whose last value equals its finite, non-zero first value
    (a flat window, or a window of a single point) reports a change of zero
    percent. *)
Theorem flat_series_has_zero_pnl first rest s m e :
  Prim2SF (value first) = S754_finite s m e →
  value (default first (last (first :: rest))) = value first →
  ∃ pnl, percentChange (first :: rest)
         = Ok (PnlJson pnl (value first) (value first) (timestamp first)
                 (timestamp (default first (last (first :: rest)))))
         ∧ (pnl =? 0)%float = true.
Proof.
  intros Hfin Hlast. unfold percentChange. cbv zeta. rewrite Hlast.
  eexists. split; [reflexivity|].
  rewrite FloatAxioms.eqb_spec, mul_spec, div_spec, (sub_self_SF _ _ _ _ Hfin), Hfin.
  change (Prim2SF 100) with (S754_finite false 7036874417766400 (-46)).
  change (Prim2SF 0) with (S754_zero false).
  destruct s; reflexivity.
Qed.

(** ** The further properties on the sample data *)

(** X3, witness: the last hour of a 24-hour window. *)
Lemma aligned_points_bounded_witness :
  endTime (getTimeRangeAndInterval 1700000000000 I24h) = 1700000000000
  ∧ endTime (getTimeRangeAndInterval 1700000000000 I24h)
    - startTime (getTimeRangeAndInterval 1700000000000 I24h)
    = stepsInWindow I24h * getTimeStep I24h
  ∧ ∃ timestamps,
      generateTimestamps (JS.Finite 1699996400000) (JS.Finite 1700000000000)
        (getTimeStep I24h) = Ok timestamps
      ∧ Z.of_nat (length timestamps) <= stepsInWindow I24h + 1.
Proof.
  apply (aligned_points_bounded I24h 1700000000000 1699996400000 1700000000000);
    vm_compute; discriminate.
Defined.

(** X4, witness: the series "A" written into the empty cache. *)
Lemma cache_write_then_read_witness :
  (getCachedPrice "A" I24h Sample.env
     (setCachedPrice "A" I24h (Sample.priceData "A" Sample.seriesA) Sample.env
        Sample.start).2).1
  = Ok (Some (Sample.priceData "A" Sample.seriesA)).
Proof.
  exact (proj1 (proj2 (cache_write_then_read "A" I24h (Sample.priceData "A" Sample.seriesA)
                         Sample.env Sample.start eq_refl))).
Defined.

(** X5, witness: the environment without the cache binding. *)
Lemma load_without_cache_binding_witness :
  loadPrice Sample.alchemy "A" I24h Fixture.unbound Sample.start
  = (Throw CacheNotConfigured, Sample.start)
  ∧ getWeightedPrices Sample.alchemy ["A"; "B"] [1%float; 1%float] I24h Fixture.unbound
      Sample.start
    = (Throw CacheNotConfigured, Sample.start)
  ∧ priceRoute Sample.alchemy "A"
      {| symbols := None; ratios := None; interval := Some (intervalName I24h) |}
      Fixture.unbound Sample.start
    = (Ok {| status := 500; body := ErrorJson CacheNotConfigured |}, Sample.start).
Proof.
  exact (load_without_cache_binding Sample.alchemy "A" ["B"] [1%float; 1%float] I24h
           Fixture.unbound Sample.start eq_refl).
Defined.

(** X6, witness: "P" asked for twice, after it was cached; the provider
    that answers nothing is not consulted. *)
Lemma cached_symbols_make_no_request_witness :
  ∃ priceDataList,
    loadAll (λ _ _ _, ReplyFailed 500 "" "") ["P"; "P"] I30d Fixture.keyless Fixture.cachedP
    = (Ok priceDataList,
       withTrace Fixture.cachedP
         (map (λ sym, KVGet (generateCacheKey sym I30d)) ["P"; "P"]))
    ∧ Forall2 (λ sym d, store Fixture.cachedP !! generateCacheKey sym I30d = Some d)
        ["P"; "P"] priceDataList.
Proof.
  apply (cached_symbols_make_no_request (λ _ _ _, ReplyFailed 500 "" "") ["P"; "P"] I30d
           Fixture.keyless Fixture.cachedP eq_refl).
  repeat constructor; vm_compute; eauto.
Defined.

(** X7, witness: "P" loaded on the empty cache, then again from a provider
    that fails. *)
Lemma load_twice_hits_cache_witness :
  loadPrice (λ _ _ _, ReplyFailed 500 "" "") "P" I30d Sample.env Fixture.cachedP
  = (Ok (Sample.priceData "P" Sample.seriesP),
     withTrace Fixture.cachedP [KVGet (generateCacheKey "P" I30d)]).
Proof.
  apply (load_twice_hits_cache Sample.alchemy (λ _ _ _, ReplyFailed 500 "" "") "P" I30d
           Sample.env Sample.start).
  vm_compute. reflexivity.
Defined.

(** X9, witness: the empty cache and no API key. *)
Lemma load_miss_without_api_key_witness :
  loadPrice Sample.alchemy "A" I24h Fixture.keyless Sample.start
  = (Throw ApiKeyNotConfigured, withTrace Sample.start [KVGet (generateCacheKey "A" I24h)]).
Proof.
  apply (load_miss_without_api_key Sample.alchemy "A" I24h Fixture.keyless Sample.start);
    vm_compute; reflexivity.
Defined.

(** X10, witness: the empty cache, both bindings, the symbol "A". *)
Lemma load_miss_asks_provider_once_witness :
  ∃ events,
    trace (loadPrice Sample.alchemy "A" I24h Sample.env Sample.start).2
    = trace Sample.start ++ KVGet (generateCacheKey "A" I24h)
        :: AlchemyPost "A" (getTimeRangeAndInterval (now Sample.start) I24h) :: events
    ∧ (loadPrice Sample.alchemy "A" I24h Sample.env Sample.start).1
      = Ok (Sample.priceData "A" Sample.seriesA)
    ∧ events = [KVPut (generateCacheKey "A" I24h) CACHE_TTL].
Proof.
  destruct (load_miss_asks_provider_once Sample.alchemy "A" I24h Sample.env Sample.start
              eq_refl eq_refl eq_refl) as (events & Htrace & Hres & Hev & _).
  exists events. split; [exact Htrace|]. split; [exact Hres|exact Hev].
Defined.

(** X12, witness: the series "K" in the window [600000, 1200000], at
    900000. *)
Lemma inside_points_interpolates_neighbours_witness :
  ∃ pre a b post,
    availablePrices (priceMap (Sample.priceData "K" Sample.seriesK))
      (JS.Finite 600000) (JS.Finite 1200000)
    = pre ++ a :: b :: post
    ∧ a.1 <= 900000 <= b.1
    ∧ interpolatedValue "K" (priceMap (Sample.priceData "K" Sample.seriesK))
        (JS.Finite 600000) (JS.Finite 1200000) 900000
      = Ok (a.2 + (b.2 - a.2)
                  * (if (b.1 - a.1 =? 0)%Z then 0
                     else JS.ofZ (900000 - a.1)%Z / JS.ofZ (b.1 - a.1)%Z))%float.
Proof.
  apply (inside_points_interpolates_neighbours "K"
           (priceMap (Sample.priceData "K" Sample.seriesK)) (JS.Finite 600000) (JS.Finite 1200000) 900000
           (800000, JS.decimal "100") [(1000000, JS.decimal "200")]
           (1000000, JS.decimal "200")).
  - vm_compute. reflexivity.
  - discriminate.
  - reflexivity.
  - vm_compute. split; discriminate.
Defined.

(** X13, witness: the series "P" alone over 30 days. *)
Lemma aggregate_on_regular_timeline_witness :
  (∀ k p, Sample.seriesP !! k = Some p →
          timestamp p = 0 + Z.of_nat k * getTimeStep I30d ∧ timestamp p <= 172800000)
  ∧ (0 <= 172800000 →
     Z.of_nat (length Sample.seriesP) = (172800000 - 0) / getTimeStep I30d + 1).
Proof.
  apply (aggregate_on_regular_timeline Sample.alchemy ["P"] [1%float] I30d Sample.env
           Sample.start [Sample.priceData "P" Sample.seriesP] Fixture.cachedP);
    vm_compute; reflexivity.
Defined.

(** X14, witness: the window of "W" is [600000, 1200000], where the second
    series has no point. *)
Lemma gap_in_window_throws_witness :
  weightedSeries ["W"; "G"] [1%float; 1%float] I24h
    [Sample.priceData "W" Sample.seriesW; Sample.priceData "G" Fixture.seriesG]
  = Throw (NoDataForSymbol "G").
Proof.
  apply (gap_in_window_throws ["W"; "G"] [1%float; 1%float] I24h
           [Sample.priceData "W" Sample.seriesW; Sample.priceData "G" Fixture.seriesG]
           600000 1200000 1%nat (Sample.priceData "G" Fixture.seriesG)).
  - vm_compute. reflexivity.
  - vm_compute. reflexivity.
  - lia.
  - reflexivity.
  - intros (point & Hin & Hrange).
    change (point ∈ [Sample.pt 0 "1"; Sample.pt 2000000 "2"]) in Hin.
    rewrite !elem_of_cons in Hin. destruct Hin as [-> | [-> | Hin]].
    + cbn in Hrange. lia.
    + cbn in Hrange. lia.
    + by apply elem_of_nil in Hin.
  - intros j d' Hj Hd'. destruct j as [|j]; [|lia]. injection Hd' as <-.
    exists (Sample.pt 600000 "10"). split; [left|cbn; lia].
Defined.


(** X17, witness: "A" and an unknown token on the empty cache: the answer is
    the 500 of the failed load. *)
Lemma batch_fails_only_on_load_witness :
  (∃ values latestTimestamp,
     (batchRoute Sample.alchemy (Sample.query "A,nope" "") Sample.env Sample.start).1
     = Ok {| status := 200; body := BatchJson values latestTimestamp |})
  ∨ (∃ e, (batchRoute Sample.alchemy (Sample.query "A,nope" "") Sample.env Sample.start).1
          = Ok {| status := 500; body := ErrorJson e |}
          ∧ loadError e
          ∧ ∃ sym w0, sym ∈ JS.split "," (default "" (symbols (Sample.query "A,nope" "")))
                      ∧ (loadPrice Sample.alchemy sym I24h Sample.env w0).1 = Throw e)
  ∨ ((batchRoute Sample.alchemy (Sample.query "A,nope" "") Sample.env Sample.start).1
     = Ok {| status := 500; body := ErrorJson RangeError |}
     ∧ ∃ priceDataList d point,
         (loadAll Sample.alchemy
            (JS.split "," (default "" (symbols (Sample.query "A,nope" ""))))
            I24h Sample.env Sample.start).1
         = Ok priceDataList
         ∧ d ∈ priceDataList
         ∧ last (data d) = Some point
         ∧ ¬ JS.validTime (timestamp point)).
Proof.
  apply (batch_fails_only_on_load JS.decimal Sample.alchemy (Sample.query "A,nope" "")
           Sample.env Sample.start I24h).
  - apply reach_start. reflexivity.
  - reflexivity.
  - reflexivity.
Defined.

(** X19, witness: the sample provider serves "ETH" and fails for the three
    other symbols of the refresh. *)
Lemma scheduled_warms_served_symbols_witness :
  ∃ d, store (scheduled Sample.alchemy Sample.env Sample.start).2
         !! generateCacheKey "ETH" I30d = Some d
       ∧ data d ≠ [].
Proof.
  apply (scheduled_warms_served_symbols Sample.alchemy Sample.env Sample.start "ETH").
  - reflexivity.
  - reflexivity.
  - right. left.
  - intros tr range. by eexists _, _, _, _.
Defined.

(** X21, witness: a 404 of the handler that had set an origin of its own. *)
Lemma fetch_responses_carry_cors_witness :
  httpHeaders (addCorsHeaders
                 {| httpStatus := 404;
                    httpStatusText := "Not Found";
                    httpHeaders := headersSet "Access-Control-Allow-Origin"
                                     "https://example.org" ∅;
                    httpBody := Some "Not Found" |})
    !! "access-control-allow-origin" = Some "*".
Proof.
  exact (proj1 (fetch_responses_carry_cors "GET" Fixture.notFound Sample.start _ eq_refl)).
Defined.

(** X22, witness: an empty [interval] parameter. *)
Lemma missing_interval_is_24h_witness :
  priceRoute Sample.alchemy "A"
    {| symbols := None; ratios := None; interval := Some "" |} Sample.env
  = priceRoute Sample.alchemy "A"
      {| symbols := None; ratios := None; interval := Some "24h" |} Sample.env.
Proof.
  exact (proj1 (missing_interval_is_24h JS.decimal Sample.alchemy "A"
                  {| symbols := None; ratios := None; interval := Some "" |} Sample.env
                  (or_intror eq_refl))).
Defined.

(** X23, witness: a series that comes back to 100. *)
Lemma flat_series_has_zero_pnl_witness :
  ∃ pnl, percentChange Fixture.seriesFlat
         = Ok (PnlJson pnl (JS.decimal "100") (JS.decimal "100") 0 172800000)
         ∧ (pnl =? 0)%float = true.
Proof.
  apply (flat_series_has_zero_pnl (Sample.pt 0 "100")
           [Sample.pt 86400000 "120"; Sample.pt 172800000 "100"]
           false 7036874417766400 (-46)).
  - vm_compute. reflexivity.
  - vm_compute. reflexivity.
Defined.

(** ** One symbol with unit weight, against the specification's
    interpolation *)






